(** * RustyCode: cargo task lifecycle, diagnostic parsing and publishing,
      and the racer daemon driver

    A shallow embedding of the TypeScript sources
    - [CargoTask] and [CommandService] (cargo command service),
    - [DiagnosticPublisher] (components/cargo/diagnostic_publisher.ts),
    - [OutputChannelTaskManager] (components/cargo/output_channel_task_manager.ts),
    - [CompletionManager] (racer daemon driver),
    followed by the properties proved about them.

    Conventions.  Objects mutated in place become records threaded through
    the functions; a promise is the value it is settled with; the effects of
    a call (signals sent, callbacks invoked) are returned or logged in the
    state.  Text is a [string] of code units below 256; patterns are run by
    a backtracking matcher that follows the order in which JavaScript tries
    alternatives and repetitions. *)

From Stdlib Require Import ZArith Ascii String DecimalString.
From stdpp Require Import base option list strings gmap.

Set Warnings "-register-all".

Local Open Scope Z_scope.
Local Open Scope nat_scope.

(** ** CargoTask: one cargo subprocess *)

Module CargoTask.

(** [cp.ChildProcess]: only the pid is read. *)
Record ChildProcess := { pid : nat }.

(** The exit event carries [code], a number, or [null] when the process was
    terminated by a signal. *)
Definition ExitCode := option Z.

(** The promise returned by [execute].  [Rejected None] is [reject()]:
    "No error means the task has been interrupted". *)
Inductive Promise :=
| NotCreated
| Pending
| Resolved (code : ExitCode)
| Rejected (error : option string).

(** [private process; private interrupted = false] and the promise
    [execute] handed to its caller. *)
Record Task := {
  process : option ChildProcess;
  interrupted : bool;
  promise : Promise
}.

Definition new_task : Task :=
  {| process := None; interrupted := false; promise := NotCreated |}.

(** [resolve] and [reject] settle a promise once; later calls are ignored. *)
Definition settle (p v : Promise) : Promise :=
  match p with
  | Pending => v
  | _ => p
  end.

(** [execute]: a task is created per run by every caller, so [execute] is
    applied to a task once; [child] is what [cp.spawn] returned. *)
Definition execute (child : ChildProcess) (t : Task) : Task :=
  {| process := Some child; interrupted := interrupted t; promise := Pending |}.

(** [this.process.on('error', error => reject(error))] *)
Definition onError (error : string) (t : Task) : Task :=
  {| process := process t;
     interrupted := interrupted t;
     promise := settle (promise t) (Rejected (Some error)) |}.

(** [this.process.on('exit', code => ...)] *)
Definition onExit (code : ExitCode) (t : Task) : Task :=
  {| process := None;
     interrupted := interrupted t;
     promise :=
       settle (promise t)
              (if interrupted t then Rejected None else Resolved code) |}.

(** What [kill(pid, 'SIGINT', resolve)] of tree-kill is asked to do. *)
Inductive Signal := TreeKill (target : nat) (signal : string).

(** The promise returned by [kill]: its [resolve] is only ever handed to
    tree-kill as completion callback. *)
Inductive KillPromise :=
| ResolvedWhenKilled (target : nat)
| NeverSettled.

Record KillResult := {
  task_after : Task;
  signals : list Signal;
  returned : KillPromise
}.

Definition kill (t : Task) : KillResult :=
  match interrupted t, process t with
  | false, Some child =>
      {| task_after :=
           {| process := process t; interrupted := true; promise := promise t |};
         signals := [TreeKill (pid child) "SIGINT"];
         returned := ResolvedWhenKilled (pid child) |}
  | _, _ =>
      {| task_after := t; signals := []; returned := NeverSettled |}
  end.

(** What can happen to a task after [execute].  The listeners are attached
    to [this.process] and removed by the exit handler, which also clears
    [this.process]: an event of a process that is gone reaches no listener. *)
Inductive Event :=
| EvKill
| EvError (error : string)
| EvExit (code : ExitCode).

Definition deliver (t : Task) (ev : Event) : Task :=
  match ev with
  | EvKill => task_after (kill t)
  | EvError e =>
      match process t with
      | Some _ => onError e t
      | None => t
      end
  | EvExit c =>
      match process t with
      | Some _ => onExit c t
      | None => t
      end
  end.

Definition run (t : Task) (evs : list Event) : Task :=
  fold_left deliver evs t.

(** The signals sent while the events are delivered. *)
Fixpoint sent (t : Task) (evs : list Event) : list Signal :=
  match evs with
  | [] => []
  | ev :: evs' =>
      match ev with
      | EvKill => signals (kill t)
      | _ => []
      end ++ sent (deliver t ev) evs'
  end.

(** The life of a task: [kills] calls of [kill] before [execute] (a task is
    stored as current task before its [execute] is reached), the spawn,
    then [evs]. *)
Definition lifecycle (kills : nat) (child : ChildProcess) (evs : list Event)
  : Task :=
  run (execute child (Nat.iter kills (fun t => task_after (kill t)) new_task)) evs.

Definition is_error (ev : Event) : bool :=
  match ev with
  | EvError _ => true
  | _ => false
  end.

Definition no_error (evs : list Event) : bool := forallb (fun ev => negb (is_error ev)) evs.

(** An interrupted task whose process runs and whose promise is pending, or
    whose exit was already reported as an interruption. *)
Definition awaiting_interruption (t : Task) : Prop :=
  interrupted t = true /\
  ((is_Some (process t) /\ promise t = Pending) \/
   (process t = None /\ promise t = Rejected None)).

End CargoTask.

(** ** The editor's diagnostic model (vscode) *)

Module Vscode.

Record Position := { line : nat; character : nat }.

Record Range := { start : Position; end_ : Position }.

Inductive DiagnosticSeverity := Error | Warning | Information | Hint.

Record Diagnostic := {
  range : Range;
  message : string;
  severity : DiagnosticSeverity
}.

Definition position_isEqual (a b : Position) : bool :=
  (line a =? line b) && (character a =? character b).

(** [Range.isEqual] *)
Definition range_isEqual (a b : Range) : bool :=
  position_isEqual (start a) (start b) && position_isEqual (end_ a) (end_ b).

(** Two diagnostics of a file that count as one: same range and same
    message, whatever their severity. *)
Definition same_record (a b : Diagnostic) : Prop :=
  range a = range b /\ message a = message b.

(** No two entries of a sequence count as one. *)
Definition distinct_records (ds : list Diagnostic) : Prop :=
  forall i j a b, ds !! i = Some a -> ds !! j = Some b -> same_record a b -> i = j.

End Vscode.

(** ** DiagnosticPublisher *)

Module DiagnosticPublisher.
Import Vscode.

Record FileDiagnostic := { filePath : string; diagnostic : Diagnostic }.

Section Publisher.
(** [isAbsolute] and [join] of node's path module, and [Uri.file] followed
    by the collection's keying of a uri. *)
Variable isAbsolute : string -> bool.
Variable join : string -> string -> string.
Variable Uri_file : string -> string.

(** [DiagnosticCollection]: [get] answers [undefined] for a uri that was
    never set. *)
Definition clearDiagnostics (diagnostics : gmap string (list Diagnostic))
  : gmap string (list Diagnostic) := ∅.

Definition isUniqueDiagnostic (diagnostic : Diagnostic)
           (diagnostics : list Diagnostic) : bool :=
  let foundDiagnostic :=
    List.find (fun uniqueDiagnostic =>
            if negb (range_isEqual (range diagnostic) (range uniqueDiagnostic))
            then false
            else if negb (String.eqb (message diagnostic)
                                     (message uniqueDiagnostic))
                 then false
                 else true)
         diagnostics in
  match foundDiagnostic with
  | None => true
  | Some _ => false
  end.

Definition publishDiagnostic (fileDiagnostic : FileDiagnostic) (cwd : string)
           (diagnostics : gmap string (list Diagnostic))
  : gmap string (list Diagnostic) :=
  let absoluteFilePath :=
    if isAbsolute (filePath fileDiagnostic)
    then filePath fileDiagnostic
    else join cwd (filePath fileDiagnostic) in
  let filePathUri := Uri_file absoluteFilePath in
  match diagnostics !! filePathUri with
  | None => <[filePathUri := [diagnostic fileDiagnostic]]> diagnostics
  | Some oneFileDiagnostics =>
      if isUniqueDiagnostic (diagnostic fileDiagnostic) oneFileDiagnostics
      then <[filePathUri := oneFileDiagnostics ++ [diagnostic fileDiagnostic]]>
             diagnostics
      else diagnostics
  end.

(** The key under which [publishDiagnostic] stores a diagnostic. *)
Definition uri_of (fd : FileDiagnostic) (cwd : string) : string :=
  Uri_file (if isAbsolute (filePath fd) then filePath fd
            else join cwd (filePath fd)).

(** The calls a publisher receives. *)
Inductive Call :=
| Publish (fileDiagnostic : FileDiagnostic) (cwd : string)
| Clear.

Definition call (diagnostics : gmap string (list Diagnostic)) (c : Call)
  : gmap string (list Diagnostic) :=
  match c with
  | Publish fd cwd => publishDiagnostic fd cwd diagnostics
  | Clear => clearDiagnostics diagnostics
  end.

(** The collection of a publisher after [calls], from its constructor. *)
Definition published (calls : list Call) : gmap string (list Diagnostic) :=
  fold_left call calls ∅.

End Publisher.

(** Two reports of one finding, as an error and as a warning. *)
Definition sample_range : Range :=
  {| start := {| line := 2; character := 4 |};
     end_ := {| line := 2; character := 9 |} |}.

Definition sample_error : FileDiagnostic :=
  {| filePath := "src/main.rs";
     diagnostic := {| range := sample_range;
                      message := "mismatched types";
                      severity := Error |} |}.

Definition sample_warning : FileDiagnostic :=
  {| filePath := "/w/src/main.rs";
     diagnostic := {| range := sample_range;
                      message := "mismatched types";
                      severity := Warning |} |}.

(** Paths as on a POSIX system. *)
Definition posix_isAbsolute (p : string) : bool := String.prefix "/" p.

Definition posix_join (a b : string) : string := (a +:+ "/" +:+ b)%string.

End DiagnosticPublisher.

(** ** distinctDiagnostics (command service) *)

Module Distinct.
Import Vscode.

Definition show_nat (n : nat) : string :=
  NilEmpty.string_of_uint (Nat.to_uint n).

(** The template literal that keys a diagnostic. *)
Definition key (diag : Diagnostic) : string :=
  (show_nat (line (start (range diag))) +:+ ":" +:+
   show_nat (character (start (range diag))) +:+ ":" +:+
   show_nat (line (end_ (range diag))) +:+ ":" +:+
   show_nat (character (end_ (range diag))) +:+ ":" +:+
   message diag)%string.

(** A JavaScript [Map] keeps its keys in insertion order; [set] on a key
    that is present replaces the value where the key stands. *)
Fixpoint map_set {V} (k : string) (v : V) (m : list (string * V))
  : list (string * V) :=
  match m with
  | [] => [(k, v)]
  | (k', v') :: m' =>
      if String.eqb k k' then (k, v) :: m' else (k', v') :: map_set k v m'
  end.

Definition map_values {V} (m : list (string * V)) : list V := snd <$> m.

Definition distinctDiagnostics (diags : list Diagnostic) : list Diagnostic :=
  map_values (fold_left (fun m diag => map_set (key diag) diag m) diags []).

End Distinct.

(** ** Text helpers *)

Module Text.

Definition LF : ascii := "010"%char.
Definition CR : ascii := "013"%char.

(** A one-character string. *)
Definition chr (c : ascii) : string := String c EmptyString.

Definition nl : string := chr LF.

(** [String.prototype.repeat] *)
Fixpoint repeat_string (s : string) (n : nat) : string :=
  match n with
  | 0 => EmptyString
  | S n' => (s +:+ repeat_string s n')%string
  end.

(** [Array.prototype.join] *)
Fixpoint join_with (sep : string) (l : list string) : string :=
  match l with
  | [] => EmptyString
  | [x] => x
  | x :: l' => (x +:+ sep +:+ join_with sep l')%string
  end.

(** A number inside a template literal. *)
Definition show_Z (z : Z) : string := NilEmpty.string_of_int (Z.to_int z).

(** [String.prototype.startsWith] *)
Definition startsWith (p s : string) : bool := String.prefix p s.

End Text.

(** ** rustc's JSON diagnostics and [CommandService.parseJson] *)

Module Json.
Import Text.

(** A span of the compiler's JSON output.  [expansion] is absent or [null]
    outside macros; the span inside an expansion may be missing as well. *)
Inductive Span := mkSpan {
  file_name : string;
  line_start : Z;
  column_start : Z;
  line_end : Z;
  column_end : Z;
  is_primary : bool;
  expansion : option Expansion
}
with Expansion := mkExpansion {
  span : option Span
}.

(** A child diagnostic (note, help).  A missing [spans] or [children] is the
    empty list here: the code tests [child.spans && child.spans.length > 0]
    and [if (child.children)], and iterating an empty list adds nothing. *)
Inductive Child := mkChild {
  child_message : string;
  child_spans : list Span;
  child_children : list Child
}.

Record ErrorJson := {
  spans : list Span;
  level : string;
  message : string;
  code : option string;
  children : list Child
}.

Record RustError := {
  filename : string;
  startLine : Z;
  startCharacter : Z;
  endLine : Z;
  endCharacter : Z;
  severity : string;
  error_message : string
}.

(** [while (primarySpan.expansion && primarySpan.expansion.span)
       primarySpan = primarySpan.expansion.span;] *)
Fixpoint follow_expansion (primarySpan : Span) : Span :=
  match expansion primarySpan with
  | Some (mkExpansion (Some inner)) => follow_expansion inner
  | _ => primarySpan
  end.

(** The [file(line)] references of a child's spans. *)
Definition span_lines (l : list Span) : list string :=
  omap (fun s =>
          if (String.eqb (file_name s) EmptyString || (line_start s =? 0)%Z)%bool
          then None
          else Some (file_name s +:+ "(" +:+ show_Z (line_start s) +:+ ")")%string)
       l.

(** One turn of the loop of [addNotesToMessage]. *)
Fixpoint addNote (level : nat) (msg : string) (child : Child) : string :=
  let ident := repeat_string "   " level in
  let msg1 := (msg +:+ nl +:+ ident +:+ child_message child)%string in
  let msg2 :=
    if 0 <? length (child_spans child)
    then (msg1 +:+ ": " +:+ join_with ", " (span_lines (child_spans child)))%string
    else msg1 in
  fold_left (addNote (S level)) (child_children child) msg2.

Definition addNotesToMessage (msg : string) (children : list Child)
           (level : nat) : string :=
  fold_left (addNote level) children msg.

(** [parseJson] pushes at most one error and answers whether it did:
    [None] is [return false]. *)
Definition parseJson (errorJson : ErrorJson) : option RustError :=
  match spans errorJson with
  | [] => None
  | _ =>
      match List.find is_primary (spans errorJson) with
      | None => None
      | Some primarySpan =>
          let primarySpan := follow_expansion primarySpan in
          let message0 :=
            match code errorJson with
            | Some c => (c +:+ ": " +:+ message errorJson)%string
            | None => message errorJson
            end in
          Some {| filename := file_name primarySpan;
                  startLine := line_start primarySpan;
                  startCharacter := column_start primarySpan;
                  endLine := line_end primarySpan;
                  endCharacter := column_end primarySpan;
                  severity := level errorJson;
                  error_message :=
                    addNotesToMessage message0 (children errorJson) 1 |}
      end
  end.

(** Where an error points. *)
Definition location (e : RustError) : string * Z * Z * Z * Z :=
  (filename e, startLine e, startCharacter e, endLine e, endCharacter e).

Definition span_location (s : Span) : string * Z * Z * Z * Z :=
  (file_name s, line_start s, column_start s, line_end s, column_end s).

(** One step of an expansion chain, and the span a chain ends in. *)
Definition expands_to (s inner : Span) : Prop :=
  expansion s = Some (mkExpansion (Some inner)).

Definition outermost (s o : Span) : Prop :=
  rtc expands_to s o /\ forall inner, ~ expands_to o inner.

Definition not_primary (s : Span) : Prop := is_primary s = false.

(** A diagnostic reported inside a macro: the primary span lies in the
    macro's definition and expands to the call in the user's file; a second
    span is not primary. *)
Definition call_site : Span :=
  mkSpan "src/main.rs" 3 5 3 20 false None.

Definition in_macro : Span :=
  mkSpan "<std macros>" 1 1 1 10 true (Some (mkExpansion (Some call_site))).

Definition secondary : Span :=
  mkSpan "src/lib.rs" 8 1 8 4 false None.

Definition macro_error : ErrorJson :=
  {| spans := [in_macro; secondary];
     level := "error";
     message := "mismatched types";
     code := Some "E0308"%string;
     children := [] |}.

End Json.

(** ** OutputChannelTaskManager: the arguments of a started task *)

Module OutputChannelTaskManager.

Section StartTask.
(** [join] of node's path module. *)
Variable join : string -> string -> string.

(** [cargoCwd] is [configurationManager.getCargoCwd()], [None] when it
    answers [undefined]. *)
Definition prependArgsWithManifestPathIfRequired
           (cargoCwd : option string) (cwd : string) (args : list string)
  : list string :=
  match cargoCwd with
  | None => args
  | Some dir =>
      if String.eqb dir cwd then args
      else
        let manifestPath := join cwd "Cargo.toml" in
        ["--manifest-path"; manifestPath]%string ++ args
  end.

(** The cases of the [switch] on the command. *)
Definition prints_json (command : string) : bool :=
  String.eqb command "build" || String.eqb command "check"
  || String.eqb command "clippy" || String.eqb command "test"
  || String.eqb command "run".

Definition prependArgsWithMessageFormatIfRequired
           (parseOutput : bool) (command : string) (args : list string)
  : list string :=
  if negb parseOutput then args
  else if prints_json command
       then ["--message-format"; "json"]%string ++ args
       else args.

(** The arguments and the directory [startTask] creates its [Task] with. *)
Definition startTask (cargoCwd : option string) (command : string)
           (args : list string) (cwd : string) (parseOutput : bool)
  : list string * string :=
  let args := prependArgsWithMessageFormatIfRequired parseOutput command args in
  let args := prependArgsWithManifestPathIfRequired cargoCwd cwd args in
  let args := [command] ++ args in
  let cwd := match cargoCwd with
             | Some dir => dir
             | None => cwd
             end in
  (args, cwd).

End StartTask.

(** The subcommands whose output is asked for as JSON. *)
Definition known_commands : list string :=
  ["build"; "check"; "clippy"; "test"; "run"]%string.

End OutputChannelTaskManager.

(** ** CompletionManager: the racer daemon *)

Module CompletionManager.
Import Text.

(** A callback of [commandCallbacks] is the [resolve] of the promise that
    [runCommand] returned; it is named by a number. *)
Definition Callback := nat.

(** The fields that [start] initialises, of a manager that was started.
    [invoked] logs every call of a callback with its argument, oldest
    first; [stdin] is what was written to the daemon. *)
Record State := {
  racerDaemon : bool;
  commandCallbacks : list Callback;
  linesBuffer : list string;
  dataBuffer : string;
  lastCommand : string;
  stdin : list string;
  restarts : list string;
  invoked : list (Callback * list string)
}.

(** [/\r?\n$/.test(dataStr)]: without the multiline flag [$] is the end of
    the input. *)
Fixpoint ends_with_newline (s : string) : bool :=
  match s with
  | EmptyString => false
  | String c EmptyString => Ascii.eqb c LF
  | String _ s' => ends_with_newline s'
  end.

(** [split(/\r?\n/)]: [cur] is the piece being read. *)
Fixpoint split_from (cur : string) (s : string) : list string :=
  match s with
  | EmptyString => [cur]
  | String c s' =>
      if Ascii.eqb c LF then cur :: split_from EmptyString s'
      else
        match s' with
        | String c' s'' =>
            if Ascii.eqb c CR && Ascii.eqb c' LF
            then cur :: split_from EmptyString s''
            else split_from (cur +:+ chr c) s'
        | EmptyString => split_from (cur +:+ chr c) s'
        end
  end.

Definition split_lines (s : string) : list string := split_from EmptyString s.

(** The first half of [dataHandler]: the new [dataBuffer] and the lines
    handed to the loop. *)
Definition reassemble (dataBuffer dataStr : string) : string * list string :=
  if negb (ends_with_newline dataStr)
  then ((dataBuffer +:+ dataStr)%string, [])
  else (EmptyString, split_lines (dataBuffer +:+ dataStr)).

(** One turn of the loop of [dataHandler]. *)
Definition handleLine (st : State) (line : string) : State :=
  if String.length line =? 0 then st
  else if startsWith "END" line then
    match commandCallbacks st with
    | callback :: rest =>
        {| racerDaemon := racerDaemon st;
           commandCallbacks := rest;
           linesBuffer := [];
           dataBuffer := dataBuffer st;
           lastCommand := lastCommand st;
           stdin := stdin st;
           restarts := restarts st;
           invoked := invoked st ++ [(callback, linesBuffer st)] |}
    | [] =>
        {| racerDaemon := racerDaemon st;
           commandCallbacks := [];
           linesBuffer := [];
           dataBuffer := dataBuffer st;
           lastCommand := lastCommand st;
           stdin := stdin st;
           restarts := restarts st;
           invoked := invoked st |}
    end
  else
    {| racerDaemon := racerDaemon st;
       commandCallbacks := commandCallbacks st;
       linesBuffer := linesBuffer st ++ [line];
       dataBuffer := dataBuffer st;
       lastCommand := lastCommand st;
       stdin := stdin st;
       restarts := restarts st;
       invoked := invoked st |}.

Definition set_dataBuffer (b : string) (st : State) : State :=
  {| racerDaemon := racerDaemon st;
     commandCallbacks := commandCallbacks st;
     linesBuffer := linesBuffer st;
     dataBuffer := b;
     lastCommand := lastCommand st;
     stdin := stdin st;
     restarts := restarts st;
     invoked := invoked st |}.

Section Daemon.
(** What the daemon writes reaches [dataHandler] chunk by chunk, each a
    [Buffer]; [data.toString()] decodes the bytes of one chunk on their
    own. *)
Variable Buffer : Type.
Variable toString : Buffer -> string.

Definition dataHandler (data : Buffer) (st : State) : State :=
  let dataStr := toString data in
  let '(buffer, lines) := reassemble (dataBuffer st) dataStr in
  fold_left handleLine lines (set_dataBuffer buffer st).

(** [runCommand]: [false] is the rejected promise of a manager without
    daemon; otherwise the promise's [resolve] is [callback]. *)
Definition runCommand (callback : Callback) (command : string)
           (args : list string) (st : State) : State * bool :=
  if negb (racerDaemon st) then (st, false)
  else
    let queryString := (join_with (chr "009") (command :: args) +:+ nl)%string in
    ({| racerDaemon := racerDaemon st;
        commandCallbacks := commandCallbacks st ++ [callback];
        linesBuffer := linesBuffer st;
        dataBuffer := dataBuffer st;
        lastCommand := queryString;
        stdin := stdin st ++ [queryString];
        restarts := restarts st;
        invoked := invoked st |}, true).

(** [start]: the fields are reset and the daemon is spawned. *)
Definition start (st : State) : State :=
  {| racerDaemon := true;
     commandCallbacks := [];
     linesBuffer := [];
     dataBuffer := EmptyString;
     lastCommand := EmptyString;
     stdin := [];
     restarts := restarts st;
     invoked := invoked st |}.

Definition stopDaemon (st : State) : State :=
  if negb (racerDaemon st) then st
  else
    {| racerDaemon := false;
       commandCallbacks := commandCallbacks st;
       linesBuffer := linesBuffer st;
       dataBuffer := dataBuffer st;
       lastCommand := lastCommand st;
       stdin := stdin st;
       restarts := restarts st;
       invoked := invoked st |}.

(** [this.commandCallbacks.forEach(callback => callback([]))] *)
Definition clearCommandCallbacks (st : State) : State :=
  {| racerDaemon := racerDaemon st;
     commandCallbacks := commandCallbacks st;
     linesBuffer := linesBuffer st;
     dataBuffer := dataBuffer st;
     lastCommand := lastCommand st;
     stdin := stdin st;
     restarts := restarts st;
     invoked := invoked st ++ map (fun callback => (callback, [])) (commandCallbacks st) |}.

(** [stop]; the status bar and the editor listeners are not part of the
    state. *)
Definition stop (st : State) : State :=
  clearCommandCallbacks (stopDaemon st).

(** [if (pathToRacer)]: neither [undefined] nor the empty string. *)
Definition restart (pathToRacer : option string) (st : State) : State :=
  let st := stop st in
  match pathToRacer with
  | Some path => if String.eqb path EmptyString then st else start st
  | None => st
  end.

(** [scheduleRestart]: a timer that will call [restart(pathToRacer)]. *)
Definition scheduleRestart (pathToRacer : string) (st : State) : State :=
  {| racerDaemon := racerDaemon st;
     commandCallbacks := commandCallbacks st;
     linesBuffer := linesBuffer st;
     dataBuffer := dataBuffer st;
     lastCommand := lastCommand st;
     stdin := stdin st;
     restarts := restarts st ++ [pathToRacer];
     invoked := invoked st |}.

(** The oldest timer fires. *)
Definition onTimeout (st : State) : State :=
  match restarts st with
  | [] => st
  | pathToRacer :: timers =>
      restart (Some pathToRacer)
              {| racerDaemon := racerDaemon st;
                 commandCallbacks := commandCallbacks st;
                 linesBuffer := linesBuffer st;
                 dataBuffer := dataBuffer st;
                 lastCommand := lastCommand st;
                 stdin := stdin st;
                 restarts := timers;
                 invoked := invoked st |}
  end.

(** The daemon's ['close'] listener; [code] is [None] for [null]. *)
Definition onClose (pathToRacer : string) (code : option Z) (st : State) : State :=
  let st := stopDaemon st in
  match code with
  | Some 0%Z => st
  | _ => scheduleRestart pathToRacer st
  end.

(** The daemon's ['error'] listener; [errCode] is [err.code]. *)
Definition onSpawnError (pathToRacer : string) (errCode : string) (st : State) : State :=
  let st := stopDaemon st in
  if String.eqb errCode "ENOENT" then st
  else scheduleRestart pathToRacer st.

(** Requests and daemon output, as they reach a running manager. *)
Inductive Event :=
| Request (callback : Callback) (command : string) (args : list string)
| Data (data : Buffer).

Definition step (st : State) (ev : Event) : State :=
  match ev with
  | Request callback command args => fst (runCommand callback command args st)
  | Data data => dataHandler data st
  end.

Definition run (st : State) (evs : list Event) : State := fold_left step evs st.

(** A manager right after [start]. *)
Definition started : State :=
  {| racerDaemon := true;
     commandCallbacks := [];
     linesBuffer := [];
     dataBuffer := EmptyString;
     lastCommand := EmptyString;
     stdin := [];
     restarts := [];
     invoked := [] |}.

(** *** What a run of events should deliver *)

(** The text of the daemon's output, each chunk decoded on its own, and the
    callbacks of the requests, in order. *)
Fixpoint received (evs : list Event) : string :=
  match evs with
  | [] => EmptyString
  | Data data :: evs' => (toString data +:+ received evs')%string
  | Request _ _ _ :: evs' => received evs'
  end.

Fixpoint issued (evs : list Event) : list Callback :=
  match evs with
  | [] => []
  | Request callback _ _ :: evs' => callback :: issued evs'
  | Data _ :: evs' => issued evs'
  end.

(** A text made of whole lines. *)
Definition terminated (s : string) : bool :=
  String.eqb s EmptyString || ends_with_newline s.

Definition nonempty (line : string) : bool := negb (String.length line =? 0).

(** The lines of a text that the loop of [dataHandler] acts on. *)
Definition nonempty_lines (s : string) : list string :=
  filter (fun line => nonempty line = true) (split_lines s).

(** The batches closed by a sentinel so far, and the lines after the last
    sentinel. *)
Definition scan_step (acc : list (list string) * list string) (line : string)
  : list (list string) * list string :=
  if startsWith "END" line then (fst acc ++ [snd acc], [])
  else (fst acc, snd acc ++ [line]).

Definition scan_lines (lines : list string) : list (list string) * list string :=
  fold_left scan_step lines ([], []).

(** The response batches of a text. *)
Definition batches (s : string) : list (list string) :=
  fst (scan_lines (nonempty_lines s)).

(** Responses follow requests: whenever the output received so far is made
    of whole lines, it holds no more sentinels than requests were issued. *)
Definition in_time (recv : string) (requests : nat) : bool :=
  implb (terminated recv) (length (batches recv) <=? requests).

Fixpoint causal_from (recv : string) (requests : nat) (evs : list Event) : bool :=
  in_time recv requests &&
  match evs with
  | [] => true
  | Request _ _ _ :: evs' => causal_from recv (S requests) evs'
  | Data data :: evs' => causal_from (recv +:+ toString data) requests evs'
  end.

Definition causal (evs : list Event) : bool := causal_from EmptyString 0 evs.

(** What the state of a manager is after [evs]: the text [P] handed to the
    loop so far is made of whole lines, the rest waits in [dataBuffer], the
    batches of [P] went to the first callbacks issued, and the other
    callbacks wait. *)
Definition consistent (evs : list Event) (st : State) : Prop :=
  exists P,
    received evs = (P +:+ dataBuffer st)%string
    /\ terminated P = true
    /\ ends_with_newline (dataBuffer st) = false
    /\ racerDaemon st = true
    /\ length (fst (scan_lines (nonempty_lines P))) <= length (issued evs)
    /\ invoked st = combine (issued evs) (fst (scan_lines (nonempty_lines P)))
    /\ commandCallbacks st
       = drop (length (fst (scan_lines (nonempty_lines P)))) (issued evs)
    /\ linesBuffer st = snd (scan_lines (nonempty_lines P)).

(** *** The line reassembly alone *)

(** The buffer and the lines acted on so far, after one more chunk. *)
Definition feed (acc : string * list string) (data : Buffer)
  : string * list string :=
  let dataStr := toString data in
  let '(buffer, lines) := reassemble (fst acc) dataStr in
  (buffer, snd acc ++ filter (fun line => nonempty line = true) lines).

Definition feed_all (chunks : list Buffer) : string * list string :=
  fold_left feed chunks (EmptyString, []).

(** The text of the chunks, each decoded on its own. *)
Definition stream (chunks : list Buffer) : string :=
  fold_right (fun data rest => (toString data +:+ rest)%string) EmptyString chunks.

(** What [feed_all] has reached after [chunks]: the lines of the text [P]
    handed on so far, the rest of the stream waiting in the buffer. *)
Definition fed (chunks : list Buffer) (acc : string * list string) : Prop :=
  exists P,
    stream chunks = (P +:+ fst acc)%string
    /\ terminated P = true
    /\ ends_with_newline (fst acc) = false
    /\ snd acc = nonempty_lines P.

End Daemon.

Arguments Request {Buffer}.
Arguments Data {Buffer}.
Arguments dataHandler {Buffer}.
Arguments step {Buffer}.
Arguments run {Buffer}.
Arguments received {Buffer}.
Arguments issued {Buffer}.
Arguments causal_from {Buffer}.
Arguments causal {Buffer}.
Arguments consistent {Buffer}.
Arguments feed {Buffer}.
Arguments feed_all {Buffer}.
Arguments stream {Buffer}.
Arguments fed {Buffer}.

(** The decoding of chunks that hold ASCII bytes only, a chunk being given
    by its bytes as text: every byte is a character of its own. *)
Definition ascii_toString (data : string) : string := data.

(** Two completion requests; the daemon answers the first while the second
    is issued, its output cut inside a sentinel and using both line
    terminators. *)
Definition sample_run : list (Event string) :=
  [ Request 1 "complete" ["3"; "7"; "main.rs"]%string;
    Data ("MATCH a" +:+ nl +:+ "EN")%string;
    Request 2 "find-definition" ["9"; "2"; "main.rs"]%string;
    Data ("D" +:+ nl +:+ "MATCH b" +:+ chr CR +:+ nl +:+ "END" +:+ nl)%string ].

(** An early sentinel: the daemon sends a sentinel line before any request
    was issued, then answers the request that follows. *)
Definition early_sentinel : list (Event string) :=
  [ Data ("END" +:+ nl)%string;
    Request 1 "complete" ["3"; "7"; "main.rs"]%string;
    Data ("MATCH a" +:+ nl +:+ "END" +:+ nl)%string ].

(** One text cut in two ways. *)
Definition whole_chunk : list string := [("a" +:+ nl +:+ "b")%string].

Definition two_chunks : list string := [("a" +:+ nl)%string; "b"%string].

(** A line as the daemon prints it: not empty, no line feed inside, no
    carriage return at its end. *)
Fixpoint plain_from (s : string) : bool :=
  match s with
  | EmptyString => true
  | String c EmptyString => negb (Ascii.eqb c LF) && negb (Ascii.eqb c CR)
  | String c s' => negb (Ascii.eqb c LF) && plain_from s'
  end.

Definition plain (line : string) : bool := nonempty line && plain_from line.

Inductive Terminator := UnixEnd | DosEnd.

Definition terminator (t : Terminator) : string :=
  match t with
  | UnixEnd => chr LF
  | DosEnd => (chr CR +:+ chr LF)%string
  end.

(** The text of lines, each with its own terminator. *)
Definition print_lines (l : list (string * Terminator)) : string :=
  fold_right (fun lt rest => (fst lt +:+ terminator (snd lt) +:+ rest)%string)
             EmptyString l.

End CompletionManager.

(** ** Regular expressions, as the parser of compiler output uses them *)

Module Regex.
Import Text.

(** The constructs that occur in the command service's patterns: greedy
    quantifiers, ordered alternatives, character classes and capture
    groups.  [r+] is [Seq r (Star r)] and [r?] is [Alt r Eps]. *)
Inductive regex :=
| Eps
| Chr (c : ascii)
| Cls (p : ascii -> bool)
| Seq (r1 r2 : regex)
| Alt (r1 r2 : regex)
| Star (r : regex)
| Grp (n : nat) (r : regex).

Definition Plus (r : regex) : regex := Seq r (Star r).
Definition Opt (r : regex) : regex := Alt r Eps.

Fixpoint lit (s : string) : regex :=
  match s with
  | EmptyString => Eps
  | String c s' => Seq (Chr c) (lit s')
  end.

Fixpoint seq (rs : list regex) : regex :=
  match rs with
  | [] => Eps
  | r :: rs' => Seq r (seq rs')
  end.

(** [\s], [\d] and [.] on code units below 256. *)
Definition ws (c : ascii) : bool :=
  let n := nat_of_ascii c in
  ((9 <=? n) && (n <=? 13)) || (n =? 32) || (n =? 160).

Definition digit (c : ascii) : bool :=
  let n := nat_of_ascii c in (48 <=? n) && (n <=? 57).

Definition dot (c : ascii) : bool :=
  negb (Ascii.eqb c LF || Ascii.eqb c CR).

(** The captures of a match in progress, the latest first. *)
Definition Captures := list (nat * string).

Fixpoint capture (caps : Captures) (n : nat) : option string :=
  match caps with
  | [] => None
  | (m, s) :: caps' => if m =? n then Some s else capture caps' n
  end.

Section Matcher.
Variable A : Type.

(** Backtracking matcher: [k] is what remains to be matched after [r];
    the first way that makes [k] succeed is taken.  An iteration of a
    star that consumes nothing is abandoned, so at most [length s]
    iterations happen. *)
Fixpoint rmatch (r : regex) (s : string) (caps : Captures)
         (k : string -> Captures -> option A) {struct r} : option A :=
  match r with
  | Eps => k s caps
  | Chr c =>
      match s with
      | String x s' => if Ascii.eqb x c then k s' caps else None
      | EmptyString => None
      end
  | Cls p =>
      match s with
      | String x s' => if p x then k s' caps else None
      | EmptyString => None
      end
  | Seq r1 r2 => rmatch r1 s caps (fun s' caps' => rmatch r2 s' caps' k)
  | Alt r1 r2 =>
      match rmatch r1 s caps k with
      | Some x => Some x
      | None => rmatch r2 s caps k
      end
  | Star r' =>
      (fix iterate (n : nat) (s : string) (caps : Captures) : option A :=
         match n with
         | 0 => k s caps
         | S n' =>
             match rmatch r' s caps
                          (fun s' caps' =>
                             if String.length s' <? String.length s
                             then iterate n' s' caps'
                             else None) with
             | Some x => Some x
             | None => k s caps
             end
         end) (String.length s) s caps
  | Grp n r' =>
      rmatch r' s caps
             (fun s' caps' =>
                k s' ((n, substring 0 (String.length s - String.length s') s)
                        :: caps'))
  end.
End Matcher.

(** What [exec] answers: [index], [match[0]] and the groups. *)
Record Match := { index : nat; matched : string; groups : Captures }.

Definition group (m : Match) (n : nat) : option string := capture (groups m) n.

(** The leftmost match in [s], which starts at position [pos] of the
    input. *)
Fixpoint search (r : regex) (s : string) (pos : nat) : option Match :=
  match rmatch _ r s [] (fun s' caps => Some (s', caps)) with
  | Some (s', caps) =>
      Some {| index := pos;
              matched := substring 0 (String.length s - String.length s') s;
              groups := caps |}
  | None =>
      match s with
      | EmptyString => None
      | String _ s' => search r s' (S pos)
      end
  end.

Fixpoint drop_string (n : nat) (s : string) : string :=
  match n, s with
  | S n', String _ s' => drop_string n' s'
  | _, _ => s
  end.

(** [exec] of a pattern with the global flag: the match and the new
    [lastIndex]. *)
Definition exec (r : regex) (s : string) (lastIndex : nat) : option Match * nat :=
  if String.length s <? lastIndex then (None, 0)
  else
    match search r (drop_string lastIndex s) lastIndex with
    | Some m => (Some m, index m + String.length (matched m))
    | None => (None, 0)
    end.

(** [test] of a pattern that was just created. *)
Definition test (r : regex) (s : string) : bool :=
  match search r s 0 with
  | Some _ => true
  | None => false
  end.

(** [replace] with a global pattern that matches no empty string: [skip]
    characters of the match being replaced are still to be passed. *)
Fixpoint replace_from (r : regex) (replacement : string) (s : string)
         (skip : nat) : string :=
  match s with
  | EmptyString => EmptyString
  | String c s' =>
      match skip with
      | S skip' => replace_from r replacement s' skip'
      | 0 =>
          match rmatch _ r s []
                       (fun s'' _ => Some (String.length s - String.length s'')) with
          | Some (S n) => (replacement +:+ replace_from r replacement s' n)%string
          | _ => String c (replace_from r replacement s' 0)
          end
      end
  end.

Definition replace (r : regex) (replacement : string) (s : string) : string :=
  replace_from r replacement s 0.

End Regex.

(** ** [CommandService.parseNewHumanReadable] *)

Module NewStyle.
Import Text Regex.
Export Json (RustError, Build_RustError, filename, startLine, startCharacter,
             endLine, endCharacter, severity, error_message).

(** The pattern of a block, written here with a blank after every star:
    (warning|error|note|help)(?:\[(.* )\])?\: (.* )\s+--> (.* ):(\d+):(\d+)\n
    (?:((?:.+\n)+)\.+)?(?:[\d\s]+\|.* )* \n((?:\s+=.* )+)?          *)
Definition newErrorRegex : regex :=
  seq [ Grp 1 (Alt (lit "warning") (Alt (lit "error") (Alt (lit "note") (lit "help"))));
        Opt (seq [Chr "["; Grp 2 (Star (Cls dot)); Chr "]"]);
        lit ": ";
        Grp 3 (Star (Cls dot));
        Plus (Cls ws);
        lit "--> ";
        Grp 4 (Star (Cls dot));
        Chr ":";
        Grp 5 (Plus (Cls digit));
        Chr ":";
        Grp 6 (Plus (Cls digit));
        Chr LF;
        Opt (seq [Grp 7 (Plus (seq [Plus (Cls dot); Chr LF])); Plus (Chr ".")]);
        Star (seq [Plus (Cls (fun c => digit c || ws c)); Chr "|"; Star (Cls dot)]);
        Chr LF;
        Opt (Grp 8 (Plus (seq [Plus (Cls ws); Chr "="; Star (Cls dot)]))) ].

(** [/\s+\|\s+(\^+)/g] *)
Definition newErrorRange : regex :=
  seq [ Plus (Cls ws); Chr "|"; Plus (Cls ws); Grp 1 (Plus (Chr "^")) ].

(** [/\d+ \|\s{2}/g] and [/\|\s{2}/g] *)
Definition numberedBar : regex :=
  seq [ Plus (Cls digit); Chr " "; Chr "|"; Cls ws; Cls ws ].

Definition wideBar : regex := seq [ Chr "|"; Cls ws; Cls ws ].

(** [Number] of a string of decimal digits, as an integer: a numeral up to
    2^53 is converted exactly; the code rounds the numerals above. *)
Definition Number (s : string) : Z :=
  fold_left (fun acc c => (acc * 10 + (Z.of_nat (nat_of_ascii c) - 48))%Z)
            (list_ascii_of_string s) 0%Z.

(** [while (/\d+ \|\s{2}/g.test(thisMsg)) thisMsg = thisMsg.replace(/\|\s{2}/g, '| ');]
    Every turn shortens [thisMsg], so [String.length thisMsg] turns are
    enough. *)
Fixpoint narrow (turns : nat) (thisMsg : string) : string :=
  match turns with
  | 0 => thisMsg
  | S turns' =>
      if test numberedBar thisMsg
      then narrow turns' (replace wideBar "| " thisMsg)
      else thisMsg
  end.

Definition orEmpty (o : option string) : string :=
  match o with
  | Some s => s
  | None => EmptyString
  end.

(** The message of a block. *)
Definition blockMessage (m : Match) : string :=
  let msg := orEmpty (group m 3) in
  let msg :=
    match group m 7 with
    | Some (String c rest as thisMsg) =>
        let thisMsg := narrow (String.length thisMsg) thisMsg in
        (msg +:+ nl +:+ substring 0 (String.length thisMsg - 1) thisMsg)%string
    | _ => msg
    end in
  match group m 8 with
  | Some (String c rest as notes) => (msg +:+ nl +:+ notes)%string
  | _ => msg
  end.

(** How the loop ends: it returns, or [range[1]] is read from [null]. *)
Inductive Outcome :=
| Returned (errors : list RustError)
| TypeError (errors : list RustError).

(** The [while (true)] loop; the two patterns advance their own
    [lastIndex] over [output].  A turn that does not break moves
    [newErrorRegex] forward, so [String.length output] turns are enough;
    [None] is never reached with that many.  The errors are the elements
    of the array: [errors[filename] = []] adds a property named by the file
    to the array object, which is read by this test alone; only for a file
    name that is an array index would it write an element. *)
Fixpoint scan (turns : nat) (output : string) (errorIndex rangeIndex : nat)
         (errors : list RustError) : option Outcome :=
  match turns with
  | 0 => None
  | S turns' =>
      let '(match_, errorIndex) := exec newErrorRegex output errorIndex in
      let '(range, rangeIndex) := exec newErrorRange output rangeIndex in
      match match_ with
      | None => Some (Returned errors)
      | Some m =>
          let filename := orEmpty (group m 4) in
          let startLine := Number (orEmpty (group m 5)) in
          let startCharacter := Number (orEmpty (group m 6)) in
          let msg := blockMessage m in
          match range with
          | None => Some (TypeError errors)
          | Some rg =>
              scan turns' output errorIndex rangeIndex
                   (errors ++
                    [ {| filename := filename;
                         startLine := startLine;
                         startCharacter := startCharacter;
                         endLine := startLine;
                         endCharacter :=
                           (startCharacter
                            + Z.of_nat (String.length (orEmpty (group rg 1))))%Z;
                         severity := orEmpty (group m 1);
                         error_message := msg |} ])
          end
      end
  end.

Definition parseNewHumanReadable (errors : list RustError) (output : string)
  : option Outcome :=
  scan (S (String.length output)) output 0 0 errors.

(** The text of a compiler run: lines, each ended by a line feed. *)
Definition lines (l : list string) : string :=
  fold_right (fun line rest => (line +:+ nl +:+ rest)%string) EmptyString l.

(** The caret line inside the text of a block. *)
Definition own_caret (m : Match) : option string :=
  match search newErrorRange (matched m) 0 with
  | Some rg => group rg 1
  | None => None
  end.

(** The blocks of an output, as successive [exec] calls find them. *)
Fixpoint blocks_from (turns : nat) (output : string) (errorIndex : nat)
  : list Match :=
  match turns with
  | 0 => []
  | S turns' =>
      match exec newErrorRegex output errorIndex with
      | (Some m, errorIndex') => m :: blocks_from turns' output errorIndex'
      | (None, _) => []
      end
  end.

Definition blocks (output : string) : list Match :=
  blocks_from (S (String.length output)) output 0.

(** The caret lines of an output, as successive [exec] calls find them. *)
Fixpoint carets_from (turns : nat) (output : string) (rangeIndex : nat)
  : list Match :=
  match turns with
  | 0 => []
  | S turns' =>
      match exec newErrorRange output rangeIndex with
      | (Some rg, rangeIndex') => rg :: carets_from turns' output rangeIndex'
      | (None, _) => []
      end
  end.

Definition carets (output : string) : list Match :=
  carets_from (S (String.length output)) output 0.

(** The error pushed for block [m] when [exec] answered [rg] for the
    caret line. *)
Definition error_of (m rg : Match) : RustError :=
  {| filename := orEmpty (group m 4);
     startLine := Number (orEmpty (group m 5));
     startCharacter := Number (orEmpty (group m 6));
     endLine := Number (orEmpty (group m 5));
     endCharacter :=
       (Number (orEmpty (group m 6))
        + Z.of_nat (String.length (orEmpty (group rg 1))))%Z;
     severity := orEmpty (group m 1);
     error_message := blockMessage m |}.

(** Blocks and caret lines taken in step. *)
Fixpoint in_step (errors : list RustError) (ms rgs : list Match) : Outcome :=
  match ms, rgs with
  | [], _ => Returned errors
  | _ :: _, [] => TypeError errors
  | m :: ms', rg :: rgs' => in_step (errors ++ [error_of m rg]) ms' rgs'
  end.

(** An error that spans several lines, its two ends marked by a caret each,
    followed by a warning. *)
Definition two_blocks : string :=
  lines [ "error[E0308]: mismatched types";
          " --> src/main.rs:2:5";
          "  |";
          "2 |     match x {";
          "  |     ^ starting here...";
          "3 |         _ => 1,";
          "4 |     }";
          "  |     ^ ...ending here: expected (), found integral variable";
          "";
          "warning: unused variable: `abc`";
          " --> src/main.rs:8:9";
          "  |";
          "8 |     let abc = 1;";
          "  |         ^^^";
          "" ]%string.

(** An error that spans several lines, drawn with a bracket in the margin. *)
Definition bracket_block : string :=
  lines [ "error[E0308]: mismatched types";
          " --> src/main.rs:2:5";
          "  |";
          "2 | /     match x {";
          "3 | |         _ => 1,";
          "4 | |     }";
          "  | |_____^ expected (), found integral variable";
          "" ]%string.

End NewStyle.

(** ** What a pattern matches *)

Module RegexSpec.
Import Text Regex.

(** [matches r w caps caps']: the pattern [r] matches the text [w], turning
    the captures [caps] into [caps']. *)
Inductive matches : regex -> string -> Captures -> Captures -> Prop :=
| matches_eps caps : matches Eps EmptyString caps caps
| matches_chr c caps : matches (Chr c) (String c EmptyString) caps caps
| matches_cls p c caps :
    p c = true -> matches (Cls p) (String c EmptyString) caps caps
| matches_seq r1 r2 w1 w2 caps caps' caps'' :
    matches r1 w1 caps caps' -> matches r2 w2 caps' caps'' ->
    matches (Seq r1 r2) (w1 +:+ w2) caps caps''
| matches_alt_l r1 r2 w caps caps' :
    matches r1 w caps caps' -> matches (Alt r1 r2) w caps caps'
| matches_alt_r r1 r2 w caps caps' :
    matches r2 w caps caps' -> matches (Alt r1 r2) w caps caps'
| matches_star_nil r caps : matches (Star r) EmptyString caps caps
| matches_star_cons r w1 w2 caps caps' caps'' :
    matches r w1 caps caps' -> matches (Star r) w2 caps' caps'' ->
    matches (Star r) (w1 +:+ w2) caps caps''
| matches_grp n r w caps caps' :
    matches r w caps caps' -> matches (Grp n r) w caps ((n, w) :: caps').

(** The numbers of the groups of a pattern. *)
Fixpoint group_ids (r : regex) : list nat :=
  match r with
  | Eps | Chr _ | Cls _ => []
  | Seq r1 r2 | Alt r1 r2 => group_ids r1 ++ group_ids r2
  | Star r' => group_ids r'
  | Grp n r' => n :: group_ids r'
  end.

(** Every character of a text satisfies [p]. *)
Fixpoint all_chars (p : ascii -> bool) (s : string) : bool :=
  match s with
  | EmptyString => true
  | String c s' => p c && all_chars p s'
  end.

End RegexSpec.

(** ** [CommandService.parseOldHumanReadable] *)

Module OldStyle.
Import Text Regex.
Export Json (RustError, Build_RustError, filename, startLine, startCharacter,
             endLine, endCharacter, severity, error_message).

(** The pattern of a line, written here with a blank after every star:
    ^(.* ):(\d+):(\d+):\s+(\d+):(\d+)\s+(warning|error|note|help):\s+(.* )$ *)
Definition errorRegex : regex :=
  seq [ Grp 1 (Star (Cls dot));
        Chr ":";
        Grp 2 (Plus (Cls digit));
        Chr ":";
        Grp 3 (Plus (Cls digit));
        Chr ":";
        Plus (Cls ws);
        Grp 4 (Plus (Cls digit));
        Chr ":";
        Grp 5 (Plus (Cls digit));
        Plus (Cls ws);
        Grp 6 (Alt (lit "warning") (Alt (lit "error") (Alt (lit "note") (lit "help"))));
        Chr ":";
        Plus (Cls ws);
        Grp 7 (Star (Cls dot)) ].

(** [line.match] with a pattern between [^] and [$] and without flags: the
    match starts at the first character and ends at the end of the line. *)
Definition match_line (r : regex) (line : string) : option Captures :=
  rmatch _ r line []
         (fun rest caps =>
            match rest with
            | EmptyString => Some caps
            | String _ _ => None
            end).

(** The errors are the elements of the array.  [errors[filename] = []]
    adds a property named by the file to the array object, which is read
    by this test alone; only for a file name that is an array index would
    it write an element, and only for numerals above 2^53 would [Number]
    round: the lines without either are those of [HumanReadableSpec.plain_line],
    and the model is meant for them. *)
Definition parseOldHumanReadable (errors : list RustError) (line : string)
  : list RustError :=
  match match_line errorRegex line with
  | None => errors
  | Some caps =>
      errors ++
      [ {| filename := NewStyle.orEmpty (capture caps 1);
           startLine := NewStyle.Number (NewStyle.orEmpty (capture caps 2));
           startCharacter := NewStyle.Number (NewStyle.orEmpty (capture caps 3));
           endLine := NewStyle.Number (NewStyle.orEmpty (capture caps 4));
           endCharacter := NewStyle.Number (NewStyle.orEmpty (capture caps 5));
           severity := NewStyle.orEmpty (capture caps 6);
           error_message := NewStyle.orEmpty (capture caps 7) |} ]
  end.

(** A number as the compiler prints it, and the blanks between the parts of
    a line. *)
Definition numeral (d : string) : Prop :=
  RegexSpec.all_chars digit d = true /\ d <> EmptyString.

Definition blank (b : string) : Prop :=
  RegexSpec.all_chars ws b = true /\ b <> EmptyString.

(** The severities the patterns know. *)
Definition severities : list string := ["warning"; "error"; "note"; "help"]%string.

End OldStyle.

(** ** The output the two parsers of human-readable text are modelled for *)

Module HumanReadableSpec.
Import Text Regex.

(** A property name that is an array index: the decimal numeral, without
    leading zero, of an integer below 2^32 - 1.  Written to an array under
    such a name, a value becomes an element. *)
Definition array_index (name : string) : bool :=
  match name with
  | EmptyString => false
  | String c rest =>
      RegexSpec.all_chars digit name
      && (negb (Ascii.eqb c "0") || String.eqb rest EmptyString)
      && (NewStyle.Number name <=? 4294967294)%Z
  end.

(** The integers up to 2^53 are numbers of JavaScript: [Number] of a
    numeral and a sum are exact up to there. *)
Definition exact (z : Z) : bool := (z <=? 9007199254740992)%Z.

(** A line of the old format: when it matches, its file name is no array
    index and its four numbers are exact. *)
Definition plain_line (line : string) : bool :=
  match OldStyle.match_line OldStyle.errorRegex line with
  | None => true
  | Some caps =>
      negb (array_index (NewStyle.orEmpty (capture caps 1)))
      && exact (NewStyle.Number (NewStyle.orEmpty (capture caps 2)))
      && exact (NewStyle.Number (NewStyle.orEmpty (capture caps 3)))
      && exact (NewStyle.Number (NewStyle.orEmpty (capture caps 4)))
      && exact (NewStyle.Number (NewStyle.orEmpty (capture caps 5)))
  end.

(** A block of the new format: its file name is no array index, its line
    is exact, and so is its column with any number of carets that the
    output can hold. *)
Definition plain_block (output : string) (m : Match) : bool :=
  negb (array_index (NewStyle.orEmpty (group m 4)))
  && exact (NewStyle.Number (NewStyle.orEmpty (group m 5)))
  && exact (NewStyle.Number (NewStyle.orEmpty (group m 6))
            + Z.of_nat (String.length output)).

Definition plain_output (output : string) : bool :=
  forallb (plain_block output) (NewStyle.blocks output).

(** What holds of an error made of plain text. *)
Definition plain_error (e : Json.RustError) : Prop :=
  array_index (Json.filename e) = false
  /\ exact (Json.startLine e) = true
  /\ exact (Json.startCharacter e) = true.

End HumanReadableSpec.

(** ** CommandService: the arguments of a cargo run *)

Module CommandService.

(** [Array.prototype.indexOf]: the first index that holds [x], or -1. *)
Fixpoint indexOf (x : string) (l : list string) : Z :=
  match l with
  | [] => (-1)%Z
  | y :: l' =>
      if String.eqb y x then 0%Z
      else
        let i := indexOf x l' in
        if (i <? 0)%Z then (-1)%Z else (i + 1)%Z
  end.

(** [featureArray] is [rustConfig['features']]; [slice] with an index that
    [indexOf] found is [take] and [drop]. *)
Definition addFeaturesToArgs (featureArray : list string) (args : list string)
  : list string :=
  if length featureArray =? 0 then args
  else
    let featuresArgs := ["--features"%string] ++ featureArray in
    let doubleDashIndex := indexOf "--" args in
    if (0 <=? doubleDashIndex)%Z then
      let argsBeforeDoubleDash := take (Z.to_nat doubleDashIndex) args in
      let argsAfterDoubleDash := drop (Z.to_nat doubleDashIndex) args in
      argsBeforeDoubleDash ++ featuresArgs ++ argsAfterDoubleDash
    else args ++ featuresArgs.

End CommandService.

(** ** The keys of distinctDiagnostics *)

Module DistinctSpec.
Import Vscode Distinct.

(** A text without colon, as the numbers of a key are. *)
Fixpoint colon_free (s : string) : bool :=
  match s with
  | EmptyString => true
  | String c s' => negb (Ascii.eqb c ":") && colon_free s'
  end.

(** The map that [distinctDiagnostics] builds. *)
Definition keyed (diags : list Diagnostic) : list (string * Diagnostic) :=
  fold_left (fun m diag => map_set (key diag) diag m) diags [].

End DistinctSpec.

(** ** The calls of a publisher *)

Module PublisherSpec.
Import Vscode DiagnosticPublisher.

Definition is_publish (c : Call) : bool :=
  match c with
  | Publish _ _ => true
  | Clear => false
  end.

End PublisherSpec.

(** ** CompletionManager: signature help *)

Module SignatureHelp.
Import Text.

(** The loop of [parseParameters] from index [i] on, [text] being what is
    left to read.  [parameterEnd] is -1 until the loop is left by [break]. *)
Fixpoint parameters_from (text : string) (i : Z) (parameters : list string)
         (currentParameter : string) (currentDepth parameterStart : Z)
  : list string * Z * Z :=
  match text with
  | EmptyString => (parameters ++ [currentParameter], parameterStart, (-1)%Z)
  | String char text' =>
      if Ascii.eqb char "(" then
        parameters_from text' (i + 1)%Z parameters currentParameter
                        (currentDepth + 1)%Z
                        (if (currentDepth =? 0)%Z then i else parameterStart)
      else if Ascii.eqb char ")" then
        if (currentDepth - 1 =? 0)%Z
        then (parameters ++ [currentParameter], parameterStart, i)
        else parameters_from text' (i + 1)%Z parameters currentParameter
                             (currentDepth - 1)%Z parameterStart
      else if (currentDepth =? 0)%Z then
        parameters_from text' (i + 1)%Z parameters currentParameter
                        currentDepth parameterStart
      else if (currentDepth =? 1)%Z && Ascii.eqb char "," then
        parameters_from text' (i + 1)%Z (parameters ++ [currentParameter])
                        EmptyString currentDepth parameterStart
      else
        parameters_from text' (i + 1)%Z parameters (currentParameter +:+ chr char)
                        currentDepth parameterStart
  end.

(** [parseParameters(text, startingPosition)]: the parameters, and the
    offsets of the parentheses around them. *)
Definition parseParameters (text : string) (startingPosition : nat)
  : list string * Z * Z :=
  parameters_from (Regex.drop_string startingPosition text)
                  (Z.of_nat startingPosition) [] EmptyString 0%Z (-1)%Z.

(** [const currentParameter = callParameters.length - 1] of [parseCall]:
    the active parameter of the signature. *)
Definition activeParameter (callText : string) : Z :=
  (Z.of_nat (length (parseParameters callText 0).1.1) - 1)%Z.

(** The loop of [firstDanglingParen]; [text.charAt] past the end is the
    empty string, which is none of the three characters. *)
Fixpoint dangling_from (text : string) (offset : nat) (currentDepth : Z)
  : option nat :=
  match offset with
  | 0 => None
  | S offset' =>
      let char := String.get offset text in
      if bool_decide (char = Some ")"%char) then
        if (currentDepth + 1 =? -1)%Z then Some offset
        else dangling_from text offset' (currentDepth + 1)%Z
      else if bool_decide (char = Some "("%char) then
        if (currentDepth - 1 =? -1)%Z then Some offset
        else dangling_from text offset' (currentDepth - 1)%Z
      else if bool_decide (char = Some "{"%char) then None
      else if (currentDepth =? -1)%Z then Some offset
      else dangling_from text offset' currentDepth
  end.

(** [firstDanglingParen]: [cursor] is [document.offsetAt(position)], the
    result the offset handed to [document.positionAt]. *)
Definition firstDanglingParen (text : string) (cursor : nat) : option nat :=
  dangling_from text (cursor - 1) 0%Z.

(** *** Reading a text between two offsets *)

(** [text.substring(from, to)] for [from <= to]. *)
Definition between (text : string) (from to : nat) : string :=
  substring from (to - from) text.

(** Closing minus opening parentheses. *)
Fixpoint closing (s : string) : Z :=
  match s with
  | EmptyString => 0%Z
  | String c s' =>
      ((if Ascii.eqb c ")" then 1 else if Ascii.eqb c "(" then -1 else 0)
       + closing s')%Z
  end.

(** A parameter as written in a flat list: no parenthesis, no comma. *)
Fixpoint flat (s : string) : bool :=
  match s with
  | EmptyString => true
  | String c s' =>
      negb (Ascii.eqb c "(") && negb (Ascii.eqb c ")") && negb (Ascii.eqb c ",")
      && flat s'
  end.

Fixpoint occurs (c : ascii) (s : string) : bool :=
  match s with
  | EmptyString => false
  | String c' s' => Ascii.eqb c c' || occurs c s'
  end.

Fixpoint count_char (c : ascii) (s : string) : nat :=
  match s with
  | EmptyString => 0
  | String c' s' => (if Ascii.eqb c c' then 1 else 0) + count_char c s'
  end.

(** *** What the two functions are compared with *)

(** A text without parentheses. *)
Definition no_paren (s : string) : bool :=
  negb (occurs "(" s) && negb (occurs ")" s).

Definition no_parenthesis (p : string) : Prop :=
  occurs "(" p = false /\ occurs ")" p = false.

(** What [parseParameters] returns, whatever the text. *)
Definition shape (text : string) (startingPosition : nat)
           (result : list string * Z * Z) : Prop :=
  let '(parameters, parameterStart, parameterEnd) := result in
  parameters <> []
  /\ Forall no_parenthesis parameters
  /\ (parameterEnd <> (-1)%Z ->
      (Z.of_nat startingPosition <= parameterStart < parameterEnd)%Z
      /\ (parameterEnd < Z.of_nat (String.length text))%Z
      /\ String.get (Z.to_nat parameterStart) text = Some "("%char
      /\ String.get (Z.to_nat parameterEnd) text = Some ")"%char).

(** What a character adds to the depth when read backwards. *)
Definition delta (char : option ascii) : Z :=
  if bool_decide (char = Some ")"%char) then 1%Z
  else if bool_decide (char = Some "("%char) then (-1)%Z
  else 0%Z.

(** The offset is the nearest one before the cursor from which the text up
    to the cursor closes one parenthesis less than it opens. *)
Definition encloses (text : string) (cursor o : nat) : Prop :=
  0 < o < cursor
  /\ closing (between text o cursor) = (-1)%Z
  /\ forall j, o < j < cursor ->
       (0 <= closing (between text j cursor))%Z
       /\ String.get j text <> Some "{"%char.

End SignatureHelp.

(** ** TerminalTaskManager: cargo in an integrated terminal *)

Module TerminalTaskManager.
Import Text.

(** [process.platform] and, on win32, the configured shell. *)
Inductive Platform :=
| NotWin32
| Win32 (shell : string).

(** [String.prototype.includes] *)
Definition includes (part s : string) : bool :=
  match String.index 0 part s with
  | Some _ => true
  | None => false
  end.

Definition quote : string := chr "034".

(** The function [setEnvironmentVariable] chosen for the platform: the text
    sent for one variable. *)
Definition setEnvironmentVariable (platform : Platform) (name value : string)
  : string :=
  match platform with
  | NotWin32 => "export " +:+ name +:+ "=" +:+ quote +:+ value +:+ quote
  | Win32 shell =>
      if includes "powershell" shell
      then "$ENV:" +:+ name +:+ "=" +:+ quote +:+ value +:+ quote
      else if includes "cmd" shell
      then "set " +:+ name +:+ "=" +:+ value
      else "export " +:+ name +:+ "=" +:+ quote +:+ value +:+ quote
  end%string.

(** A call of [execute] with what it reads from its surroundings:
    [cargoEnv] in the order of [for ... in], and [getCargoPath()]. *)
Record Request := {
  platform : Platform;
  cargoEnv : list (string * string);
  cargoPath : string;
  command : string;
  args : list string;
  cwd : string
}.

(** The terminals created so far with the text sent to each, a terminal
    being named by its position; the terminals shown; the error messages. *)
Record State := {
  runningTerminal : option nat;
  terminals : list (list string);
  shown : list nat;
  errors : list string
}.

Definition initial : State :=
  {| runningTerminal := None; terminals := []; shown := []; errors := [] |}.

(** [this.runningTerminal.sendText(text)] *)
Definition sendText (text : string) (st : State) : State :=
  match runningTerminal st with
  | Some terminal =>
      {| runningTerminal := runningTerminal st;
         terminals := alter (fun sent => sent ++ [text]) terminal (terminals st);
         shown := shown st;
         errors := errors st |}
  | None => st
  end.

Definition createTerminal (st : State) : State :=
  {| runningTerminal := Some (length (terminals st));
     terminals := terminals st ++ [[]];
     shown := shown st;
     errors := errors st |}.

Definition setEnvironmentVariables (r : Request) (st : State) : State :=
  fold_left (fun st variable =>
               sendText (setEnvironmentVariable (platform r) variable.1 variable.2) st)
            (cargoEnv r) st.

Definition show (st : State) : State :=
  match runningTerminal st with
  | Some terminal =>
      {| runningTerminal := runningTerminal st;
         terminals := terminals st;
         shown := shown st ++ [terminal];
         errors := errors st |}
  | None => st
  end.

Definition execute (r : Request) (st : State) : State :=
  match runningTerminal st with
  | Some _ =>
      {| runningTerminal := runningTerminal st;
         terminals := terminals st;
         shown := shown st;
         errors := errors st ++
           ["Cannot execute task in a terminal because some task is already running"%string] |}
  | None =>
      let st := createTerminal st in
      let st := setEnvironmentVariables r st in
      let st := sendText ("cd " +:+ quote +:+ cwd r +:+ quote) st in
      let st := sendText (cargoPath r +:+ " " +:+ command r +:+ " "
                          +:+ join_with " " (args r)) st in
      show st
  end.

(** The listener of [window.onDidCloseTerminal]. *)
Definition onDidCloseTerminal (closedTerminal : nat) (st : State) : State :=
  if bool_decide (Some closedTerminal = runningTerminal st)
  then {| runningTerminal := None;
          terminals := terminals st;
          shown := shown st;
          errors := errors st |}
  else st.

Inductive Event :=
| Execute (r : Request)
| Closed (terminal : nat).

Definition step (st : State) (ev : Event) : State :=
  match ev with
  | Execute r => execute r st
  | Closed terminal => onDidCloseTerminal terminal st
  end.

Definition run (evs : list Event) : State := fold_left step evs initial.

(** The text of one task. *)
Definition task_text (r : Request) : list string :=
  map (fun variable => setEnvironmentVariable (platform r) variable.1 variable.2)
      (cargoEnv r)
  ++ [("cd " +:+ quote +:+ cwd r +:+ quote)%string;
      (cargoPath r +:+ " " +:+ command r +:+ " " +:+ join_with " " (args r))%string].

Definition requests (evs : list Event) : list Request :=
  omap (fun ev => match ev with Execute r => Some r | Closed _ => None end) evs.

End TerminalTaskManager.

(** ** Configuration: the mode and the command line of RLS *)

Module Configuration.

Inductive Mode := Legacy | RLS.

(** [rustInstallation]: a [Rustup], with what [isRlsInstalled()] answers,
    or a [NotRustup]. *)
Inductive RustInstallation :=
| IsRustup (isRlsInstalled : bool)
| IsNotRustup.

(** The fields read below; [rlsArgs] is [rust.rls.args] of the user's
    configuration, [None] when the [rls] section or its [args] is missing;
    [logged] counts the errors written to the log. *)
Record Configuration := {
  _mode : option Mode;
  rustInstallation : option RustInstallation;
  rlsPathSpecifiedByUser : option string;
  rlsArgs : option (list string);
  executeCargoCommandInTerminal : bool;
  logged : nat
}.

Definition mode (c : Configuration) : option Mode := _mode c.

Definition setMode (m : Mode) (c : Configuration) : Configuration :=
  match _mode c with
  | Some _ =>
      {| _mode := _mode c;
         rustInstallation := rustInstallation c;
         rlsPathSpecifiedByUser := rlsPathSpecifiedByUser c;
         rlsArgs := rlsArgs c;
         executeCargoCommandInTerminal := executeCargoCommandInTerminal c;
         logged := S (logged c) |}
  | None =>
      {| _mode := Some m;
         rustInstallation := rustInstallation c;
         rlsPathSpecifiedByUser := rlsPathSpecifiedByUser c;
         rlsArgs := rlsArgs c;
         executeCargoCommandInTerminal := executeCargoCommandInTerminal c;
         logged := logged c |}
  end.

(** A string in a condition: the empty string counts as absent. *)
Definition truthy (s : option string) : bool :=
  match s with
  | Some s => negb (String.eqb s EmptyString)
  | None => false
  end.

Definition getPathToRlsExecutable (c : Configuration) : option string :=
  if truthy (rlsPathSpecifiedByUser c) then rlsPathSpecifiedByUser c
  else
    match rustInstallation c with
    | Some (IsRustup true) => Some "rustup"%string
    | _ => None
    end.

Definition getRlsArgsSpecifiedByUser (c : Configuration) : list string :=
  match rlsArgs c with
  | Some l => l
  | None => []
  end.

Definition getRlsArgs (c : Configuration) : list string :=
  match rustInstallation c with
  | Some (IsRustup true) =>
      ["run"; "nightly"; "rls"]%string ++ getRlsArgsSpecifiedByUser c
  | _ => getRlsArgsSpecifiedByUser c
  end.

Definition shouldExecuteCargoCommandInTerminal (c : Configuration) : bool :=
  match mode c with
  | Some RLS => true
  | _ => executeCargoCommandInTerminal c
  end.

End Configuration.

(** ** CommandService.parseDiagnostics: from the errors to the diagnostics
       of each file *)

Module ParseDiagnostics.
Import Vscode Distinct.

Definition mapSeverityToVsCode (severity : string) : DiagnosticSeverity :=
  if String.eqb severity "warning" then Warning
  else if String.eqb severity "error" then Error
  else if String.eqb severity "note" then Information
  else if String.eqb severity "help" then Hint
  else Error.

(** [Map.prototype.get] *)
Fixpoint map_get {V} (k : string) (m : list (string * V)) : option V :=
  match m with
  | [] => None
  | (k', v) :: m' => if String.eqb k k' then Some v else map_get k m'
  end.

Section Publish.
(** [path.join], and [new vscode.Range(...)] from four numbers, [None] when
    the constructor throws. *)
Variable join : string -> string -> string.
Variable newRange : Z -> Z -> Z -> Z -> option Range.

(** The diagnostic made of an error. *)
Definition diagnostic_of (error : Json.RustError) : option Diagnostic :=
  match newRange (Json.startLine error - 1) (Json.startCharacter error - 1)
                 (Json.endLine error - 1) (Json.endCharacter error - 1) with
  | Some range =>
      Some {| range := range;
              message := Json.error_message error;
              severity := mapSeverityToVsCode (Json.severity error) |}
  | None => None
  end.

(** One turn of [errors.forEach]: the array found under the file path, or
    a new one, gets the diagnostic and is set under the path. *)
Definition add_error (cwd : string) (diagnosticMap : list (string * list Diagnostic))
           (error : Json.RustError) : option (list (string * list Diagnostic)) :=
  let filePath := join cwd (Json.filename error) in
  match diagnostic_of error with
  | Some diagnostic =>
      let diagnostics :=
        match map_get filePath diagnosticMap with
        | Some diagnostics => diagnostics
        | None => []
        end in
      Some (map_set filePath (diagnostics ++ [diagnostic]) diagnosticMap)
  | None => None
  end.

(** [diagnosticMap] after the loop; [None] when a constructor threw. *)
Definition diagnosticMap (cwd : string) (errors : list Json.RustError)
  : option (list (string * list Diagnostic)) :=
  fold_left (fun m error =>
               match m with
               | Some m => add_error cwd m error
               | None => None
               end)
            errors (Some []).

(** The calls [this.diagnostics.set(vscode.Uri.file(uri), ...)] of
    [diagnosticMap.forEach], each with the path it makes its Uri of. *)
Definition sets (cwd : string) (errors : list Json.RustError)
  : option (list (string * list Diagnostic)) :=
  match diagnosticMap cwd errors with
  | Some m => Some (map (fun entry => (entry.1, distinctDiagnostics entry.2)) m)
  | None => None
  end.

(** The errors of one file. *)
Definition file_errors (cwd filePath : string) (errors : list Json.RustError)
  : list Json.RustError :=
  filter (fun error => join cwd (Json.filename error) = filePath) errors.

End Publish.

(** A constructor that refuses negative numbers and orders its ends. *)
Definition checked_range (startLine startCharacter endLine endCharacter : Z)
  : option Range :=
  if ((startLine <? 0) || (startCharacter <? 0)
      || (endLine <? 0) || (endCharacter <? 0))%Z
  then None
  else
    let a := {| line := Z.to_nat startLine; character := Z.to_nat startCharacter |} in
    let b := {| line := Z.to_nat endLine; character := Z.to_nat endCharacter |} in
    if ((endLine <? startLine)
        || ((endLine =? startLine) && (endCharacter <? startCharacter)))%Z
    then Some {| start := b; end_ := a |}
    else Some {| start := a; end_ := b |}.

Definition sample_errors : list Json.RustError :=
  [ {| Json.filename := "src/a.rs"; Json.startLine := 3; Json.startCharacter := 5;
       Json.endLine := 3; Json.endCharacter := 9; Json.severity := "warning";
       Json.error_message := "unused variable" |};
    {| Json.filename := "src/b.rs"; Json.startLine := 1; Json.startCharacter := 1;
       Json.endLine := 1; Json.endCharacter := 4; Json.severity := "error";
       Json.error_message := "mismatched types" |};
    {| Json.filename := "src/a.rs"; Json.startLine := 7; Json.startCharacter := 1;
       Json.endLine := 7; Json.endCharacter := 2; Json.severity := "note";
       Json.error_message := "defined here" |} ]%Z%string.

End ParseDiagnostics.

(** * Properties *)

(** ** CargoTask *)

Module CargoTaskFacts.
Import CargoTask.

Lemma run_app t evs1 evs2 : run t (evs1 ++ evs2) = run (run t evs1) evs2.
Proof. apply fold_left_app. Qed.

(** Before [execute] there is no process, and [kill] changes nothing. *)
Lemma kill_before_execute n :
  Nat.iter n (fun t => task_after (kill t)) new_task = new_task.
Proof. induction n as [|n IH]; [done|]. simpl. by rewrite IH. Qed.

Example killed_then_exited :
  promise (lifecycle 0 {| pid := 7 |} [EvKill; EvExit None]) = Rejected None
  /\ sent (execute {| pid := 7 |} new_task) [EvKill; EvKill; EvExit None]
     = [TreeKill 7 "SIGINT"].
Proof. split; reflexivity. Qed.

Example exited_by_itself :
  promise (lifecycle 0 {| pid := 7 |} [EvExit (Some 101%Z)]) = Resolved (Some 101%Z).
Proof. reflexivity. Qed.

(** [kill] touches [interrupted] only. *)
Lemma process_kill t : process (task_after (kill t)) = process t.
Proof.
  unfold kill. destruct (interrupted t); [done|].
  destruct (process t) eqn:E; simpl; by rewrite ?E.
Qed.

Lemma promise_kill t : promise (task_after (kill t)) = promise t.
Proof.
  unfold kill. destruct (interrupted t); [done|]. by destruct (process t).
Qed.

Lemma interrupted_kill t :
  is_Some (process t) -> interrupted (task_after (kill t)) = true.
Proof. intros [p Hp]. unfold kill. rewrite Hp. by destruct (interrupted t) eqn:E. Qed.

(** Once set, [interrupted] stays. *)
Lemma interrupted_deliver t ev :
  interrupted t = true -> interrupted (deliver t ev) = true.
Proof.
  intros H. destruct ev as [|e|c]; simpl.
  - unfold kill. rewrite H. done.
  - by destruct (process t).
  - by destruct (process t).
Qed.

(** The promise of an interrupted task is never resolved later. *)
Lemma interrupted_never_resolved evs : forall t,
  interrupted t = true ->
  (forall c, promise t <> Resolved c) ->
  forall c, promise (run t evs) <> Resolved c.
Proof.
  induction evs as [|ev evs IH]; intros t Hi Hp c; [apply Hp|].
  simpl. apply IH; [by apply interrupted_deliver|].
  intros c'. destruct ev as [|e|c0]; simpl.
  - unfold kill. rewrite Hi. apply Hp.
  - destruct (process t); [|apply Hp]. simpl.
    specialize (Hp c'). by destruct (promise t).
  - destruct (process t); [|apply Hp]. simpl. rewrite Hi.
    specialize (Hp c'). by destruct (promise t).
Qed.

(** While the process of a task is there, its promise is not resolved:
    only the exit handler resolves, and it clears [process]. *)
Lemma active_not_resolved evs : forall t,
  (is_Some (process t) -> forall c, promise t <> Resolved c) ->
  is_Some (process (run t evs)) -> forall c, promise (run t evs) <> Resolved c.
Proof.
  induction evs as [|ev evs IH]; intros t Ht; [done|].
  simpl. apply IH. intros Hs c.
  destruct ev as [|e|c0]; simpl in *.
  - rewrite process_kill in Hs. rewrite promise_kill. by apply Ht.
  - destruct (process t) eqn:E; rewrite ?E in *; simpl in *; [|by apply Ht].
    rewrite E in Hs. specialize (Ht Hs c). by destruct (promise t).
  - destruct (process t) eqn:E; rewrite ?E in *; simpl in *; [|by apply Ht].
    by destruct Hs.
Qed.

Lemma awaiting_deliver t ev :
  is_error ev = false -> awaiting_interruption t -> awaiting_interruption (deliver t ev).
Proof.
  intros Hev [Hi [[[p Hp] Hq]|[Hp Hq]]]; destruct ev as [|e|c]; try done;
    (split; [by apply interrupted_deliver|]); simpl.
  - left. by rewrite process_kill, promise_kill, Hp.
  - rewrite Hp. right. simpl. by rewrite Hq, Hi.
  - right. by rewrite process_kill, promise_kill.
  - rewrite Hp. by right.
Qed.

Lemma awaiting_run evs : forall t,
  no_error evs = true -> awaiting_interruption t -> awaiting_interruption (run t evs).
Proof.
  induction evs as [|ev evs IH]; intros t Hne Ht; [done|].
  simpl in *. apply andb_true_iff in Hne as [H1 H2].
  apply IH; [done|]. apply awaiting_deliver; [|done].
  by destruct (is_error ev).
Qed.

Lemma no_error_app evs1 evs2 :
  no_error (evs1 ++ evs2) = no_error evs1 && no_error evs2.
Proof. apply forallb_app. Qed.

(** Without error event the promise of a running task is pending. *)
Lemma active_pending evs : forall t,
  no_error evs = true ->
  (is_Some (process t) -> promise t = Pending) ->
  is_Some (process (run t evs)) -> promise (run t evs) = Pending.
Proof.
  induction evs as [|ev evs IH]; intros t Hne Ht; [done|].
  simpl in *. apply andb_true_iff in Hne as [H1 H2].
  apply IH; [done|]. intros Hs.
  destruct ev as [|e|c]; try done; simpl in *.
  - rewrite process_kill in Hs. rewrite promise_kill. by apply Ht.
  - destruct (process t) eqn:E; rewrite ?E in *; simpl in *; [|by apply Ht].
    by destruct Hs.
Qed.

(** C1, as amended.  When [kill] is called on a task whose subprocess is
    active (spawned by [execute], exit event not yet delivered), the promise
    of [execute] is never resolved with an exit code afterwards, whatever
    is delivered after the call; and when no error event is delivered, the
    exit event that follows rejects the promise with no error: the task is
    reported as interrupted. *)
Theorem kill_of_active_task_interrupts (kills : nat) (child : ChildProcess)
        (before after : list Event) (code : ExitCode) :
  is_Some (process (lifecycle kills child before)) ->
  (forall c, promise (lifecycle kills child (before ++ EvKill :: after)) <> Resolved c)
  /\ (no_error (before ++ after) = true ->
      promise (lifecycle kills child (before ++ EvKill :: after ++ [EvExit code]))
      = Rejected None).
Proof.
  unfold lifecycle. rewrite kill_before_execute. intros Hs.
  set (t := run (execute child new_task) before) in *.
  assert (Hnr : forall c, promise t <> Resolved c).
  { apply active_not_resolved; [|done]. by intros _ c. }
  split.
  - intros c. rewrite run_app. fold t. simpl.
    apply interrupted_never_resolved.
    + by apply interrupted_kill.
    + intros c'. rewrite promise_kill. apply Hnr.
  - intros Hne. rewrite no_error_app in Hne. apply andb_true_iff in Hne as [Hb Ha].
    assert (Hp : promise t = Pending).
    { apply active_pending; [done| |done]. by intros _. }
    rewrite run_app. fold t. simpl.
    rewrite run_app.
    assert (Hk : awaiting_interruption (task_after (kill t))).
    { split; [by apply interrupted_kill|]. left.
      by rewrite process_kill, promise_kill. }
    apply (awaiting_run after) in Hk; [|done].
    destruct Hk as [Hi [[[p Hq] Hr]|[Hq Hr]]]; simpl.
    + rewrite Hq. simpl. by rewrite Hr, Hi.
    + by rewrite Hq.
Qed.

Lemma kill_of_active_task_interrupts_witness :
  is_Some (process (lifecycle 0 {| pid := 7 |} [EvError "EPIPE"]))
  /\ (forall c, promise (lifecycle 0 {| pid := 7 |}
                          ([EvError "EPIPE"] ++ EvKill :: [EvExit (Some 0%Z)]))
                <> Resolved c)
  /\ promise (lifecycle 0 {| pid := 7 |}
                       ([] ++ EvKill :: [EvKill] ++ [EvExit (Some 0%Z)]))
     = Rejected None.
Proof.
  split; [by eexists|]. split.
  - apply (kill_of_active_task_interrupts 0 {| pid := 7 |} [EvError "EPIPE"]
             [EvExit (Some 0%Z)] None). by eexists.
  - apply (kill_of_active_task_interrupts 0 {| pid := 7 |} [] [EvKill] (Some 0%Z));
      [by eexists | reflexivity].
Defined.

(** C1, as stated, fails: [kill] called on a task that has not spawned its
    process yet changes nothing, and the exit event delivered later
    resolves the promise with the exit code. *)
Lemma kill_before_spawn_resolves :
  ~ (forall kills child evs c,
        0 < kills \/ EvKill ∈ evs ->
        promise (lifecycle kills child evs) <> Resolved c).
Proof.
  intros H.
  apply (H 1 {| pid := 7 |} [EvExit (Some 0%Z)] (Some 0%Z)); [left; lia | reflexivity].
Qed.

(** C10.  [kill] on a task without process, or on an interrupted task,
    sends no signal and leaves the task as it is; on a running task that is
    not interrupted it sends SIGINT to the process tree, sets [interrupted]
    and returns a promise that tree-kill resolves when it is done; a second
    [kill] sends nothing and changes nothing. *)
Theorem kill_idempotent (t : Task) :
  (process t = None \/ interrupted t = true ->
   task_after (kill t) = t /\ signals (kill t) = []) /\
  (forall child, process t = Some child -> interrupted t = false ->
   task_after (kill t)
   = {| process := Some child; interrupted := true; promise := promise t |} /\
   signals (kill t) = [TreeKill (pid child) "SIGINT"] /\
   returned (kill t) = ResolvedWhenKilled (pid child)) /\
  task_after (kill (task_after (kill t))) = task_after (kill t) /\
  signals (kill (task_after (kill t))) = [] /\
  (forall evs, sent t (EvKill :: EvKill :: evs) = sent t (EvKill :: evs) /\
               run t (EvKill :: EvKill :: evs) = run t (EvKill :: evs)).
Proof.
  assert (H2 : task_after (kill (task_after (kill t))) = task_after (kill t)
               /\ signals (kill (task_after (kill t))) = []).
  { unfold kill. destruct (interrupted t) eqn:Hi; simpl.
    - by rewrite Hi.
    - destruct (process t) eqn:Hp; simpl; [done|]. by rewrite Hi, Hp. }
  repeat split.
  - unfold kill. by destruct H as [-> | ->]; [destruct (interrupted t)|].
  - unfold kill. by destruct H as [-> | ->]; [destruct (interrupted t)|].
  - unfold kill. by rewrite H0, H.
  - unfold kill. by rewrite H0, H.
  - unfold kill. by rewrite H0, H.
  - apply H2.
  - apply H2.
  - destruct H2 as [Ht Hs]. simpl. rewrite Hs, Ht. done.
  - destruct H2 as [Ht Hs]. simpl. by rewrite Ht.
Qed.

Lemma kill_idempotent_witness :
  let t := execute {| pid := 7 |} new_task in
  task_after (kill t)
  = {| process := Some {| pid := 7 |}; interrupted := true; promise := Pending |}
  /\ signals (kill t) = [TreeKill 7 "SIGINT"]
  /\ task_after (kill new_task) = new_task
  /\ task_after (kill (task_after (kill t))) = task_after (kill t).
Proof.
  intros t.
  pose proof (kill_idempotent t) as (_ & Hrun & Htwice & _).
  pose proof (kill_idempotent new_task) as (Hnone & _).
  destruct (Hrun {| pid := 7 |} eq_refl eq_refl) as (H1 & H2 & _).
  destruct (Hnone (or_introl eq_refl)) as (H3 & _).
  exact (conj H1 (conj H2 (conj H3 Htwice))).
Defined.

End CargoTaskFacts.

(** ** DiagnosticPublisher and distinctDiagnostics *)

Module PublisherFacts.
Import Vscode DiagnosticPublisher.

Lemma position_isEqual_eq a b : position_isEqual a b = true <-> a = b.
Proof.
  destruct a as [l1 c1], b as [l2 c2]. unfold position_isEqual. simpl.
  rewrite andb_true_iff, !Nat.eqb_eq. split.
  - by intros [-> ->].
  - intros [= -> ->]. done.
Qed.

Lemma range_isEqual_eq a b : range_isEqual a b = true <-> a = b.
Proof.
  destruct a as [s1 e1], b as [s2 e2]. unfold range_isEqual. simpl.
  rewrite andb_true_iff, !position_isEqual_eq. split.
  - by intros [-> ->].
  - intros [= -> ->]. done.
Qed.

Lemma same_record_sym a b : same_record a b -> same_record b a.
Proof. intros [H1 H2]. by split. Qed.

(** The callback of [find] in [isUniqueDiagnostic]. *)
Lemma found_iff (d u : Diagnostic) :
  (if negb (range_isEqual (range d) (range u)) then false
   else if negb (String.eqb (message d) (message u)) then false else true) = true
  <-> same_record d u.
Proof.
  unfold same_record.
  destruct (range_isEqual (range d) (range u)) eqn:Hr; simpl.
  - apply range_isEqual_eq in Hr.
    destruct (String.eqb (message d) (message u)) eqn:Hm; simpl.
    + apply String.eqb_eq in Hm. done.
    + apply String.eqb_neq in Hm. split; [done|]. by intros [_ ?].
  - split; [done|]. intros [H _]. apply range_isEqual_eq in H. congruence.
Qed.

Lemma isUniqueDiagnostic_false d ds :
  isUniqueDiagnostic d ds = false <-> exists u, u ∈ ds /\ same_record d u.
Proof.
  unfold isUniqueDiagnostic.
  destruct (List.find _ ds) as [u|] eqn:F.
  - apply find_some in F as [Hin Hf]. split; [|done]. intros _.
    exists u. split; [by apply list_elem_of_In|]. by apply found_iff.
  - split; [done|]. intros (u & Hin & Hs).
    apply list_elem_of_In in Hin.
    pose proof (find_none _ _ F u Hin) as Hf. simpl in Hf.
    apply found_iff in Hs. congruence.
Qed.

Lemma isUniqueDiagnostic_true d ds :
  isUniqueDiagnostic d ds = true <-> forall u, u ∈ ds -> ~ same_record d u.
Proof.
  split.
  - intros H u Hin Hs.
    assert (isUniqueDiagnostic d ds = false); [|congruence].
    apply isUniqueDiagnostic_false. eauto.
  - intros H. destruct (isUniqueDiagnostic d ds) eqn:E; [done|].
    apply isUniqueDiagnostic_false in E as (u & Hin & Hs). by destruct (H u).
Qed.

Lemma distinct_singleton d : distinct_records [d].
Proof.
  intros i j a b Hi Hj _.
  apply list_lookup_singleton_Some in Hi as [-> _].
  apply list_lookup_singleton_Some in Hj as [-> _]. done.
Qed.

Lemma distinct_snoc ds d :
  distinct_records ds -> isUniqueDiagnostic d ds = true -> distinct_records (ds ++ [d]).
Proof.
  intros Hds Hu i j a b Hi Hj Hs.
  rewrite isUniqueDiagnostic_true in Hu.
  apply lookup_app_Some in Hi as [Hi|[Hli Hi]];
    apply lookup_app_Some in Hj as [Hj|[Hlj Hj]].
  - by apply (Hds i j a b).
  - apply list_lookup_singleton_Some in Hj as [Hj <-].
    destruct (Hu a); [by eapply list_elem_of_lookup_2|by apply same_record_sym].
  - apply list_lookup_singleton_Some in Hi as [Hi <-].
    destruct (Hu b); [by eapply list_elem_of_lookup_2|done].
  - apply list_lookup_singleton_Some in Hi as [Hi _].
    apply list_lookup_singleton_Some in Hj as [Hj _]. lia.
Qed.

Section Publisher.
Variable isAbsolute : string -> bool.
Variable join : string -> string -> string.
Variable Uri_file : string -> string.

Local Abbreviation publish := (publishDiagnostic isAbsolute join Uri_file).

Local Abbreviation uri_of := (uri_of isAbsolute join Uri_file).

Lemma publish_distinct fd cwd (coll : gmap string (list Diagnostic)) :
  map_Forall (fun _ ds => distinct_records ds) coll ->
  map_Forall (fun _ ds => distinct_records ds) (publish fd cwd coll).
Proof.
  intros Hc. unfold publishDiagnostic.
  destruct (coll !! _) as [ds|] eqn:E.
  - destruct (isUniqueDiagnostic _ ds) eqn:U; [|done].
    apply map_Forall_insert_2; [|done].
    apply distinct_snoc; [|done]. by apply (Hc _ _ E).
  - apply map_Forall_insert_2; [|done]. apply distinct_singleton.
Qed.

Lemma calls_distinct calls : forall coll : gmap string (list Diagnostic),
  map_Forall (fun _ ds => distinct_records ds) coll ->
  map_Forall (fun _ ds => distinct_records ds)
             (fold_left (call isAbsolute join Uri_file) calls coll).
Proof.
  induction calls as [|c calls IH]; intros coll Hc; [done|].
  simpl. apply IH. destruct c as [fd cwd|]; simpl.
  - by apply publish_distinct.
  - unfold clearDiagnostics. apply map_Forall_empty.
Qed.

(** After a publish the file holds a record that counts as the published
    one. *)
Lemma publish_stored fd cwd (coll : gmap string (list Diagnostic)) :
  exists ds u, publish fd cwd coll !! uri_of fd cwd = Some ds
               /\ u ∈ ds /\ same_record u (diagnostic fd).
Proof.
  unfold publishDiagnostic. fold (uri_of fd cwd).
  destruct (coll !! uri_of fd cwd) as [ds|] eqn:E.
  - destruct (isUniqueDiagnostic _ ds) eqn:U.
    + exists (ds ++ [diagnostic fd]), (diagnostic fd).
      rewrite lookup_insert_eq. split; [done|]. split; [|done].
      apply elem_of_app. right. by apply list_elem_of_singleton.
    + apply isUniqueDiagnostic_false in U as (u & Hin & Hs).
      exists ds, u. split; [done|]. split; [done|]. by apply same_record_sym.
  - exists [diagnostic fd], (diagnostic fd).
    rewrite lookup_insert_eq. split; [done|]. split; [|done].
    by apply list_elem_of_singleton.
Qed.

Lemma publish_again fd1 cwd1 fd2 cwd2 (coll : gmap string (list Diagnostic)) :
  uri_of fd1 cwd1 = uri_of fd2 cwd2 ->
  same_record (diagnostic fd1) (diagnostic fd2) ->
  publish fd2 cwd2 (publish fd1 cwd1 coll) = publish fd1 cwd1 coll.
Proof.
  intros Hu Hs.
  destruct (publish_stored fd1 cwd1 coll) as (ds & u & Hl & Hin & Hsu).
  unfold publishDiagnostic at 1. fold (uri_of fd2 cwd2). rewrite <- Hu, Hl.
  assert (isUniqueDiagnostic (diagnostic fd2) ds = false) as ->; [|done].
  apply isUniqueDiagnostic_false. exists u. split; [done|].
  destruct Hsu as [H1 H2], Hs as [H3 H4]. split; congruence.
Qed.

End Publisher.

(** *** distinctDiagnostics *)

Import Distinct.

Lemma same_record_key a b : same_record a b -> key a = key b.
Proof. intros [H1 H2]. unfold key. by rewrite H1, H2. Qed.

Lemma map_set_keys {V} k (v : V) m :
  (map_set k v m).*1 = if decide (k ∈ m.*1) then m.*1 else m.*1 ++ [k].
Proof.
  induction m as [|[k' v'] m IH].
  - cbn [map_set fmap list_fmap fst app]. case_decide as H; [|done].
    by apply elem_of_nil in H.
  - cbn [map_set]. destruct (String.eqb k k') eqn:E.
    + apply String.eqb_eq in E as ->. cbn [fmap list_fmap fst]. clear IH.
      destruct (decide (k' ∈ k' :: m.*1)) as [H|H]; [done|].
      destruct H. apply elem_of_cons. by left.
    + apply String.eqb_neq in E. cbn [fmap list_fmap fst] in *. rewrite IH. clear IH.
      destruct (decide (k ∈ m.*1)) as [Hin|Hin];
        destruct (decide (k ∈ k' :: m.*1)) as [H|H]; try done.
      * destruct H. apply elem_of_cons. by right.
      * apply elem_of_cons in H as [?|?]; done.
Qed.

Lemma map_set_keyed k (v : Diagnostic) m :
  k = key v ->
  Forall (fun kv => kv.1 = key kv.2) m ->
  Forall (fun kv => kv.1 = key kv.2) (map_set k v m).
Proof.
  intros Hk. induction 1 as [|[k' v'] m Hkv Hm IH]; simpl.
  - by constructor.
  - destruct (String.eqb k k'); by constructor.
Qed.

Lemma map_set_NoDup {V} k (v : V) m : NoDup m.*1 -> NoDup (map_set k v m).*1.
Proof.
  intros Hnd. rewrite map_set_keys. destruct (decide (k ∈ m.*1)); [done|].
  apply NoDup_app. split; [done|]. split; [|apply NoDup_singleton].
  intros x Hx ->%list_elem_of_singleton. done.
Qed.

Lemma distinct_fold diags : forall m,
  NoDup m.*1 -> Forall (fun kv => kv.1 = key kv.2) m ->
  let m' := fold_left (fun m diag => map_set (key diag) diag m) diags m in
  NoDup m'.*1 /\ Forall (fun kv => kv.1 = key kv.2) m'.
Proof.
  induction diags as [|d diags IH]; intros m Hnd Hk; [done|].
  simpl. apply IH; [by apply map_set_NoDup|by apply map_set_keyed].
Qed.

Lemma distinctDiagnostics_distinct diags : distinct_records (distinctDiagnostics diags).
Proof.
  unfold distinctDiagnostics, map_values.
  destruct (distinct_fold diags []) as [Hnd Hk]; [constructor|constructor|].
  set (m := fold_left _ diags []) in *.
  intros i j a b Hi Hj Hs.
  rewrite list_lookup_fmap in Hi, Hj.
  destruct (m !! i) as [[ka a']|] eqn:Ei; [|done].
  destruct (m !! j) as [[kb b']|] eqn:Ej; [|done].
  simpl in Hi, Hj. injection Hi as ->. injection Hj as ->.
  rewrite Forall_lookup in Hk.
  pose proof (Hk _ _ Ei) as Ha. pose proof (Hk _ _ Ej) as Hb. simpl in Ha, Hb.
  apply same_record_key in Hs.
  apply (NoDup_lookup (m.*1) i j ka); [done| |].
  - by rewrite list_lookup_fmap, Ei.
  - rewrite list_lookup_fmap, Ej. simpl. congruence.
Qed.

(** C2.  The duplicate check of the publisher finds a stored record exactly
    when one has the range and the message of the new record, severity and
    file playing no part; a record that counts the same as one just
    published for the same file is not appended; so after any calls no file
    holds two records with equal range and equal message.  The same holds
    for what [distinctDiagnostics] keeps of the diagnostics of a file. *)
Theorem publish_appends_no_duplicate
        (isAbsolute : string -> bool) (join : string -> string -> string)
        (Uri_file : string -> string) :
  (forall d ds,
      isUniqueDiagnostic d ds = false <-> exists u, u ∈ ds /\ same_record d u) /\
  (forall fd1 cwd1 fd2 cwd2 (coll : gmap string (list Diagnostic)),
      uri_of isAbsolute join Uri_file fd1 cwd1 = uri_of isAbsolute join Uri_file fd2 cwd2 ->
      same_record (diagnostic fd1) (diagnostic fd2) ->
      publishDiagnostic isAbsolute join Uri_file fd2 cwd2
        (publishDiagnostic isAbsolute join Uri_file fd1 cwd1 coll)
      = publishDiagnostic isAbsolute join Uri_file fd1 cwd1 coll) /\
  (forall calls uri ds,
      published isAbsolute join Uri_file calls !! uri = Some ds ->
      distinct_records ds) /\
  (forall diags, distinct_records (distinctDiagnostics diags)).
Proof.
  split; [apply isUniqueDiagnostic_false|].
  split; [apply publish_again|].
  split; [|apply distinctDiagnostics_distinct].
  intros calls uri ds H.
  by apply (calls_distinct isAbsolute join Uri_file calls ∅ (map_Forall_empty _) uri ds).
Qed.

Lemma publish_appends_no_duplicate_witness :
  published posix_isAbsolute posix_join id
            [Publish sample_error "/w"; Publish sample_warning "/w"]
  !! "/w/src/main.rs" = Some [diagnostic sample_error]
  /\ distinct_records [diagnostic sample_error]
  /\ isUniqueDiagnostic (diagnostic sample_warning) [diagnostic sample_error] = false.
Proof.
  assert (H : published posix_isAbsolute posix_join id
                        [Publish sample_error "/w"; Publish sample_warning "/w"]
              !! "/w/src/main.rs" = Some [diagnostic sample_error])
    by (vm_compute; reflexivity).
  split; [exact H|].
  destruct (publish_appends_no_duplicate posix_isAbsolute posix_join id)
    as (Hcheck & _ & Hinv & _).
  split.
  - exact (Hinv _ _ _ H).
  - apply Hcheck. exists (diagnostic sample_error).
    split; [apply list_elem_of_singleton; reflexivity | split; reflexivity].
Defined.

End PublisherFacts.

(** ** parseJson *)

Module JsonFacts.
Import Json.

Example parse_macro_error :
  parseJson macro_error
  = Some {| filename := "src/main.rs"; startLine := 3; startCharacter := 5;
            endLine := 3; endCharacter := 20; severity := "error";
            error_message := "E0308: mismatched types" |}.
Proof. reflexivity. Qed.

Example notes_are_indented :
  addNotesToMessage "unused"
    [ mkChild "consider" [call_site; secondary]
        [ mkChild "or remove it" [] [] ] ] 1
  = ("unused" +:+ Text.nl +:+ "   consider: src/main.rs(3), src/lib.rs(8)"
     +:+ Text.nl +:+ "      or remove it")%string.
Proof. reflexivity. Qed.

(** [find] answers the first primary span. *)
Lemma find_first_primary pre A post :
Forall not_primary pre -> is_primary A = true ->
List.find is_primary (pre ++ A :: post) = Some A.
Proof.
intros Hpre HA. induction Hpre as [|s pre Hs Hpre IH]; simpl.
- by rewrite HA.
- unfold not_primary in Hs. by rewrite Hs.
Qed.

Lemma find_no_primary l : Forall not_primary l -> List.find is_primary l = None.
Proof.
induction 1 as [|s l Hs Hl IH]; simpl; [done|].
unfold not_primary in Hs. by rewrite Hs.
Qed.

(** The loop over the expansions ends in the outermost span of the chain. *)
Lemma follow_outermost (s : Span) : outermost s (follow_expansion s).
Proof.
revert s. fix follow_outermost 1. intros s.
destruct s as [f ls cs le ce p [[[inner|]]|]]; simpl.
- destruct (follow_outermost inner) as [H1 H2]. split; [|exact H2].
  eapply rtc_l; [|exact H1]. reflexivity.
- split; [apply rtc_refl|]. intros inner H. discriminate H.
- split; [apply rtc_refl|]. intros inner H. discriminate H.
Qed.

(** A chain has one end. *)
Lemma outermost_unique s o1 o2 : outermost s o1 -> outermost s o2 -> o1 = o2.
Proof.
intros [H1 E1] [H2 E2]. induction H1 as [s|s m o1 Hsm Hmo IH].
- destruct H2 as [|s m o2 Hsm _]; [done|]. by destruct (E1 m).
- destruct H2 as [|s m' o2 Hsm' Hmo2].
  + by destruct (E2 m).
  + unfold expands_to in Hsm, Hsm'. rewrite Hsm in Hsm'.
    injection Hsm' as <-. by apply IH.
Qed.

(** What [parseJson] answers for a record whose first primary span is [A]. *)
Lemma parseJson_primary j pre A post :
spans j = pre ++ A :: post -> Forall not_primary pre -> is_primary A = true ->
exists e, parseJson j = Some e
          /\ location e = span_location (follow_expansion A).
Proof.
intros Hj Hpre HA. unfold parseJson.
rewrite Hj, find_first_primary by done.
destruct (pre ++ A :: post) eqn:E; [by destruct pre|].
eexists. split; [reflexivity|]. reflexivity.
Qed.

(** C3, as amended.  For a record whose first primary span is [A], whatever
  other spans it carries, parsing yields one error, located where the
  expansion chain of [A] ends: at [A] itself when [A] carries no expansion
  (or an expansion without span).  A record without spans, or without
  primary span, yields no error. *)
Theorem primary_span_located :
(forall j pre A post,
    spans j = pre ++ A :: post -> Forall not_primary pre -> is_primary A = true ->
    exists e, parseJson j = Some e
              /\ location e = span_location (follow_expansion A)
              /\ (expansion A = None \/ expansion A = Some (mkExpansion None) ->
                  location e = span_location A))
/\ (forall j, Forall not_primary (spans j) -> parseJson j = None).
Proof.
split.
- intros j pre A post Hj Hpre HA.
  destruct (parseJson_primary j pre A post Hj Hpre HA) as (e & He & Hl).
  exists e. split; [done|]. split; [done|].
  intros Hx. rewrite Hl. destruct A as [f ls cs le ce p x]. simpl in Hx.
  by destruct Hx as [-> | ->].
- intros j Hj. unfold parseJson. rewrite (find_no_primary _ Hj).
  by destruct (spans j).
Qed.

Lemma primary_span_located_witness :
exists e, parseJson {| spans := [secondary; call_site; in_macro];
                       level := "warning"; message := "unused";
                       code := None; children := [] |} = Some e
          /\ location e = span_location call_site.
Proof.
destruct (proj1 primary_span_located
            {| spans := [secondary; call_site; in_macro];
               level := "warning"; message := "unused";
               code := None; children := [] |}
            [secondary; call_site] in_macro [] eq_refl)
  as (e & He & Hl & _).
- repeat constructor.
- reflexivity.
- exists e. split; [exact He | exact Hl].
Defined.

(** C3, as stated, fails: the primary span of [macro_error] carries an
  expansion, and the error is located at the call the expansion leads to,
  not at the primary span. *)
Lemma primary_span_relocated :
~ (forall j pre A post,
      spans j = pre ++ A :: post ->
      Forall not_primary pre -> Forall not_primary post -> is_primary A = true ->
      exists e, parseJson j = Some e /\ location e = span_location A).
Proof.
intros H.
destruct (H macro_error [] in_macro [secondary] eq_refl) as (e & He & Hl).
- constructor.
- repeat constructor.
- reflexivity.
- vm_compute in He. injection He as <-. vm_compute in Hl. discriminate Hl.
Qed.

(** C4.  For a record whose first primary span is [A], the error is located
  at the outermost span of the expansion chain of [A]: the one span the
  chain leads to that expands no further.  In particular, when [A] expands
  to [S2] and [S2] carries no expansion, the error is located at [S2]. *)
Theorem expansion_chain_followed j pre A post :
spans j = pre ++ A :: post -> Forall not_primary pre -> is_primary A = true ->
exists e o, parseJson j = Some e
            /\ outermost A o
            /\ (forall o', outermost A o' -> o' = o)
            /\ location e = span_location o
            /\ (forall S2, expansion A = Some (mkExpansion (Some S2)) ->
                           expansion S2 = None ->
                           location e = span_location S2).
Proof.
intros Hj Hpre HA.
destruct (parseJson_primary j pre A post Hj Hpre HA) as (e & He & Hl).
exists e, (follow_expansion A). split; [done|].
split; [apply follow_outermost|].
split; [intros o' Ho'; eapply outermost_unique; [done|apply follow_outermost]|].
split; [done|].
intros S2 HS2 Hnone. rewrite Hl.
destruct A as [f ls cs le ce p x]. simpl in HS2. subst x. simpl.
destruct S2 as [f2 ls2 cs2 le2 ce2 p2 x2]. simpl in Hnone. by subst x2.
Qed.

Lemma expansion_chain_followed_witness :
exists e, parseJson macro_error = Some e /\ location e = span_location call_site.
Proof.
destruct (expansion_chain_followed macro_error [] in_macro [secondary] eq_refl
            (Forall_nil_2 _) eq_refl)
  as (e & o & He & _ & _ & _ & HS2).
exists e. split; [exact He|]. exact (HS2 call_site eq_refl eq_refl).
Defined.

End JsonFacts.

(** ** The arguments of a started task *)

Module TaskManagerFacts.
Import OutputChannelTaskManager.

Lemma prints_json_known c : prints_json c = true <-> c ∈ known_commands.
Proof.
unfold prints_json, known_commands.
rewrite !orb_true_iff, !String.eqb_eq, !elem_of_cons, elem_of_nil. tauto.
Qed.

(** C8.  The argument list of the started task is the subcommand, then the
  manifest path override exactly when a cargo directory is configured and
  differs from [cwd], then the JSON flag exactly when output is to be
  parsed and the subcommand is a known one, then the user's arguments: the
  flag was prepended first, the override second, the subcommand last. *)
Theorem startTask_arguments (join : string -> string -> string)
      (cargoCwd : option string) (command : string) (args : list string)
      (cwd : string) (parseOutput : bool) :
let format :=
  if decide (parseOutput = true /\ command ∈ known_commands)
  then ["--message-format"; "json"]%string else [] in
let manifest :=
  if decide (cargoCwd <> None /\ cargoCwd <> Some cwd)
  then ["--manifest-path"; join cwd "Cargo.toml"]%string else [] in
prependArgsWithMessageFormatIfRequired parseOutput command args = format ++ args
/\ prependArgsWithManifestPathIfRequired join cargoCwd cwd (format ++ args)
   = manifest ++ format ++ args
/\ fst (startTask join cargoCwd command args cwd parseOutput)
   = command :: manifest ++ format ++ args
/\ head (fst (startTask join cargoCwd command args cwd parseOutput)) = Some command.
Proof.
intros format manifest.
assert (Hf : prependArgsWithMessageFormatIfRequired parseOutput command args
             = format ++ args).
{ unfold prependArgsWithMessageFormatIfRequired, format.
  destruct (decide (parseOutput = true /\ _)) as [[-> H]|H].
  - apply prints_json_known in H. cbn [negb]. by rewrite H.
  - destruct parseOutput; cbn [negb]; [|done].
    destruct (prints_json command) eqn:E; [|done].
    destruct H. split; [done|]. by apply prints_json_known. }
assert (Hm : forall l, prependArgsWithManifestPathIfRequired join cargoCwd cwd l
                       = manifest ++ l).
{ intros l. unfold prependArgsWithManifestPathIfRequired, manifest.
  destruct (decide (cargoCwd <> None /\ _)) as [[H1 H2]|H].
  - destruct cargoCwd as [dir|]; [|by destruct H1].
    destruct (String.eqb dir cwd) eqn:E; [|done].
    apply String.eqb_eq in E as ->. by destruct H2.
  - destruct cargoCwd as [dir|]; [|done].
    destruct (String.eqb dir cwd) eqn:E; [done|].
    apply String.eqb_neq in E. destruct H. split; [done|]. congruence. }
split; [done|]. split; [apply Hm|].
unfold startTask. simpl. rewrite Hf, Hm. done.
Qed.

Lemma startTask_arguments_witness :
fst (startTask DiagnosticPublisher.posix_join (Some "/w/crate"%string) "check"
               ["--lib"]%string "/w" true)
= ["check"; "--manifest-path"; "/w/Cargo.toml"; "--message-format"; "json"; "--lib"]%string.
Proof.
exact (proj1 (proj2 (proj2 (startTask_arguments DiagnosticPublisher.posix_join
                              (Some "/w/crate"%string) "check" ["--lib"]%string
                              "/w" true)))).
Defined.

End TaskManagerFacts.

(** ** CompletionManager *)

Module CompletionManagerFacts.
Import Text CompletionManager.

(** *** Strings *)

#[local] Arguments String.append !_ _ / : simpl nomatch.

Lemma append_nil_r (s : string) : (s +:+ "")%string = s.
Proof. induction s as [|c s IH]; simpl; [done|by rewrite IH]. Qed.

Lemma append_assoc (a b c : string) :
((a +:+ b) +:+ c)%string = (a +:+ (b +:+ c))%string.
Proof. induction a as [|x a IH]; simpl; [done|by rewrite IH]. Qed.

Lemma ends_with_newline_cons c s :
s <> EmptyString -> ends_with_newline (String c s) = ends_with_newline s.
Proof. by destruct s. Qed.

Lemma ends_with_newline_app a b :
b <> EmptyString -> ends_with_newline (a +:+ b) = ends_with_newline b.
Proof.
intros Hb. induction a as [|c a IH]; [done|].
simpl append. rewrite ends_with_newline_cons; [done|]. by destruct a, b.
Qed.

Lemma unfinished_app a b :
ends_with_newline a = false -> ends_with_newline b = false ->
ends_with_newline (a +:+ b) = false.
Proof.
intros Ha Hb. destruct b as [|c b]; [by rewrite append_nil_r|].
by rewrite ends_with_newline_app.
Qed.

Lemma terminated_app a b :
ends_with_newline b = true -> terminated (a +:+ b) = true.
Proof.
intros Hb. unfold terminated. apply orb_true_iff. right.
destruct b as [|c b]; [done|]. by rewrite ends_with_newline_app.
Qed.

Lemma terminated_unfinished P b :
terminated (P +:+ b) = true -> ends_with_newline b = false -> b = EmptyString.
Proof.
intros Ht Hb. destruct b as [|c b]; [done|].
unfold terminated in Ht. apply orb_true_iff in Ht as [Ht|Ht].
- apply String.eqb_eq in Ht. by destruct P.
- rewrite ends_with_newline_app in Ht by done. congruence.
Qed.

(** *** Splitting *)

(** A text that ends in a line feed splits the same whatever follows it: its
  last piece is empty and the pieces of what follows come after. *)
Lemma split_terminated Q : forall n P cur,
String.length P <= n -> ends_with_newline P = true ->
exists ls, split_from cur P = ls ++ [EmptyString]
           /\ split_from cur (P +:+ Q) = ls ++ split_from EmptyString Q.
Proof.
induction n as [|n IH]; intros P cur Hn HP.
{ destruct P; [done|simpl in Hn; lia]. }
destruct P as [|c P]; [done|]. simpl in Hn.
cbn [append split_from].
destruct (Ascii.eqb c LF) eqn:Ec.
- destruct P as [|c' P'].
  + exists [cur]. done.
  + destruct (IH (String c' P') EmptyString) as (ls & H1 & H2); [lia|done|].
    exists (cur :: ls). cbn [append] in *. by rewrite H1, H2.
- destruct P as [|c' P']; [simpl in HP; congruence|].
  cbn [append]. destruct (Ascii.eqb c CR && Ascii.eqb c' LF) eqn:E2.
  + destruct P' as [|c'' P''].
    * exists [cur]. done.
    * destruct (IH (String c'' P'') EmptyString) as (ls & H1 & H2);
        [simpl in *; lia|done|].
      exists (cur :: ls). cbn [append] in *. by rewrite H1, H2.
  + destruct (IH (String c' P') (cur +:+ chr c)%string) as (ls & H1 & H2);
      [lia|done|].
    exists ls. cbn [append] in *. by rewrite H1, H2.
Qed.

Lemma nonempty_lines_app P Q :
terminated P = true ->
nonempty_lines (P +:+ Q) = nonempty_lines P ++ nonempty_lines Q.
Proof.
unfold terminated, nonempty_lines, split_lines. intros [H|H]%orb_true_iff.
- apply String.eqb_eq in H as ->. done.
- destruct (split_terminated Q (String.length P) P EmptyString) as (ls & H1 & H2);
    [done|done|].
  rewrite H1, H2, !filter_app. simpl. by rewrite app_nil_r.
Qed.

(** A plain line and its terminator make one piece. *)
Lemma split_plain t rest : forall s cur,
plain_from s = true ->
split_from cur (s +:+ terminator t +:+ rest)
= (cur +:+ s)%string :: split_from EmptyString rest.
Proof.
induction s as [|c s IH]; intros cur Hs.
- rewrite append_nil_r. by destruct t.
- cbn [append split_from].
  assert (Hc : Ascii.eqb c LF = false).
  { simpl in Hs. destruct s; apply andb_true_iff in Hs as [H _];
      by apply negb_true_iff in H. }
  rewrite Hc.
  assert (Hnext : exists c' s', (s +:+ terminator t +:+ rest)%string = String c' s'
                                /\ (Ascii.eqb c CR && Ascii.eqb c' LF = false)).
  { destruct s as [|c' s'].
    - simpl in Hs. apply andb_true_iff in Hs as [_ H]. apply negb_true_iff in H.
      destruct t; simpl; eexists _, _; (split; [done|]); by rewrite H.
    - simpl in Hs. apply andb_true_iff in Hs as [_ H].
      assert (Ascii.eqb c' LF = false) as Hc'.
      { destruct s'; apply andb_true_iff in H as [H _]; by apply negb_true_iff in H. }
      simpl. eexists _, _. split; [done|]. rewrite Hc'. apply andb_false_r. }
  destruct Hnext as (c' & s' & E & Hcond). rewrite E. cbv iota. rewrite Hcond, <- E.
  rewrite IH.
  + f_equal. rewrite append_assoc. done.
  + simpl in Hs. destruct s; [done|]. by apply andb_true_iff in Hs as [_ H].
Qed.

Lemma print_lines_read l :
Forall (fun lt => plain lt.1 = true) l ->
nonempty_lines (print_lines l) = l.*1.
Proof.
induction 1 as [|[s t] l Hs Hl IH]; [done|].
unfold plain in Hs. apply andb_true_iff in Hs as [Hne Hp]. simpl in Hne, Hp.
unfold nonempty_lines, split_lines in *. cbn [print_lines fold_right fst snd].
fold (print_lines l). rewrite split_plain by done. simpl append.
rewrite filter_cons_True by done. cbn [fmap list_fmap fst]. by rewrite IH.
Qed.

Example split_both_terminators :
  split_lines ("a" +:+ chr CR +:+ nl +:+ nl +:+ "b" +:+ chr CR +:+ "c" +:+ nl)
  = ["a"; ""; ("b" +:+ chr CR +:+ "c")%string; ""]%string.
Proof. reflexivity. Qed.

Example buffered_until_terminated :
  reassemble "MAT" "CH a" = ("MATCH a", [])%string
  /\ reassemble "MATCH a" (chr CR +:+ nl +:+ "END" +:+ nl)
     = (EmptyString, ["MATCH a"; "END"; ""]%string).
Proof. split; reflexivity. Qed.

(** *** The loop of [dataHandler] *)

Lemma scan_shift lines : forall done cur,
fold_left scan_step lines (done, cur)
= (done ++ fst (fold_left scan_step lines ([], cur)),
   snd (fold_left scan_step lines ([], cur))).
Proof.
induction lines as [|l lines IH]; intros done cur; simpl.
- by rewrite app_nil_r.
- unfold scan_step at 2 4 6. simpl. destruct (startsWith "END" l).
  + rewrite (IH (done ++ [cur])), (IH [cur]). simpl. by rewrite <- app_assoc.
  + by rewrite (IH done).
Qed.

Lemma scan_lines_app l1 l2 :
scan_lines (l1 ++ l2)
= (fst (scan_lines l1) ++ fst (fold_left scan_step l2 ([], snd (scan_lines l1))),
   snd (fold_left scan_step l2 ([], snd (scan_lines l1)))).
Proof.
unfold scan_lines. rewrite fold_left_app.
destruct (fold_left scan_step l1 ([], [])) as [done cur]. apply scan_shift.
Qed.

Lemma handleLine_empty st line : nonempty line = false -> handleLine st line = st.
Proof.
unfold nonempty, handleLine. intros H. apply negb_false_iff in H. by rewrite H.
Qed.

(** The loop passes over empty lines. *)
Lemma handle_nonempty lines : forall st,
fold_left handleLine lines st
= fold_left handleLine (filter (fun line => nonempty line = true) lines) st.
Proof.
induction lines as [|l lines IH]; intros st; [done|].
destruct (nonempty l) eqn:E.
- rewrite filter_cons_True by done. simpl. apply IH.
- rewrite filter_cons_False by congruence. simpl.
  rewrite handleLine_empty by done. apply IH.
Qed.

Lemma combine_app_drop {A B} (l : list A) (a b : list B) :
length a <= length l ->
combine l (a ++ b) = combine l a ++ combine (drop (length a) l) b.
Proof.
revert l. induction a as [|x a IH]; intros l Hl; simpl.
- rewrite drop_0. by destruct l.
- destruct l as [|y l]; simpl in *; [lia|]. f_equal. apply IH. lia.
Qed.

Lemma combine_snoc_short {A B} (l : list A) (x : A) (a : list B) :
length a <= length l -> combine (l ++ [x]) a = combine l a.
Proof.
revert a. induction l as [|y l IH]; intros a Ha; destruct a as [|z a];
  simpl in *; try done; try lia.
f_equal. apply IH. lia.
Qed.

Lemma combine_lookup {A B} (l : list A) (k : list B) i a b :
l !! i = Some a -> k !! i = Some b -> combine l k !! i = Some (a, b).
Proof.
revert k i. induction l as [|x l IH]; intros [|y k] [|i] Hl Hk; simplify_eq/=;
  [done|]. by apply IH.
Qed.

(** The loop over lines that are not empty: every batch closed by a
  sentinel goes to the oldest callback that waits. *)
Lemma handle_lines lines : forall st,
Forall (fun line => nonempty line = true) lines ->
length (fst (fold_left scan_step lines ([], linesBuffer st)))
<= length (commandCallbacks st) ->
let r := fold_left scan_step lines ([], linesBuffer st) in
let st' := fold_left handleLine lines st in
invoked st' = invoked st ++ combine (commandCallbacks st) (fst r)
/\ commandCallbacks st' = drop (length (fst r)) (commandCallbacks st)
/\ linesBuffer st' = snd r
/\ dataBuffer st' = dataBuffer st
/\ racerDaemon st' = racerDaemon st.
Proof.
induction lines as [|l lines IH]; intros st Hne Hlen; simpl.
{ rewrite drop_0. split; [|done]. destruct (commandCallbacks st); simpl;
    by rewrite app_nil_r. }
inversion Hne as [|? ? Hl Hlines]; subst.
simpl in Hlen. unfold scan_step at 2 in Hlen. unfold scan_step at 2 4 6.
unfold handleLine at 2 4 6 8 10. unfold nonempty in Hl.
apply negb_true_iff in Hl. rewrite Hl.
destruct (startsWith "END" l); simpl in *.
- rewrite scan_shift in Hlen |- *. simpl in *.
  destruct (commandCallbacks st) as [|callback rest] eqn:Eq; simpl in *; [lia|].
  match goal with |- context [fold_left handleLine lines ?s] => set (st1 := s) end.
  destruct (IH st1) as (H1 & H2 & H3 & H4 & H5); [done|simpl; lia|].
  simpl in *. rewrite H1, H2, H3, H4, H5. rewrite <- app_assoc. done.
- match goal with |- context [fold_left handleLine lines ?s] => set (st1 := s) end.
  destruct (IH st1) as (H1 & H2 & H3 & H4 & H5); [done|done|].
  simpl in *. by rewrite H1, H2, H3, H4, H5.
Qed.

(** *** Runs of requests and daemon output *)

Section Daemon.
Context {Buffer : Type} (toString : Buffer -> string).

Local Abbreviation dataHandler := (dataHandler toString).
Local Abbreviation step := (step toString).
Local Abbreviation run := (run toString).
Local Abbreviation received := (received toString).
Local Abbreviation causal_from := (causal_from toString).
Local Abbreviation causal := (causal toString).
Local Abbreviation consistent := (consistent toString).

Lemma received_app evs1 evs2 :
received (evs1 ++ evs2) = (received evs1 +:+ received evs2)%string.
Proof.
induction evs1 as [|[cb c a|d] evs1 IH]; simpl; [done|done|].
by rewrite IH, append_assoc.
Qed.

Lemma issued_app (evs1 evs2 : list (Event Buffer)) :
issued (evs1 ++ evs2) = issued evs1 ++ issued evs2.
Proof.
induction evs1 as [|[cb c a|d] evs1 IH]; simpl; [done| |done]. by rewrite IH.
Qed.

Lemma causal_from_snoc evs ev : forall recv requests,
causal_from recv requests (evs ++ [ev])
= causal_from recv requests evs
  && in_time (recv +:+ received (evs ++ [ev]))
             (requests + length (issued (evs ++ [ev]))).
Proof.
induction evs as [|[cb c a|d] evs IH]; intros recv requests.
- destruct ev as [cb c a|d]; simpl.
  + rewrite append_nil_r, !andb_true_r.
    replace (requests + 1) with (S requests) by lia. done.
  + rewrite append_nil_r, !andb_true_r.
    replace (requests + 0) with requests by lia. done.
- cbn [app causal_from received issued]. rewrite IH. simpl length.
  replace (requests + S (length (issued (evs ++ [ev]))))
    with (S requests + length (issued (evs ++ [ev]))) by lia.
  by rewrite andb_assoc.
- cbn [app causal_from received issued]. rewrite IH.
  by rewrite append_assoc, andb_assoc.
Qed.

Lemma causal_snoc evs ev :
causal (evs ++ [ev]) = true ->
causal evs = true
/\ in_time (received (evs ++ [ev])) (length (issued (evs ++ [ev]))) = true.
Proof.
unfold causal. rewrite causal_from_snoc. by intros [? ?]%andb_true_iff.
Qed.

Lemma set_dataBuffer_same st : set_dataBuffer (dataBuffer st) st = st.
Proof. by destruct st. Qed.

(** Every run in which responses follow requests keeps the manager
  consistent. *)
Lemma run_consistent evs :
causal evs = true -> consistent evs (run started evs).
Proof.
induction evs as [|ev evs IH] using rev_ind; intros Hc.
{ exists EmptyString. by repeat split. }
apply causal_snoc in Hc as [Hc Htime]. specialize (IH Hc).
unfold run in *. rewrite fold_left_app. simpl.
set (st := fold_left step evs started) in *.
destruct IH as (P & HP & Hterm & Hbuf & Hd & Hlen & Hinv & Hq & Hl).
unfold consistent. rewrite received_app, issued_app in *.
destruct ev as [cb c a|data]; simpl in *.
- (* a request is queued *)
  unfold runCommand. rewrite Hd. simpl. rewrite append_nil_r.
  exists P. simpl. rewrite length_app. simpl.
  repeat split; try done.
  + lia.
  + rewrite Hinv. by rewrite combine_snoc_short.
  + rewrite Hq. by rewrite drop_app_le.
- (* output arrives *)
  rewrite append_nil_r, app_nil_r in *.
  unfold CompletionManager.dataHandler, reassemble. cbv zeta.
  set (d := toString data) in *.
  destruct (ends_with_newline d) eqn:Ed; simpl.
  + (* the chunk ends a line: the buffer is handed to the loop *)
    rewrite handle_nonempty. fold (nonempty_lines (dataBuffer st +:+ d)).
    set (new := nonempty_lines (dataBuffer st +:+ d)).
    set (done := fst (scan_lines (nonempty_lines P))) in *.
    assert (HP' : terminated (P +:+ (dataBuffer st +:+ d)) = true).
    { apply terminated_app. rewrite ends_with_newline_app; [done|]. by destruct d. }
    assert (Hscan : scan_lines (nonempty_lines (P +:+ (dataBuffer st +:+ d)))
                    = (done ++ fst (fold_left scan_step new ([], linesBuffer st)),
                       snd (fold_left scan_step new ([], linesBuffer st)))).
    { rewrite nonempty_lines_app by done. rewrite scan_lines_app. by rewrite Hl. }
    assert (Hroom : length done
                    + length (fst (fold_left scan_step new ([], linesBuffer st)))
                    <= length (issued evs)).
    { unfold in_time, batches in Htime. rewrite HP, append_assoc in Htime.
      rewrite HP' in Htime. simpl in Htime. apply Nat.leb_le in Htime.
      rewrite Hscan in Htime. simpl in Htime. by rewrite length_app in Htime. }
    destruct (handle_lines new (set_dataBuffer EmptyString st))
      as (H1 & H2 & H3 & H4 & H5).
    { apply Forall_forall. intros l Hin. by apply list_elem_of_filter in Hin as [? _]. }
    { simpl. rewrite Hq, length_drop. lia. }
    exists (P +:+ (dataBuffer st +:+ d))%string.
    rewrite Hscan. simpl in *. rewrite H1, H2, H3, H4, H5.
    repeat split; try done.
    * by rewrite HP, append_assoc, append_nil_r.
    * by rewrite length_app.
    * rewrite Hinv, Hq. by rewrite combine_app_drop.
    * rewrite Hq, drop_drop, length_app. done.
  + (* the chunk ends inside a line: it is buffered *)
    exists P. simpl. repeat split; try done.
    * by rewrite HP, append_assoc.
    * by apply unfinished_app.
Qed.

(** C5, as amended.  When no sentinel arrives before the request it answers
  was issued and the text received, each chunk decoded on its own, is made
  of whole lines, the callbacks invoked are those of the requests in the
  order of issue, the i-th with the i-th batch of lines closed by a
  sentinel; this depends on the text received, not on how it was cut into
  chunks nor on when the requests were issued between the chunks. *)
Theorem responses_in_request_order (evs : list (Event Buffer)) :
causal evs = true -> terminated (received evs) = true ->
invoked (run started evs) = combine (issued evs) (batches (received evs))
/\ length (batches (received evs)) <= length (issued evs)
/\ commandCallbacks (run started evs)
   = drop (length (batches (received evs))) (issued evs)
/\ (forall i callback batch,
      issued evs !! i = Some callback ->
      batches (received evs) !! i = Some batch ->
      invoked (run started evs) !! i = Some (callback, batch))
/\ (forall evs',
      causal evs' = true ->
      issued evs' = issued evs -> received evs' = received evs ->
      invoked (run started evs') = invoked (run started evs)).
Proof.
assert (Hmain : forall evs,
           causal evs = true -> terminated (received evs) = true ->
           invoked (run started evs) = combine (issued evs) (batches (received evs))
           /\ length (batches (received evs)) <= length (issued evs)
           /\ commandCallbacks (run started evs)
              = drop (length (batches (received evs))) (issued evs)).
{ clear evs. intros evs Hc Ht.
  destruct (run_consistent evs Hc) as (P & HP & _ & Hbuf & _ & Hlen & Hinv & Hq & _).
  rewrite HP in Ht. apply terminated_unfinished in Ht; [|done].
  rewrite Ht, append_nil_r in HP. subst P. done. }
intros Hc Ht. destruct (Hmain evs Hc Ht) as (Hinv & Hlen & Hq).
split; [done|]. split; [done|]. split; [done|]. split.
- intros i callback batch Hi Hb. rewrite Hinv. by apply combine_lookup.
- intros evs' Hc' Hi Hr. rewrite <- Hr in Ht.
  destruct (Hmain evs' Hc' Ht) as (Hinv' & _). by rewrite Hinv', Hinv, Hi, Hr.
Qed.

End Daemon.

Lemma responses_in_request_order_witness :
invoked (run ascii_toString started sample_run)
= [(1, ["MATCH a"]); (2, ["MATCH b"])]%string.
Proof.
assert (Hc : causal ascii_toString sample_run = true) by (vm_compute; reflexivity).
assert (Ht : terminated (received ascii_toString sample_run) = true)
  by (vm_compute; reflexivity).
destruct (responses_in_request_order ascii_toString sample_run Hc Ht) as (H & _).
rewrite H. vm_compute. reflexivity.
Defined.

(** C5, as stated, fails: a sentinel that arrives while no callback waits
  closes a batch that goes to nobody, and the callback of the request
  issued next is invoked with the batch after it.  In [early_sentinel] the
  first batch of the output is empty and the second holds one line; the
  one callback issued is invoked with the second. *)
Lemma early_sentinel_shifts_batches :
~ (forall (evs : list (Event string)) i callback batch,
      terminated (received ascii_toString evs) = true ->
      issued evs !! i = Some callback ->
      batches (received ascii_toString evs) !! i = Some batch ->
      invoked (run ascii_toString started evs) !! i = Some (callback, batch)).
Proof.
intros H.
specialize (H early_sentinel 0 1 [] eq_refl eq_refl eq_refl).
vm_compute in H. discriminate H.
Qed.

(** *** Chunks *)

Section Chunks.
Context {Buffer : Type} (toString : Buffer -> string).

Local Abbreviation dataHandler := (dataHandler toString).
Local Abbreviation feed := (feed toString).
Local Abbreviation feed_all := (feed_all toString).
Local Abbreviation stream := (stream toString).
Local Abbreviation fed := (fed toString).

Lemma stream_app c1 c2 : stream (c1 ++ c2) = (stream c1 +:+ stream c2)%string.
Proof.
induction c1 as [|c c1 IH]; simpl; [done|]. by rewrite IH, append_assoc.
Qed.

Lemma feed_all_fed chunks : fed chunks (feed_all chunks).
Proof.
induction chunks as [|data chunks IH] using rev_ind.
{ exists EmptyString. by repeat split. }
unfold CompletionManager.feed_all in *. rewrite fold_left_app. simpl.
destruct (fold_left feed chunks (EmptyString, [])) as [buffer lines].
destruct IH as (P & HP & Hterm & Hbuf & Hl). simpl in *.
unfold CompletionManager.fed, CompletionManager.feed, reassemble.
rewrite stream_app. simpl. rewrite append_nil_r.
set (c := toString data) in *.
destruct (ends_with_newline c) eqn:Ec; simpl.
- exists (P +:+ (buffer +:+ c))%string. simpl.
  rewrite append_nil_r, HP, append_assoc. split; [done|]. split.
  + apply terminated_app. rewrite ends_with_newline_app; [done|]. by destruct c.
  + split; [done|]. rewrite nonempty_lines_app by done. by rewrite Hl.
- exists P. simpl. rewrite HP, append_assoc. split; [done|]. split; [done|].
  split; [by apply unfinished_app|]. by rewrite app_nil_r.
Qed.

Lemma feed_all_terminated chunks :
terminated (stream chunks) = true ->
feed_all chunks = (EmptyString, nonempty_lines (stream chunks)).
Proof.
intros Ht. destruct (feed_all_fed chunks) as (P & HP & _ & Hbuf & Hl).
destruct (feed_all chunks) as [buffer lines]. simpl in *.
rewrite HP in Ht. apply terminated_unfinished in Ht; [|done]. subst buffer.
rewrite append_nil_r in HP. by subst.
Qed.

(** C6, as amended.  For chunks whose text, each chunk decoded on its own,
  ends in a line terminator, whatever the chunks the text arrives in, the
  lines handed to the loop are the lines of the text that are not empty,
  each once and in order, and the buffer ends empty; a chunk whose text
  does not end in a line feed is buffered whole and yields nothing; lines
  printed with either terminator are read back as printed. *)
Theorem lines_regardless_of_chunks :
(forall chunks,
    terminated (stream chunks) = true ->
    feed_all chunks = (EmptyString, nonempty_lines (stream chunks)))
/\ (forall chunks1 chunks2,
      stream chunks1 = stream chunks2 -> terminated (stream chunks1) = true ->
      feed_all chunks1 = feed_all chunks2)
/\ (forall buffer dataStr,
      ends_with_newline dataStr = false ->
      reassemble buffer dataStr = ((buffer +:+ dataStr)%string, []))
/\ (forall data st,
      dataHandler data st
      = fold_left handleLine (snd (feed (dataBuffer st, []) data))
                  (set_dataBuffer (fst (feed (dataBuffer st, []) data)) st))
/\ (forall l,
      Forall (fun lt => plain lt.1 = true) l ->
      nonempty_lines (print_lines l) = l.*1).
Proof.
split; [apply feed_all_terminated|]. split.
{ intros c1 c2 Hs Ht. rewrite (feed_all_terminated c1 Ht).
  rewrite Hs in Ht. rewrite (feed_all_terminated c2 Ht). by rewrite Hs. }
split.
{ intros buffer d Hd. unfold reassemble. by rewrite Hd. }
split; [|apply print_lines_read].
intros data st. unfold CompletionManager.dataHandler, CompletionManager.feed. simpl.
destruct (reassemble (dataBuffer st) (toString data)) as [buffer lines]. simpl.
by rewrite <- handle_nonempty.
Qed.

End Chunks.

Lemma lines_regardless_of_chunks_witness :
feed_all ascii_toString
         ["MATCH a"; (chr CR +:+ nl +:+ "EN")%string; ("D" +:+ nl)%string]
= (EmptyString, ["MATCH a"; "END"]%string).
Proof.
rewrite (proj1 (lines_regardless_of_chunks ascii_toString)
           ["MATCH a"; (chr CR +:+ nl +:+ "EN")%string; ("D" +:+ nl)%string])
  by (vm_compute; reflexivity).
vm_compute. reflexivity.
Defined.

(** C6, as stated, fails for a stream that does not end in a line
  terminator: received whole, the text of [whole_chunk] is buffered and
  yields nothing; received as [two_chunks], its first line is yielded. *)
Lemma unfinished_stream_depends_on_chunks :
~ (forall chunks1 chunks2 : list string,
      stream ascii_toString chunks1 = stream ascii_toString chunks2 ->
      snd (feed_all ascii_toString chunks1) = snd (feed_all ascii_toString chunks2)).
Proof.
intros H. specialize (H whole_chunk two_chunks eq_refl).
vm_compute in H. discriminate H.
Qed.

(** *** Stopping *)

(** C7.  [stop] invokes every callback that waits with an empty result, and
  so does [restart], which begins with [stop]; a daemon that closes with a
  code other than 0, or fails with an error other than ENOENT, schedules a
  restart, and the callbacks are invoked with an empty result when its
  timer fires. *)
Theorem stop_answers_pending (st : State) :
invoked (stop st)
= invoked st ++ map (fun callback => (callback, [])) (commandCallbacks st)
/\ (forall callback,
      callback ∈ commandCallbacks st -> (callback, []) ∈ invoked (stop st))
/\ (forall callback pathToRacer,
      callback ∈ commandCallbacks st ->
      (callback, []) ∈ invoked (restart pathToRacer st))
/\ (forall callback pathToRacer code,
      callback ∈ commandCallbacks st -> code <> Some 0%Z -> restarts st = [] ->
      (callback, []) ∈ invoked (onTimeout (onClose pathToRacer code st)))
/\ (forall callback pathToRacer errCode,
      callback ∈ commandCallbacks st -> errCode <> "ENOENT"%string ->
      restarts st = [] ->
      (callback, []) ∈ invoked (onTimeout (onSpawnError pathToRacer errCode st))).
Proof.
assert (Hstop : forall st callback,
           callback ∈ commandCallbacks st -> (callback, []) ∈ invoked (stop st)).
{ clear st. intros st cb Hin. unfold stop, clearCommandCallbacks, stopDaemon.
  destruct (racerDaemon st); simpl; apply elem_of_app; right;
    apply list_elem_of_In;
    apply (in_map (fun callback : Callback => (callback, @nil string)) _ cb);
    by apply list_elem_of_In. }
assert (Hd : forall st, commandCallbacks (stopDaemon st) = commandCallbacks st).
{ intros s. unfold stopDaemon. by destruct (racerDaemon s). }
assert (Hrestart : forall st callback pathToRacer,
           callback ∈ commandCallbacks st ->
           (callback, []) ∈ invoked (restart pathToRacer st)).
{ clear st. intros st cb path Hin. unfold restart.
  destruct path as [path|]; [|by apply Hstop].
  destruct (String.eqb path EmptyString); simpl; by apply Hstop. }
split.
{ unfold stop, clearCommandCallbacks, stopDaemon. by destruct (racerDaemon st). }
split; [apply Hstop|]. split; [apply Hrestart|].
split.
- intros cb path code Hin Hcode Hr. unfold onClose.
  assert (Hs : (let st0 := stopDaemon st in
                match code with
                | Some 0%Z => st0
                | _ => scheduleRestart path st0
                end) = scheduleRestart path (stopDaemon st)).
  { destruct code as [[| |]|]; try done. }
  simpl in Hs. rewrite Hs. unfold onTimeout, scheduleRestart. cbn [restarts].
  assert (restarts (stopDaemon st) = []) as ->.
  { unfold stopDaemon. by destruct (racerDaemon st). }
  cbn [app]. apply Hrestart. simpl. by rewrite Hd.
- intros cb path err Hin Herr Hr. unfold onSpawnError. simpl.
  apply String.eqb_neq in Herr. rewrite Herr.
  unfold onTimeout, scheduleRestart. cbn [restarts].
  assert (restarts (stopDaemon st) = []) as ->.
  { unfold stopDaemon. by destruct (racerDaemon st). }
  cbn [app]. apply Hrestart. simpl. by rewrite Hd.
Qed.

Lemma stop_answers_pending_witness :
let st := fst (runCommand 2 "complete" [] (fst (runCommand 1 "complete" [] started))) in
(1, []) ∈ invoked (stop st)
/\ (2, []) ∈ invoked (onTimeout (onClose "racer" (Some 101%Z) st)).
Proof.
intros st.
destruct (stop_answers_pending st) as (_ & Hstop & _ & Hclose & _).
split.
- apply Hstop. vm_compute. apply list_elem_of_here.
- apply Hclose; [|discriminate|reflexivity].
  vm_compute. apply list_elem_of_further, list_elem_of_here.
Defined.

End CompletionManagerFacts.

(** ** parseNewHumanReadable *)

Module NewStyleFacts.
Import Text Regex NewStyle.

(** The loop takes the k-th block with the k-th caret line of the whole
  output: the two patterns are advanced side by side and nothing ties a
  caret line to the block it stands in. *)
Lemma scan_in_step turns output : forall errorIndex rangeIndex errors outcome,
scan turns output errorIndex rangeIndex errors = Some outcome ->
outcome = in_step errors (blocks_from turns output errorIndex)
                  (carets_from turns output rangeIndex).
Proof.
induction turns as [|turns IH]; intros i j errors outcome H; [done|].
cbn [scan blocks_from carets_from] in *.
destruct (exec newErrorRegex output i) as [[m|] i'];
  destruct (exec newErrorRange output j) as [[rg|] j'];
  simpl in *; try (by injection H as <-).
apply IH in H. exact H.
Qed.

(** Every error has its end on the line it starts on. *)
Lemma in_step_one_line ms : forall rgs errors,
Forall (fun e => endLine e = startLine e) errors ->
match in_step errors ms rgs with
| Returned errors' | TypeError errors' =>
    Forall (fun e => endLine e = startLine e) errors'
end.
Proof.
induction ms as [|m ms IH]; intros rgs errors He; [done|].
destruct rgs as [|rg rgs]; [done|]. simpl. apply IH.
apply Forall_app. split; [done|]. by repeat constructor.
Qed.

(** What the loop returns: the k-th error is made of the k-th block and the
    k-th caret line. *)
Lemma in_step_returned ms : forall rgs errors errors',
  in_step errors ms rgs = Returned errors' ->
  errors' = errors ++ zip_with error_of ms rgs.
Proof.
  induction ms as [|m ms IH]; intros rgs errors errors' H; simpl in *.
  - injection H as <-. by rewrite app_nil_r.
  - destruct rgs as [|rg rgs]; [done|].
    apply IH in H. rewrite H, <- app_assoc. done.
Qed.

Lemma parse_in_step output errors :
  parseNewHumanReadable [] output = Some (Returned errors) ->
  errors = zip_with error_of (blocks output) (carets output)
  /\ Forall (fun e => endLine e = startLine e) errors.
Proof.
  intros H. apply scan_in_step in H. split.
  - symmetry in H. by apply in_step_returned in H.
  - pose proof (in_step_one_line (blocks output) (carets output) [] (Forall_nil_2 _)) as Hl.
    unfold blocks, carets in Hl. by rewrite <- H in Hl.
Qed.

(** C9 on two outputs.  In [two_blocks] the first block holds two caret
  lines: the warning after it is given the width of the second of them, 1,
  though its own caret line is three carets wide.  In [bracket_block] the
  block holds no line that the caret pattern matches, and the loop fails
  on [range[1]] before it pushes anything. *)
Theorem caret_of_another_block :
parseNewHumanReadable [] two_blocks
= Some (Returned
          [ {| filename := "src/main.rs"; startLine := 2; startCharacter := 5;
               endLine := 2; endCharacter := 6; severity := "error";
               error_message := "mismatched types" |};
            {| filename := "src/main.rs"; startLine := 8; startCharacter := 9;
               endLine := 8; endCharacter := 10; severity := "warning";
               error_message := "unused variable: `abc`" |} ])
/\ own_caret <$> blocks two_blocks = [Some "^"; Some "^^^"]%string
/\ (fun rg => group rg 1) <$> carets two_blocks
   = [Some "^"; Some "^"; Some "^^^"]%string
/\ parseNewHumanReadable [] bracket_block = Some (TypeError [])
/\ length (blocks bracket_block) = 1
/\ carets bracket_block = [].
Proof. vm_compute. done. Qed.

End NewStyleFacts.

(** ** The matcher against what a pattern matches *)

Module RegexFacts.
Import Text Regex RegexSpec.

#[local] Arguments String.append !_ _ / : simpl nomatch.

Lemma string_app_nil_r (s : string) : (s +:+ "")%string = s.
Proof. induction s as [|c s IH]; simpl; [done|by rewrite IH]. Qed.

Lemma string_app_assoc (a b c : string) :
  ((a +:+ b) +:+ c)%string = (a +:+ (b +:+ c))%string.
Proof. induction a as [|x a IH]; simpl; [done|by rewrite IH]. Qed.

Lemma string_app_length (a b : string) :
  String.length (a +:+ b) = String.length a + String.length b.
Proof. induction a as [|x a IH]; simpl; [done|by rewrite IH]. Qed.

Lemma substring_prefix (w s : string) :
  substring 0 (String.length w) (w +:+ s) = w.
Proof.
  induction w as [|c w IH]; simpl.
  - by destruct s.
  - by rewrite IH.
Qed.

Lemma consumed (w s : string) :
  substring 0 (String.length (w +:+ s) - String.length s) (w +:+ s) = w.
Proof.
  rewrite string_app_length.
  replace (String.length w + String.length s - String.length s)
    with (String.length w) by lia.
  apply substring_prefix.
Qed.

(** When the matcher succeeds, the pattern matches a prefix of the text and
    the continuation succeeded on the rest. *)
Lemma rmatch_sound {A} (r : regex) : forall s caps (k : string -> Captures -> option A) x,
  rmatch A r s caps k = Some x ->
  exists w s' caps',
    s = (w +:+ s')%string /\ matches r w caps caps' /\ k s' caps' = Some x.
Proof.
  induction r as [|c|p|r1 IH1 r2 IH2|r1 IH1 r2 IH2|r IH|n r IH];
    intros s caps k x H; simpl in H.
  - exists EmptyString, s, caps. split; [done|]. split; [constructor|done].
  - destruct s as [|y s]; [done|]. destruct (Ascii.eqb y c) eqn:E; [|done].
    apply Ascii.eqb_eq in E as ->.
    exists (String c EmptyString), s, caps. split; [done|]. split; [constructor|done].
  - destruct s as [|y s]; [done|]. destruct (p y) eqn:E; [|done].
    exists (String y EmptyString), s, caps. split; [done|].
    split; [by constructor|done].
  - apply IH1 in H as (w1 & s1 & caps1 & -> & M1 & H).
    apply IH2 in H as (w2 & s2 & caps2 & -> & M2 & H).
    exists (w1 +:+ w2)%string, s2, caps2. rewrite string_app_assoc.
    split; [done|]. split; [by econstructor|done].
  - destruct (rmatch A r1 s caps k) as [y|] eqn:E.
    + injection H as ->. apply IH1 in E as (w & s' & caps' & -> & M & H).
      exists w, s', caps'. split; [done|]. split; [by apply matches_alt_l|done].
    + apply IH2 in H as (w & s' & caps' & -> & M & H).
      exists w, s', caps'. split; [done|]. split; [by apply matches_alt_r|done].
  - remember (String.length s) as n eqn:Hn. clear Hn.
    revert s caps H. induction n as [|n IHn]; intros s caps H.
    + exists EmptyString, s, caps. split; [done|]. split; [constructor|done].
    + match type of H with
      | match ?m with _ => _ end = _ => destruct m as [y|] eqn:E
      end.
      * injection H as ->. apply IH in E as (w1 & s1 & caps1 & -> & M1 & H).
        destruct (String.length s1 <? String.length (w1 +:+ s1)); [|done].
        apply IHn in H as (w2 & s2 & caps2 & -> & M2 & H).
        exists (w1 +:+ w2)%string, s2, caps2. rewrite string_app_assoc.
        split; [done|]. split; [by econstructor|done].
      * exists EmptyString, s, caps. split; [done|]. split; [constructor|done].
  - apply IH in H as (w & s' & caps' & -> & M & H).
    rewrite consumed in H.
    exists w, s', ((n, w) :: caps'). split; [done|]. split; [by constructor|done].
Qed.

(** *** What the parts of the patterns match *)

Lemma matches_lit s : forall w caps caps',
  matches (lit s) w caps caps' -> w = s /\ caps' = caps.
Proof.
  induction s as [|c s IH]; intros w caps caps' H; simpl in H.
  - by inversion H.
  - inversion H as [| | |? ? w1 w2 ? ? ? H1 H2| | | | |]; subst.
    inversion H1; subst. apply IH in H2 as [-> ->]. done.
Qed.

Lemma matches_star_cls p w caps caps' :
  matches (Star (Cls p)) w caps caps' -> caps' = caps /\ all_chars p w = true.
Proof.
  remember (Star (Cls p)) as r eqn:Hr. intros H.
  induction H as [| | | | | |r' c|r' w1 w2 c c' c'' H1 _ H2 IH2|]; try done.
  injection Hr as ->. destruct (IH2 eq_refl) as [-> Hw].
  inversion H1; subst. split; [done|]. simpl. by rewrite Hw, andb_true_r.
Qed.

Lemma matches_plus_cls p w caps caps' :
  matches (Plus (Cls p)) w caps caps' ->
  caps' = caps /\ all_chars p w = true /\ w <> EmptyString.
Proof.
  intros H. inversion H as [| | |? ? w1 w2 ? ? ? H1 H2| | | | |]; subst.
  inversion H1; subst. apply matches_star_cls in H2 as [-> Hw].
  split; [done|]. split; [|done]. simpl. by rewrite Hw, andb_true_r.
Qed.

Lemma matches_grp_inv n r w caps caps' :
  matches (Grp n r) w caps caps' ->
  exists caps0, matches r w caps caps0 /\ caps' = (n, w) :: caps0.
Proof. intros H. inversion H; subst. eauto. Qed.

Lemma matches_seq_inv r1 r2 w caps caps'' :
  matches (Seq r1 r2) w caps caps'' ->
  exists w1 w2 caps', w = (w1 +:+ w2)%string
                      /\ matches r1 w1 caps caps' /\ matches r2 w2 caps' caps''.
Proof. intros H. inversion H; subst. eauto 10. Qed.

Lemma matches_chr_inv c w caps caps' :
  matches (Chr c) w caps caps' -> w = String c EmptyString /\ caps' = caps.
Proof. intros H. by inversion H. Qed.

Lemma matches_eps_inv w caps caps' :
  matches Eps w caps caps' -> w = EmptyString /\ caps' = caps.
Proof. intros H. by inversion H. Qed.

Lemma matches_alt_inv r1 r2 w caps caps' :
  matches (Alt r1 r2) w caps caps' ->
  matches r1 w caps caps' \/ matches r2 w caps caps'.
Proof. intros H. inversion H; subst; eauto. Qed.

(** The four severities, as the first alternative of both patterns. *)
Lemma matches_severity w caps caps' :
  matches (Alt (lit "warning") (Alt (lit "error") (Alt (lit "note") (lit "help"))))
          w caps caps' ->
  w ∈ OldStyle.severities /\ caps' = caps.
Proof.
  unfold OldStyle.severities. intros H.
  apply matches_alt_inv in H as [H|H];
    [apply matches_lit in H as [-> ->]; split; [|done]; set_solver|].
  apply matches_alt_inv in H as [H|H];
    [apply matches_lit in H as [-> ->]; split; [|done]; set_solver|].
  apply matches_alt_inv in H as [H|H];
    apply matches_lit in H as [-> ->]; (split; [|done]); set_solver.
Qed.

(** A match adds captures of the groups of its pattern, in front of those
    it started from. *)
Lemma matches_adds r w caps caps' :
  matches r w caps caps' ->
  exists added, caps' = added ++ caps /\ Forall (fun kv => kv.1 ∈ group_ids r) added.
Proof.
  induction 1 as [c|x c|p x c Hp|r1 r2 w1 w2 c c' c'' _ IH1 _ IH2
                 |r1 r2 w c c' _ IH|r1 r2 w c c' _ IH
                 |r c|r w1 w2 c c' c'' _ IH1 _ IH2|n r w c c' _ IH]; simpl.
  - by exists [].
  - by exists [].
  - by exists [].
  - destruct IH1 as (a1 & -> & F1), IH2 as (a2 & -> & F2).
    exists (a2 ++ a1). rewrite app_assoc. split; [done|].
    apply Forall_app. split; eapply Forall_impl; try done; simpl; intros; set_solver.
  - destruct IH as (a & -> & F). exists a. split; [done|].
    eapply Forall_impl; [done|]. simpl; intros; set_solver.
  - destruct IH as (a & -> & F). exists a. split; [done|].
    eapply Forall_impl; [done|]. simpl; intros; set_solver.
  - by exists [].
  - destruct IH1 as (a1 & -> & F1), IH2 as (a2 & -> & F2).
    exists (a2 ++ a1). rewrite app_assoc. split; [done|].
    apply Forall_app. split; done.
  - destruct IH as (a & -> & F). exists ((n, w) :: a). split; [done|].
    constructor; [set_solver|]. eapply Forall_impl; [done|]. simpl; intros; set_solver.
Qed.

Lemma capture_added added caps n :
  Forall (fun kv : nat * string => kv.1 <> n) added ->
  capture (added ++ caps) n = capture caps n.
Proof.
  induction 1 as [|[m s] added Hm _ IH]; simpl; [done|].
  simpl in Hm. destruct (m =? n) eqn:E; [|done].
  apply Nat.eqb_eq in E. done.
Qed.

(** *** Searching *)

Lemma drop_string_split n : forall s,
  n <= String.length s ->
  exists pre, s = (pre +:+ drop_string n s)%string /\ String.length pre = n.
Proof.
  induction n as [|n IH]; intros s Hn.
  - exists EmptyString. by destruct s.
  - destruct s as [|c s]; simpl in Hn; [lia|].
    destruct (IH s) as (pre & Hs & Hl); [lia|].
    exists (String c pre). simpl. by rewrite <- Hs, Hl.
Qed.

(** A match found by [search] lies in the text, at its index, and is
    matched by the pattern. *)
Lemma search_sound r : forall s pos m,
  search r s pos = Some m ->
  exists pre post,
    s = (pre +:+ matched m +:+ post)%string
    /\ index m = pos + String.length pre
    /\ matches r (matched m) [] (groups m).
Proof.
  assert (Hhere : forall s pos s' caps,
             rmatch _ r s [] (fun s' caps => Some (s', caps)) = Some (s', caps) ->
             let m := {| index := pos;
                         matched := substring 0 (String.length s - String.length s') s;
                         groups := caps |} in
             exists pre post,
               s = (pre +:+ matched m +:+ post)%string
               /\ index m = pos + String.length pre
               /\ matches r (matched m) [] (groups m)).
  { intros s pos s' caps E m.
    apply rmatch_sound in E as (w & s'' & caps' & Hs & M & Hk).
    injection Hk as <- <-. subst m. simpl. rewrite Hs, consumed.
    exists EmptyString, s''. simpl. split; [done|]. split; [lia|done]. }
  induction s as [|c s IH]; intros pos m H.
  - cbn [search] in H.
    destruct (rmatch _ r EmptyString [] _) as [[s' caps]|] eqn:E; [|done].
    injection H as <-. exact (Hhere EmptyString pos s' caps E).
  - cbn [search] in H.
    destruct (rmatch _ r (String c s) [] _) as [[s' caps]|] eqn:E.
    + injection H as <-. exact (Hhere (String c s) pos s' caps E).
    + apply IH in H as (pre & post & Hs & Hi & M).
      exists (String c pre), post. simpl. rewrite <- Hs. split; [done|].
      split; [lia|done].
Qed.

Lemma exec_sound r s lastIndex m lastIndex' :
  exec r s lastIndex = (Some m, lastIndex') ->
  lastIndex <= index m
  /\ lastIndex' = index m + String.length (matched m)
  /\ lastIndex' <= String.length s
  /\ matches r (matched m) [] (groups m).
Proof.
  unfold exec. destruct (String.length s <? lastIndex) eqn:E; [done|].
  apply Nat.ltb_ge in E.
  destruct (search r (drop_string lastIndex s) lastIndex) as [m'|] eqn:S; [|done].
  intros [= -> <-]. apply search_sound in S as (pre & post & Hs & Hi & M).
  destruct (drop_string_split lastIndex s E) as (pre0 & Hs0 & Hl0).
  split; [lia|]. split; [done|]. split; [|done].
  rewrite Hs0, Hs, !string_app_length. lia.
Qed.

End RegexFacts.

(** ** The parsers of human-readable output *)

Module HumanReadableFacts.
Import Text Regex RegexSpec RegexFacts HumanReadableSpec.

#[local] Arguments String.append !_ _ / : simpl nomatch.

Section Old.
Import OldStyle.

Lemma match_line_sound r line caps :
  match_line r line = Some caps -> matches r line [] caps.
Proof.
  unfold match_line. intros H.
  apply rmatch_sound in H as (w & rest & caps' & -> & M & Hk).
  destruct rest; [|done]. injection Hk as <-. by rewrite string_app_nil_r.
Qed.

(** X1.  For a line whose file name, when the line matches, is no array
    index and whose numbers are at most 2^53: the line either leaves the
    errors as they are, or adds one error whose fields are the parts of the
    line: file name, colon, four numbers separated as in [file:1:2: 3:4],
    blanks, one of the four severities, colon, blanks, message. *)
Theorem parseOldHumanReadable_parts (errors : list RustError) (line : string) :
  plain_line line = true ->
  parseOldHumanReadable errors line = errors
  \/ exists e d2 d3 d4 d5 b1 b2 b3,
      parseOldHumanReadable errors line = errors ++ [e]
      /\ line = (filename e +:+ ":" +:+ d2 +:+ ":" +:+ d3 +:+ ":" +:+ b1 +:+
                 d4 +:+ ":" +:+ d5 +:+ b2 +:+ severity e +:+ ":" +:+ b3 +:+
                 error_message e)%string
      /\ numeral d2 /\ numeral d3 /\ numeral d4 /\ numeral d5
      /\ startLine e = NewStyle.Number d2
      /\ startCharacter e = NewStyle.Number d3
      /\ endLine e = NewStyle.Number d4
      /\ endCharacter e = NewStyle.Number d5
      /\ blank b1 /\ blank b2 /\ blank b3
      /\ severity e ∈ severities
      /\ all_chars dot (filename e) = true
      /\ all_chars dot (error_message e) = true
      /\ plain_error e
      /\ exact (endLine e) = true /\ exact (endCharacter e) = true.
Proof.
  intros P. unfold plain_line in P. unfold parseOldHumanReadable.
  destruct (match_line errorRegex line) as [caps|] eqn:E; [right|by left].
  apply andb_true_iff in P as [P P5]. apply andb_true_iff in P as [P P4].
  apply andb_true_iff in P as [P P3]. apply andb_true_iff in P as [P1 P2].
  apply negb_true_iff in P1.
  apply match_line_sound in E. unfold errorRegex in E. cbn [Regex.seq] in E.
  apply matches_seq_inv in E as (w1 & r1 & c1 & -> & M1 & E).
  apply matches_grp_inv in M1 as (? & [-> H1]%matches_star_cls & ->).
  apply matches_seq_inv in E as (? & r2 & ? & -> & [-> ->]%matches_chr_inv & E).
  apply matches_seq_inv in E as (w2 & r3 & c2 & -> & M2 & E).
  apply matches_grp_inv in M2 as (? & (-> & H2 & N2)%matches_plus_cls & ->).
  apply matches_seq_inv in E as (? & r4 & ? & -> & [-> ->]%matches_chr_inv & E).
  apply matches_seq_inv in E as (w3 & r5 & c3 & -> & M3 & E).
  apply matches_grp_inv in M3 as (? & (-> & H3 & N3)%matches_plus_cls & ->).
  apply matches_seq_inv in E as (? & r6 & ? & -> & [-> ->]%matches_chr_inv & E).
  apply matches_seq_inv in E as (b1 & r7 & ? & -> & (-> & B1 & NB1)%matches_plus_cls & E).
  apply matches_seq_inv in E as (w4 & r8 & c4 & -> & M4 & E).
  apply matches_grp_inv in M4 as (? & (-> & H4 & N4)%matches_plus_cls & ->).
  apply matches_seq_inv in E as (? & r9 & ? & -> & [-> ->]%matches_chr_inv & E).
  apply matches_seq_inv in E as (w5 & r10 & c5 & -> & M5 & E).
  apply matches_grp_inv in M5 as (? & (-> & H5 & N5)%matches_plus_cls & ->).
  apply matches_seq_inv in E as (b2 & r11 & ? & -> & (-> & B2 & NB2)%matches_plus_cls & E).
  apply matches_seq_inv in E as (w6 & r12 & c6 & -> & M6 & E).
  apply matches_grp_inv in M6 as (? & [H6 ->]%matches_severity & ->).
  apply matches_seq_inv in E as (? & r13 & ? & -> & [-> ->]%matches_chr_inv & E).
  apply matches_seq_inv in E as (b3 & r14 & ? & -> & (-> & B3 & NB3)%matches_plus_cls & E).
  apply matches_seq_inv in E as (w7 & r15 & c7 & -> & M7 & E).
  apply matches_grp_inv in M7 as (? & [-> H7]%matches_star_cls & ->).
  apply matches_eps_inv in E as [-> ->].
  eexists _, w2, w3, w4, w5, b1, b2, b3. split; [reflexivity|].
  cbn [capture Nat.eqb NewStyle.orEmpty] in P1, P2, P3, P4, P5.
  unfold plain_error.
  cbn [capture Nat.eqb NewStyle.orEmpty filename severity error_message
       startLine startCharacter endLine endCharacter].
  rewrite !string_app_nil_r.
  repeat split; try done.
Qed.

Lemma parseOldHumanReadable_parts_witness :
  parseOldHumanReadable [] "src/main.rs:3:5: 3:10 error: mismatched types"
  <> [].
Proof.
  destruct (parseOldHumanReadable_parts
              [] "src/main.rs:3:5: 3:10 error: mismatched types")
    as [H|(e & d2 & d3 & d4 & d5 & b1 & b2 & b3 & H & _)].
  - vm_compute. reflexivity.
  - vm_compute in H. discriminate H.
  - rewrite H. discriminate.
Defined.

Example legacy_line :
  parseOldHumanReadable [] "src/main.rs:3:5: 3:10 error: mismatched types"
  = [ {| filename := "src/main.rs"; startLine := 3; startCharacter := 5;
         endLine := 3; endCharacter := 10; severity := "error";
         error_message := "mismatched types" |} ].
Proof. vm_compute. reflexivity. Qed.

End Old.

Section New.
Import NewStyle.

(** A block begins with its severity, which is its first group. *)
Lemma block_severity w caps :
  matches newErrorRegex w [] caps ->
  w <> EmptyString
  /\ exists sev, capture caps 1 = Some sev /\ sev ∈ OldStyle.severities.
Proof.
  unfold newErrorRegex. cbn [Regex.seq]. intros M.
  apply matches_seq_inv in M as (w1 & w2 & c1 & -> & M1 & M).
  apply matches_grp_inv in M1 as (? & [Hsev ->]%matches_severity & ->).
  split.
  - unfold OldStyle.severities in Hsev. destruct w1; [|done].
    repeat (apply elem_of_cons in Hsev as [Hsev|Hsev]; [done|]).
    by apply elem_of_nil in Hsev.
  - exists w1. split; [|done].
    apply matches_adds in M as (added & -> & F).
    rewrite capture_added; [simpl; done|].
    eapply Forall_impl; [done|]. intros [k s] Hk. simpl in *.
    intros ->. vm_compute in Hk.
    repeat (apply elem_of_cons in Hk as [Hk|Hk]; [done|]).
    by apply elem_of_nil in Hk.
Qed.

Lemma exec_block output i m i' :
  exec newErrorRegex output i = (Some m, i') ->
  i < i' /\ i' <= String.length output
  /\ exists sev, group m 1 = Some sev /\ sev ∈ OldStyle.severities.
Proof.
  intros H. apply exec_sound in H as (H1 & H2 & H3 & M).
  apply block_severity in M as (Hne & Hsev).
  split; [|done]. destruct (matched m); [done|]. simpl in H2. lia.
Qed.

(** The loop ends within the turns it is given. *)
Lemma scan_total turns output : forall i j errors,
  String.length output - i < turns ->
  exists outcome, scan turns output i j errors = Some outcome.
Proof.
  induction turns as [|turns IH]; intros i j errors Hi; [lia|].
  cbn [scan].
  destruct (exec newErrorRegex output i) as [[m|] i'] eqn:E;
    destruct (exec newErrorRange output j) as [[rg|] j']; simpl; eauto.
  apply exec_block in E as (H1 & H2 & _). apply IH. lia.
Qed.

Lemma blocks_from_severity turns output : forall i,
  Forall (fun m => exists sev, group m 1 = Some sev /\ sev ∈ OldStyle.severities)
         (blocks_from turns output i).
Proof.
  induction turns as [|turns IH]; intros i; cbn [blocks_from]; [done|].
  destruct (exec newErrorRegex output i) as [[m|] i'] eqn:E; [|done].
  constructor; [|apply IH]. by apply exec_block in E as (_ & _ & ?).
Qed.

Lemma in_step_typeerror ms : forall rgs errors,
  (exists errors', in_step errors ms rgs = Returned errors')
  <-> length ms <= length rgs.
Proof.
  induction ms as [|m ms IH]; intros rgs errors; simpl.
  - split; [lia|eauto].
  - destruct rgs as [|rg rgs]; simpl.
    + split; [by intros [? ?]|lia].
    + rewrite IH. lia.
Qed.

Lemma plain_blocks output :
  plain_output output = true ->
  Forall (fun m => forall rg, plain_error (error_of m rg)) (blocks output).
Proof.
  unfold plain_output. intros H. apply Forall_forall. intros m Hm rg.
  rewrite forallb_forall in H. apply list_elem_of_In in Hm.
  specialize (H m Hm). unfold plain_block in H.
  apply andb_true_iff in H as [H H3]. apply andb_true_iff in H as [H1 H2].
  apply negb_true_iff in H1.
  unfold plain_error, error_of. cbn [filename startLine startCharacter].
  split; [done|]. split; [done|].
  unfold exact in *. apply Z.leb_le in H3. apply Z.leb_le. lia.
Qed.

(** X2.  For an output whose blocks have file names that are no array
    index and numbers at most 2^53, also with the carets added: the loop
    over the blocks always ends.  It pairs the k-th block with the k-th
    caret line of the whole output; it returns when the output holds at
    least as many caret lines as blocks, and then the errors are those pairs
    in order, each on one line and with one of the four severities;
    otherwise it fails on [range[1]]. *)
Theorem parseNewHumanReadable_total (output : string) :
  plain_output output = true ->
  parseNewHumanReadable [] output
  = Some (in_step [] (blocks output) (carets output))
  /\ ((exists errors, parseNewHumanReadable [] output = Some (Returned errors))
      <-> length (blocks output) <= length (carets output))
  /\ (forall errors,
        parseNewHumanReadable [] output = Some (Returned errors) ->
        errors = zip_with error_of (blocks output) (carets output)
        /\ Forall (fun e => endLine e = startLine e
                             /\ severity e ∈ OldStyle.severities
                             /\ plain_error e) errors).
Proof.
  intros P.
  assert (H : parseNewHumanReadable [] output
              = Some (in_step [] (blocks output) (carets output))).
  { unfold parseNewHumanReadable.
    destruct (scan_total (S (String.length output)) output 0 0 []) as [o Ho]; [lia|].
    rewrite Ho. f_equal. by apply NewStyleFacts.scan_in_step in Ho. }
  split; [done|]. split.
  - rewrite H. rewrite <- (in_step_typeerror (blocks output) (carets output) []).
    split; intros [errors He]; exists errors; congruence.
  - intros errors He. rewrite H in He. injection He as He.
    apply NewStyleFacts.in_step_returned in He. simpl in He. split; [done|].
    subst errors. apply Forall_forall. intros e He.
    apply elem_of_lookup_zip_with in He as (i & m & rg & -> & Hm & _).
    split; [done|]. split.
    + unfold error_of. cbn [severity].
      pose proof (blocks_from_severity (S (String.length output)) output 0) as F.
      rewrite Forall_lookup in F. destruct (F i m Hm) as (sev & Hs & Hin).
      by rewrite Hs.
    + pose proof (plain_blocks output P) as F.
      rewrite Forall_lookup in F. exact (F i m Hm rg).
Qed.

Lemma parseNewHumanReadable_total_witness :
  exists errors,
    parseNewHumanReadable [] two_blocks = Some (Returned errors)
    /\ errors = zip_with error_of (blocks two_blocks) (carets two_blocks).
Proof.
  destruct (parseNewHumanReadable [] two_blocks) as [outcome|] eqn:E.
  - destruct outcome as [errors|].
    + exists errors. split; [reflexivity|].
      apply (parseNewHumanReadable_total two_blocks);
        [vm_compute; reflexivity|exact E].
    + vm_compute in E. discriminate E.
  - vm_compute in E. discriminate E.
Defined.

End New.

End HumanReadableFacts.

(** ** The arguments of a cargo run *)

Module CommandServiceFacts.
Import CommandService.

(** What [indexOf] answers: the place of the first [x], or -1 when there is
    none. *)
Lemma indexOf_spec x l :
  (indexOf x l = (-1)%Z /\ (x ∉ l))
  \/ exists before after,
      l = before ++ x :: after /\ (x ∉ before)
      /\ indexOf x l = Z.of_nat (length before).
Proof.
  induction l as [|y l IH]; simpl.
  - left. split; [done|]. apply not_elem_of_nil.
  - destruct (String.eqb y x) eqn:E.
    + apply String.eqb_eq in E as ->. right. exists [], l.
      split; [done|]. split; [apply not_elem_of_nil|done].
    + apply String.eqb_neq in E. destruct IH as [[-> Hn]|(b & a & -> & Hb & ->)].
      * left. simpl. split; [done|]. intros [?|?]%elem_of_cons; done.
      * right. exists (y :: b), a. split; [done|].
        split; [intros [?|?]%elem_of_cons; done|].
        destruct (Z.of_nat (length b) <? 0)%Z eqn:L; [apply Z.ltb_lt in L; lia|].
        simpl length. lia.
Qed.

(** X3.  Without configured features the arguments are left as they are.
    With features, [--features] and the features are put right before the
    first [--] of the arguments, or at their end when there is none: the
    arguments themselves keep their order and what follows the first [--]
    stays last. *)
Theorem addFeaturesToArgs_before_double_dash (featureArray args : list string) :
  addFeaturesToArgs [] args = args
  /\ (featureArray <> [] ->
      exists before after,
        args = before ++ after
        /\ ("--"%string ∉ before)
        /\ (after = [] \/ exists rest, after = "--"%string :: rest)
        /\ addFeaturesToArgs featureArray args
           = before ++ "--features"%string :: featureArray ++ after).
Proof.
  split; [done|]. intros Hf. unfold addFeaturesToArgs.
  destruct featureArray as [|f fs]; [done|]. cbn [length Nat.eqb].
  destruct (indexOf_spec "--" args) as [[-> Hn]|(b & a & -> & Hb & ->)].
  - exists args, []. simpl.
    split; [by rewrite app_nil_r|]. split; [done|]. split; [by left|].
    by rewrite app_nil_r.
  - exists b, ("--"%string :: a).
    destruct (0 <=? Z.of_nat (length b))%Z eqn:L; [|apply Z.leb_gt in L; lia].
    rewrite Nat2Z.id, take_app_length, drop_app_length.
    split; [done|]. split; [done|]. split; [right; eauto|done].
Qed.

Lemma addFeaturesToArgs_before_double_dash_witness :
  addFeaturesToArgs ["serde"; "nightly"]%string ["rustc"; "--lib"; "--"; "-Zno-trans"]%string
  = ["rustc"; "--lib"; "--features"; "serde"; "nightly"; "--"; "-Zno-trans"]%string
  /\ exists before after,
      ["rustc"; "--lib"; "--"; "-Zno-trans"]%string = before ++ after
      /\ addFeaturesToArgs ["serde"]%string ["rustc"; "--lib"; "--"; "-Zno-trans"]%string
         = before ++ "--features"%string :: ["serde"%string] ++ after.
Proof.
  split; [reflexivity|].
  destruct (proj2 (addFeaturesToArgs_before_double_dash ["serde"%string]
                     ["rustc"; "--lib"; "--"; "-Zno-trans"]%string))
    as (before & after & H1 & _ & _ & H2); [discriminate|].
  exists before, after. split; [exact H1 | exact H2].
Defined.

End CommandServiceFacts.
From Stdlib Require Import DecimalNat.

(** ** More on distinctDiagnostics and the publisher *)

Module DiagnosticFacts.
Import Vscode Distinct DistinctSpec.

#[local] Arguments String.append !_ _ / : simpl nomatch.

(** *** The key of a diagnostic tells its range and message *)

Lemma string_of_uint_colon_free d : colon_free (NilEmpty.string_of_uint d) = true.
Proof. induction d; simpl; done. Qed.

Lemma show_nat_inj a b : show_nat a = show_nat b -> a = b.
Proof.
  unfold show_nat. intros H. apply Unsigned.to_uint_inj.
  assert (Some (Nat.to_uint a) = Some (Nat.to_uint b)) as [= E]; [|done].
  by rewrite <- !NilEmpty.usu, H.
Qed.

Lemma colon_splits a : forall b x y,
  colon_free a = true -> colon_free b = true ->
  (a +:+ ":" +:+ x)%string = (b +:+ ":" +:+ y)%string -> a = b /\ x = y.
Proof.
  induction a as [|c a IH]; intros [|c' b] x y Ha Hb H; simpl in *.
  - by injection H as ->.
  - injection H as <- _. by rewrite Ascii.eqb_refl in Hb.
  - injection H as -> _. by rewrite Ascii.eqb_refl in Ha.
  - injection H as -> H. apply andb_true_iff in Ha as [_ Ha].
    apply andb_true_iff in Hb as [_ Hb].
    destruct (IH b x y Ha Hb H) as [-> ->]. done.
Qed.

Lemma key_inj a b : key a = key b -> same_record a b.
Proof.
  unfold key, show_nat. intros H.
  apply colon_splits in H as [H1 H]; try apply string_of_uint_colon_free.
  apply colon_splits in H as [H2 H]; try apply string_of_uint_colon_free.
  apply colon_splits in H as [H3 H]; try apply string_of_uint_colon_free.
  apply colon_splits in H as [H4 H]; try apply string_of_uint_colon_free.
  apply show_nat_inj in H1, H2, H3, H4.
  destruct a as [[[l1 c1] [l2 c2]] ma sa], b as [[[l1' c1'] [l2' c2']] mb sb].
  simpl in *. subst. done.
Qed.

Lemma key_same a b : key a = key b <-> same_record a b.
Proof. split; [apply key_inj|apply PublisherFacts.same_record_key]. Qed.

(** *** What distinctDiagnostics keeps *)

Lemma keyed_snoc l x : keyed (l ++ [x]) = map_set (key x) x (keyed l).
Proof. unfold keyed. by rewrite fold_left_app. Qed.

Lemma keyed_keys l : Forall (fun kv => kv.1 = key kv.2) (keyed l).
Proof.
  induction l as [|x l IH] using rev_ind; [constructor|].
  rewrite keyed_snoc. by apply PublisherFacts.map_set_keyed.
Qed.

Lemma keyed_NoDup l : NoDup (keyed l).*1.
Proof.
  by destruct (PublisherFacts.distinct_fold l [] (NoDup_nil_2) (Forall_nil_2 _)).
Qed.

Lemma map_set_elem {V} k (v : V) m k' d :
  NoDup m.*1 ->
  (k', d) ∈ map_set k v m <-> (k' = k /\ d = v) \/ (k' <> k /\ (k', d) ∈ m).
Proof.
  induction m as [|[k0 v0] m IH]; intros Hnd.
  - cbn [map_set]. rewrite list_elem_of_singleton. split.
    + intros [= -> ->]. by left.
    + intros [[-> ->]|[_ H]]; [done|]. by apply elem_of_nil in H.
  - cbn [fmap list_fmap fst] in Hnd. apply NoDup_cons in Hnd as [Hk0 Hnd].
    cbn [map_set]. destruct (String.eqb k k0) eqn:E.
    + apply String.eqb_eq in E as <-. rewrite !elem_of_cons. split.
      * intros [[= -> ->]|H]; [by left|]. right. split; [|by right].
        intros ->. apply Hk0. apply list_elem_of_fmap. by exists (k, d).
      * intros [[-> ->]|[Hne [[= ? ?]|H]]]; [by left|done|by right].
    + apply String.eqb_neq in E. rewrite !elem_of_cons, (IH Hnd). split.
      * intros [[= -> ->]|[H|[Hne H]]]; [|by left|].
        -- right. split; [congruence|by left].
        -- right. split; [done|by right].
      * intros [[-> ->]|[Hne [[= -> ->]|H]]]; [right; by left|by left|].
        right; right. done.
Qed.

(** An entry of the map is the last diagnostic with its key. *)
Lemma keyed_elem l : forall k d,
  (k, d) ∈ keyed l
  <-> k = key d
      /\ exists l1 l2, l = l1 ++ d :: l2 /\ Forall (fun d' => key d' <> key d) l2.
Proof.
  induction l as [|x l IH] using rev_ind; intros k d.
  - split; [by intros H%elem_of_nil|]. intros (_ & l1 & l2 & H & _). by destruct l1.
  - rewrite keyed_snoc, map_set_elem by apply keyed_NoDup. rewrite IH. split.
    + intros [[-> ->]|(Hne & -> & l1 & l2 & -> & F)].
      * split; [done|]. exists l, []. split; [done|constructor].
      * split; [done|]. exists l1, (l2 ++ [x]). rewrite <- app_assoc. split; [done|].
        apply Forall_app. split; [done|]. constructor; [congruence|constructor].
    + intros (-> & l1 & l2 & H & F).
      destruct l2 as [|y l2 _] using rev_ind.
      * apply app_inj_tail in H as [-> ->]. by left.
      * rewrite app_comm_cons, app_assoc in H. apply app_inj_tail in H as [-> ->].
        apply Forall_app in F as [F Fx]. apply Forall_cons in Fx as [Fx _].
        right. split; [by intros E; apply Fx|]. split; [done|]. eauto.
Qed.

Lemma map_set_fresh {V} k (v : V) m : k ∉ m.*1 -> map_set k v m = m ++ [(k, v)].
Proof.
  induction m as [|[k0 v0] m IH]; intros Hk; [done|].
  cbn [map_set]. cbn [fmap list_fmap fst] in Hk.
  apply not_elem_of_cons in Hk as [Hne Hk].
  destruct (String.eqb k k0) eqn:E; [by apply String.eqb_eq in E|].
  by rewrite IH.
Qed.

Lemma distinct_records_snoc l x :
  distinct_records (l ++ [x]) ->
  distinct_records l /\ Forall (fun d => key d <> key x) l.
Proof.
  intros H. split.
  - intros i j a b Hi Hj Hs. apply (H i j a b); [| |done]; by apply lookup_app_l_Some.
  - apply Forall_lookup. intros i d Hi Hk. apply key_inj in Hk.
    pose proof (lookup_lt_Some _ _ _ Hi) as Hlt.
    assert (i = length l); [|lia].
    apply (H i (length l) d x); [by apply lookup_app_l_Some| |done].
    by rewrite lookup_app_r, Nat.sub_diag by lia.
Qed.

Lemma keyed_distinct l :
  distinct_records l -> keyed l = (fun d => (key d, d)) <$> l.
Proof.
  induction l as [|x l IH] using rev_ind; intros H; [done|].
  apply distinct_records_snoc in H as [Hl Hx].
  rewrite keyed_snoc, (IH Hl), fmap_app. simpl. apply map_set_fresh.
  rewrite <- list_fmap_compose. intros (d & Hk & Hd)%list_elem_of_fmap. simpl in Hk.
  rewrite Forall_forall in Hx. by destruct (Hx d Hd).
Qed.

(** The last of the diagnostics that count as [d]. *)
Lemma last_same l d :
  d ∈ l ->
  exists l1 d' l2, l = l1 ++ d' :: l2 /\ key d' = key d
                   /\ Forall (fun x => key x <> key d') l2.
Proof.
  induction l as [|x l IH] using rev_ind; intros Hd; [by apply elem_of_nil in Hd|].
  destruct (decide (key x = key d)) as [E|E].
  - exists l, x, []. split; [done|]. split; [done|constructor].
  - apply elem_of_app in Hd as [Hd|Hd%list_elem_of_singleton]; [|congruence].
    destruct (IH Hd) as (l1 & d' & l2 & -> & Hk & F).
    exists l1, d', (l2 ++ [x]). rewrite <- app_assoc. split; [done|]. split; [done|].
    apply Forall_app. split; [done|]. constructor; [congruence|constructor].
Qed.

(** X4.  Of the diagnostics with equal range and message, distinctDiagnostics
    keeps the one reported last: a diagnostic is kept exactly when none
    after it counts the same; every diagnostic has one that counts the same
    among those kept; a list without such pairs is returned as it is, so
    applying the function twice changes nothing more. *)
Theorem distinctDiagnostics_keeps_last (diags : list Diagnostic) :
  (forall d,
      d ∈ distinctDiagnostics diags
      <-> exists l1 l2, diags = l1 ++ d :: l2
                        /\ Forall (fun d' => ~ same_record d' d) l2)
  /\ (forall d, d ∈ diags ->
                exists d', d' ∈ distinctDiagnostics diags /\ same_record d' d)
  /\ (distinct_records diags -> distinctDiagnostics diags = diags)
  /\ distinctDiagnostics (distinctDiagnostics diags) = distinctDiagnostics diags.
Proof.
  assert (Hkept : forall l d,
             d ∈ distinctDiagnostics l
             <-> exists l1 l2, l = l1 ++ d :: l2
                               /\ Forall (fun d' => key d' <> key d) l2).
  { intros l d. unfold distinctDiagnostics, map_values. fold (keyed l).
    rewrite list_elem_of_fmap. split.
    - intros ([k d'] & -> & H). by apply keyed_elem in H as [_ H].
    - intros H. exists (key d, d). split; [done|]. by apply keyed_elem. }
  assert (Hfix : forall l, distinct_records l -> distinctDiagnostics l = l).
  { intros l H. unfold distinctDiagnostics, map_values. fold (keyed l).
    rewrite (keyed_distinct l H), <- list_fmap_compose. apply list_fmap_id. }
  split.
  { intros d. rewrite Hkept. split; intros (l1 & l2 & -> & F); exists l1, l2;
      (split; [done|]); eapply Forall_impl; try done; simpl; intros d' H;
      by rewrite ?key_same, <- ?key_same in *. }
  split.
  { intros d Hd. destruct (last_same diags d Hd) as (l1 & d' & l2 & -> & Hk & F).
    exists d'. split; [|by apply key_inj]. apply Hkept. eauto. }
  split; [apply Hfix|]. apply Hfix, PublisherFacts.distinctDiagnostics_distinct.
Qed.

Lemma distinctDiagnostics_keeps_last_witness :
  let e := DiagnosticPublisher.diagnostic DiagnosticPublisher.sample_error in
  let w := DiagnosticPublisher.diagnostic DiagnosticPublisher.sample_warning in
  distinctDiagnostics [e; w] = [w]
  /\ exists d', d' ∈ distinctDiagnostics [e; w] /\ same_record d' e.
Proof.
  intros e w. split; [reflexivity|].
  apply (proj1 (proj2 (distinctDiagnostics_keeps_last [e; w])) e).
  apply list_elem_of_here.
Defined.

(** *** What the publisher keeps *)

Section Publisher.
Import DiagnosticPublisher PublisherSpec.
Variable isAbsolute : string -> bool.
Variable join : string -> string -> string.
Variable Uri_file : string -> string.

Local Abbreviation publish := (publishDiagnostic isAbsolute join Uri_file).
Local Abbreviation uri_of := (uri_of isAbsolute join Uri_file).
Local Abbreviation call := (call isAbsolute join Uri_file).
Local Abbreviation published := (published isAbsolute join Uri_file).

Lemma publish_other fd cwd (coll : gmap string (list Diagnostic)) uri :
  uri <> uri_of fd cwd -> publish fd cwd coll !! uri = coll !! uri.
Proof.
  intros Hne. unfold publishDiagnostic. fold (uri_of fd cwd).
  destruct (coll !! uri_of fd cwd) as [ds|].
  - destruct (isUniqueDiagnostic _ ds); [|done]. by rewrite lookup_insert_ne.
  - by rewrite lookup_insert_ne.
Qed.

Lemma publish_grows fd cwd (coll : gmap string (list Diagnostic)) uri ds :
  coll !! uri = Some ds ->
  exists ds', publish fd cwd coll !! uri = Some (ds ++ ds') /\ length ds' <= 1.
Proof.
  intros H. destruct (decide (uri = uri_of fd cwd)) as [->|Hne].
  - unfold publishDiagnostic. fold (uri_of fd cwd). rewrite H.
    destruct (isUniqueDiagnostic _ ds).
    + exists [diagnostic fd]. rewrite lookup_insert_eq. split; [done|simpl; lia].
    + exists []. rewrite app_nil_r. split; [done|simpl; lia].
  - exists []. rewrite app_nil_r, publish_other by done. split; [done|simpl; lia].
Qed.

Lemma publishes_grow calls : forall (coll : gmap string (list Diagnostic)) uri ds,
  forallb is_publish calls = true ->
  coll !! uri = Some ds ->
  exists ds', fold_left call calls coll !! uri = Some (ds ++ ds').
Proof.
  induction calls as [|c calls IH]; intros coll uri ds Hp H.
  - exists []. by rewrite app_nil_r.
  - simpl in Hp. apply andb_true_iff in Hp as [Hc Hp].
    destruct c as [fd cwd|]; [|done]. simpl.
    destruct (publish_grows fd cwd coll uri ds H) as (ds1 & H1 & _).
    destruct (IH _ uri _ Hp H1) as (ds2 & H2).
    exists (ds1 ++ ds2). by rewrite app_assoc.
Qed.

(** X5.  Publishing never removes or reorders what a file holds: after any
    publish calls the list a file held is a prefix of the list it holds,
    one call adds at most one record at the end and leaves the other files
    as they are; only [clearDiagnostics] removes, and it removes
    everything. *)
Theorem publish_keeps_records (coll : gmap string (list Diagnostic)) :
  (forall calls uri ds,
      forallb is_publish calls = true -> coll !! uri = Some ds ->
      exists ds', fold_left call calls coll !! uri = Some (ds ++ ds'))
  /\ (forall fd cwd uri ds,
        coll !! uri = Some ds ->
        exists ds', publish fd cwd coll !! uri = Some (ds ++ ds') /\ length ds' <= 1)
  /\ (forall fd cwd uri,
        uri <> uri_of fd cwd -> publish fd cwd coll !! uri = coll !! uri)
  /\ (forall calls fd cwd,
        fold_left call (calls ++ [Clear; Publish fd cwd]) coll
        = {[ uri_of fd cwd := [diagnostic fd] ]}).
Proof.
  split; [intros; by eapply publishes_grow|].
  split; [intros; by eapply publish_grows|].
  split; [intros; by apply publish_other|].
  intros calls fd cwd. rewrite fold_left_app. simpl.
  unfold clearDiagnostics, publishDiagnostic. fold (uri_of fd cwd).
  rewrite lookup_empty. apply insert_empty.
Qed.

(** X6.  What a file holds was published for that file, and no file holds an
    empty list; a diagnostic published after the last clear is held by its
    file, itself or an earlier one with the same range and message. *)
Theorem published_is_stored (calls : list Call) :
  (forall uri ds,
      published calls !! uri = Some ds ->
      ds <> []
      /\ forall d, d ∈ ds ->
                   exists fd cwd, Publish fd cwd ∈ calls
                                  /\ uri_of fd cwd = uri /\ diagnostic fd = d)
  /\ (forall before fd cwd after,
        calls = before ++ Publish fd cwd :: after ->
        forallb is_publish after = true ->
        exists ds u, published calls !! uri_of fd cwd = Some ds
                     /\ u ∈ ds /\ same_record u (diagnostic fd)).
Proof.
  split.
  - induction calls as [|c calls IH] using rev_ind; intros uri ds H.
    { unfold DiagnosticPublisher.published in H. simpl in H.
      by rewrite lookup_empty in H. }
    unfold DiagnosticPublisher.published in *. rewrite fold_left_app in H. simpl in H.
    set (coll := fold_left call calls ∅) in *.
    assert (Hold : forall ds0, coll !! uri = Some ds0 ->
                     ds0 <> []
                     /\ forall d, d ∈ ds0 ->
                         exists fd cwd, Publish fd cwd ∈ calls ++ [c]
                                        /\ uri_of fd cwd = uri /\ diagnostic fd = d).
    { intros ds0 H0. destruct (IH uri ds0 H0) as [Hne Hds]. split; [done|].
      intros d Hd. destruct (Hds d Hd) as (fd & cwd & Hin & Hu & Hdd).
      exists fd, cwd. split; [|done]. apply elem_of_app. by left. }
    destruct c as [fd cwd|]; simpl in H.
    + destruct (decide (uri = uri_of fd cwd)) as [->|Hne].
      * assert (Hnew : forall d, d = diagnostic fd ->
                         exists fd0 cwd0, Publish fd0 cwd0 ∈ calls ++ [Publish fd cwd]
                                          /\ uri_of fd0 cwd0 = uri_of fd cwd
                                          /\ diagnostic fd0 = d).
        { intros d ->. exists fd, cwd. split; [|done].
          apply elem_of_app. right. by apply list_elem_of_singleton. }
        unfold publishDiagnostic in H. fold (uri_of fd cwd) in H.
        destruct (coll !! uri_of fd cwd) as [ds0|] eqn:E.
        -- destruct (Hold ds0 eq_refl) as [Hne0 Hds0].
           destruct (isUniqueDiagnostic _ ds0).
           ++ rewrite lookup_insert_eq in H. injection H as <-.
              split; [by destruct ds0|]. intros d [Hd|Hd%list_elem_of_singleton]%elem_of_app;
                [by apply Hds0|by apply Hnew].
           ++ rewrite E in H. injection H as <-. done.
        -- rewrite lookup_insert_eq in H. injection H as <-. split; [done|].
           intros d Hd%list_elem_of_singleton. by apply Hnew.
      * rewrite publish_other in H by done. by apply Hold.
    + unfold clearDiagnostics in H. by rewrite lookup_empty in H.
  - intros before fd cwd after -> Hp.
    unfold DiagnosticPublisher.published.
    rewrite fold_left_app. simpl.
    destruct (PublisherFacts.publish_stored isAbsolute join Uri_file fd cwd
                (fold_left call before ∅)) as (ds & u & Hl & Hin & Hs).
    destruct (publishes_grow after _ _ _ Hp Hl) as (ds' & H).
    exists (ds ++ ds'), u. split; [done|]. split; [|done].
    apply elem_of_app. by left.
Qed.

End Publisher.

Lemma published_is_stored_witness :
  exists ds u,
    DiagnosticPublisher.published DiagnosticPublisher.posix_isAbsolute
      DiagnosticPublisher.posix_join id
      [DiagnosticPublisher.Clear;
       DiagnosticPublisher.Publish DiagnosticPublisher.sample_error "/w";
       DiagnosticPublisher.Publish DiagnosticPublisher.sample_warning "/w"]
    !! "/w/src/main.rs" = Some ds
    /\ u ∈ ds
    /\ same_record u (DiagnosticPublisher.diagnostic DiagnosticPublisher.sample_warning).
Proof.
  exact (proj2 (published_is_stored DiagnosticPublisher.posix_isAbsolute
                  DiagnosticPublisher.posix_join id _)
               [DiagnosticPublisher.Clear;
                DiagnosticPublisher.Publish DiagnosticPublisher.sample_error "/w"]
               DiagnosticPublisher.sample_warning "/w" [] eq_refl eq_refl).
Defined.

Lemma publish_keeps_records_witness :
  exists ds',
    fold_left (DiagnosticPublisher.call DiagnosticPublisher.posix_isAbsolute
                 DiagnosticPublisher.posix_join id)
              [DiagnosticPublisher.Publish DiagnosticPublisher.sample_warning "/w"]
              {[ "/w/src/main.rs" := [DiagnosticPublisher.diagnostic
                                        DiagnosticPublisher.sample_error] ]}
    !! "/w/src/main.rs"
    = Some ([DiagnosticPublisher.diagnostic DiagnosticPublisher.sample_error] ++ ds').
Proof.
  apply (proj1 (publish_keeps_records DiagnosticPublisher.posix_isAbsolute
                  DiagnosticPublisher.posix_join id _)); [reflexivity|].
  apply lookup_singleton_eq.
Defined.

End DiagnosticFacts.

(** ** More on CargoTask *)

Module CargoTaskMore.
Import CargoTask CargoTaskFacts.

(** A task that is interrupted, or has no process, sends nothing more. *)
Lemma quiet_deliver t ev :
  interrupted t = true \/ process t = None ->
  interrupted (deliver t ev) = true \/ process (deliver t ev) = None.
Proof.
  intros [H|H].
  - left. by apply interrupted_deliver.
  - right. destruct ev as [|e|c]; simpl; rewrite ?process_kill, ?H; done.
Qed.

Lemma quiet_sent evs : forall t,
  interrupted t = true \/ process t = None -> sent t evs = [].
Proof.
  induction evs as [|ev evs IH]; intros t H; [done|].
  cbn [sent]. rewrite (IH _ (quiet_deliver t ev H)), app_nil_r.
  destruct ev as [|e|c]; try done.
  unfold kill. destruct H as [-> | ->]; [done|]. by destruct (interrupted t).
Qed.

Lemma quiet_run evs : forall t,
  interrupted t = true \/ process t = None ->
  interrupted (run t evs) = true \/ process (run t evs) = None.
Proof.
  induction evs as [|ev evs IH]; intros t H; [done|].
  simpl. apply IH. by apply quiet_deliver.
Qed.

Lemma sent_app evs1 evs2 t :
  sent t (evs1 ++ evs2) = sent t evs1 ++ sent (run t evs1) evs2.
Proof.
  revert t. induction evs1 as [|ev evs1 IH]; intros t; [done|].
  cbn [app sent]. rewrite IH, <- app_assoc. done.
Qed.

(** X7.  In its whole life a task sends at most one signal, SIGINT to the
    process it spawned, whatever the order of the calls and events; once the
    exit event was delivered, no call of [kill] sends anything. *)
Theorem one_signal_at_most (kills : nat) (child : ChildProcess) (evs : list Event) :
  let t := execute child (Nat.iter kills (fun t => task_after (kill t)) new_task) in
  (sent t evs = [] \/ sent t evs = [TreeKill (pid child) "SIGINT"])
  /\ (forall code later, sent (run t (evs ++ [EvExit code])) later = []).
Proof.
  intros t. subst t. rewrite kill_before_execute. split.
  - assert (H : forall t,
               process t = Some child ->
               sent t evs = [] \/ sent t evs = [TreeKill (pid child) "SIGINT"]).
    { induction evs as [|ev evs IH]; intros t Hp; [by left|].
      cbn [sent]. destruct (interrupted t) eqn:Hi.
      { left. apply (quiet_sent (ev :: evs)). by left. }
      destruct ev as [|e|c].
      - right. rewrite quiet_sent.
        + unfold kill. by rewrite Hi, Hp.
        + left. apply interrupted_kill. by rewrite Hp.
      - cbn [deliver app]. rewrite Hp. by apply IH.
      - left. cbn [deliver app]. rewrite Hp. apply quiet_sent. by right. }
    by apply H.
  - intros code later. apply quiet_sent. rewrite run_app. simpl.
    destruct (process (run (execute child new_task) evs)) eqn:E; by right.
Qed.

(** A promise that is settled stays as it is. *)
Lemma settled_run evs : forall t,
  promise t <> Pending -> promise t <> NotCreated ->
  promise (run t evs) = promise t.
Proof.
  induction evs as [|ev evs IH]; intros t H1 H2; [done|].
  simpl.
  assert (E : promise (deliver t ev) = promise t).
  { destruct ev as [|e|c]; simpl.
    - apply promise_kill.
    - destruct (process t); [|done]. simpl. by destruct (promise t).
    - destruct (process t); [|done]. simpl. by destruct (promise t). }
  rewrite IH; rewrite E; done.
Qed.

Lemma kills_then child n :
  let t := run (execute child new_task) (replicate n EvKill) in
  process t = Some child /\ promise t = Pending /\ interrupted t = (0 <? n).
Proof.
  induction n as [|n IH] using nat_ind; [done|].
  replace (replicate (S n) EvKill) with (replicate n EvKill ++ [EvKill])
    by (rewrite <- replicate_S_end; done).
  simpl. rewrite run_app. simpl in *.
  destruct IH as (Hp & Hq & Hi).
  rewrite process_kill, promise_kill. split; [done|]. split; [done|].
  apply interrupted_kill. by rewrite Hp.
Qed.

(** X8.  The promise of [execute] is settled by the first error or exit
    event and never changes afterwards: an error event before any exit
    rejects it with that error; an exit event before any error resolves it
    with the exit code when [kill] was not called since the spawn, and
    rejects it with no error when it was; calls of [kill] before the spawn
    play no part. *)
Theorem first_event_settles (kills : nat) (child : ChildProcess) (n : nat)
        (later : list Event) (error : string) (code : ExitCode) :
  promise (lifecycle kills child (replicate n EvKill)) = Pending
  /\ promise (lifecycle kills child (replicate n EvKill ++ EvError error :: later))
     = Rejected (Some error)
  /\ promise (lifecycle kills child (replicate n EvKill ++ EvExit code :: later))
     = (if n =? 0 then Resolved code else Rejected None).
Proof.
  unfold lifecycle. rewrite kill_before_execute.
  destruct (kills_then child n) as (Hp & Hq & Hi). simpl in *.
  split; [done|]. split.
  - rewrite run_app. simpl. rewrite Hp. rewrite settled_run; simpl; rewrite Hq; done.
  - rewrite run_app. simpl. rewrite Hp. rewrite settled_run; simpl; rewrite Hq, Hi;
      by destruct n.
Qed.

End CargoTaskMore.

(** ** More on the completion manager *)

Module CompletionManagerMore.
Import Text CompletionManager.

(** One turn of the loop invokes at most the callback at the front of the
    queue, and removes exactly what it invokes. *)
Lemma handleLine_front st line :
  exists called,
    invoked (handleLine st line) = invoked st ++ called
    /\ commandCallbacks st = called.*1 ++ commandCallbacks (handleLine st line)
    /\ racerDaemon (handleLine st line) = racerDaemon st.
Proof.
  unfold handleLine.
  destruct (String.length line =? 0); [exists []; by rewrite app_nil_r|].
  destruct (startsWith "END" line).
  - destruct (commandCallbacks st) as [|callback rest] eqn:E.
    + exists []. simpl. by rewrite app_nil_r.
    + by exists [(callback, linesBuffer st)].
  - exists []. simpl. by rewrite app_nil_r.
Qed.

Lemma loop_front lines : forall st,
  exists called,
    invoked (fold_left handleLine lines st) = invoked st ++ called
    /\ commandCallbacks st
       = called.*1 ++ commandCallbacks (fold_left handleLine lines st)
    /\ racerDaemon (fold_left handleLine lines st) = racerDaemon st.
Proof.
  induction lines as [|line lines IH]; intros st.
  - exists []. simpl. by rewrite app_nil_r.
  - simpl. destruct (IH (handleLine st line)) as (c2 & I2 & Q2 & D2).
    destruct (handleLine_front st line) as (c1 & I1 & Q1 & D1).
    exists (c1 ++ c2). rewrite I2, I1, Q1, Q2, D2, D1, fmap_app, !app_assoc. done.
Qed.

Section Daemon.
Context {Buffer : Type} (toString : Buffer -> string).

Local Abbreviation dataHandler := (dataHandler toString).
Local Abbreviation step := (step toString).
Local Abbreviation run := (run toString).

(** X9.  Whatever the daemon sends, one call of [dataHandler] invokes
    exactly the callbacks it removes from the front of the queue, each once
    and in queue order, and keeps the earlier invocations; with an empty
    queue it invokes nothing.  So after any requests and output each
    callback handed to [runCommand] was either invoked once, in the order of
    the requests, or is still waiting. *)
Theorem callbacks_invoked_or_waiting :
  (forall data st,
      exists called,
        invoked (dataHandler data st) = invoked st ++ called
        /\ commandCallbacks st = called.*1 ++ commandCallbacks (dataHandler data st)
        /\ (commandCallbacks st = [] -> called = []))
  /\ (forall evs,
         (invoked (run started evs)).*1 ++ commandCallbacks (run started evs)
         = issued evs).
Proof.
  assert (Hdata : forall data st,
      exists called,
        invoked (dataHandler data st) = invoked st ++ called
        /\ commandCallbacks st = called.*1 ++ commandCallbacks (dataHandler data st)
        /\ racerDaemon (dataHandler data st) = racerDaemon st).
  { intros data st. unfold CompletionManager.dataHandler. cbv zeta.
    destruct (reassemble (dataBuffer st) (toString data)) as [buffer lines].
    apply (loop_front lines (set_dataBuffer buffer st)). }
  split.
  - intros dataStr st. destruct (Hdata dataStr st) as (called & I & Q & _).
    exists called. split; [done|]. split; [done|].
    intros E. rewrite E in Q. symmetry in Q. apply app_eq_nil in Q as [Q _].
    by apply fmap_nil_inv in Q.
  - intros evs.
    assert (H : forall st,
               racerDaemon st = true ->
               (invoked (run st evs)).*1 ++ commandCallbacks (run st evs)
               = (invoked st).*1 ++ commandCallbacks st ++ issued evs).
    { induction evs as [|ev evs IH]; intros st D.
      - simpl. by rewrite app_nil_r.
      - cbn [CompletionManager.run fold_left].
        change (fold_left step evs ?s) with (run s evs).
        destruct ev as [callback command args|dataStr];
          cbn [CompletionManager.step issued].
        + unfold runCommand. rewrite D. cbn [negb fst].
          rewrite IH by done. simpl. by rewrite <- app_assoc.
        + destruct (Hdata dataStr st) as (called & I & Q & D').
          rewrite IH by congruence.
          rewrite I, Q, fmap_app, <- !app_assoc. done. }
    by rewrite H.
Qed.

End Daemon.

Lemma callbacks_invoked_or_waiting_witness :
  invoked (dataHandler ascii_toString ("END" +:+ nl) started) = [].
Proof.
  destruct (proj1 (callbacks_invoked_or_waiting ascii_toString)
                  ("END" +:+ nl)%string started)
    as (called & I & _ & E).
  rewrite I, (E eq_refl). reflexivity.
Defined.

(** X10.  A stopped manager rejects every request without queueing it or
    writing to the daemon; [stop] answers the waiting callbacks but leaves
    them in the queue, which only [start] empties, so a second [stop]
    invokes each of them once more; a restart with a path that is not empty
    discards the queue and the lines read so far. *)
Theorem stopped_manager (st : State) :
  (forall callback command args,
      runCommand callback command args (stop st) = (stop st, false))
  /\ commandCallbacks (stop st) = commandCallbacks st
  /\ invoked (stop (stop st))
     = invoked st ++ map (fun callback => (callback, [])) (commandCallbacks st)
                  ++ map (fun callback => (callback, [])) (commandCallbacks st)
  /\ (forall pathToRacer,
         pathToRacer <> EmptyString ->
         let st' := restart (Some pathToRacer) st in
         racerDaemon st' = true /\ commandCallbacks st' = []
         /\ linesBuffer st' = [] /\ dataBuffer st' = EmptyString
         /\ invoked st' = invoked (stop st)).
Proof.
  assert (D : racerDaemon (stop st) = false).
  { unfold stop, stopDaemon. by destruct (racerDaemon st) eqn:E. }
  assert (Q : forall s, commandCallbacks (stop s) = commandCallbacks s).
  { intros s. unfold stop, stopDaemon. by destruct (racerDaemon s). }
  assert (I : forall s, invoked (stop s)
                = invoked s ++ map (fun callback => (callback, [])) (commandCallbacks s)).
  { intros s. unfold stop, stopDaemon. by destruct (racerDaemon s). }
  split; [|split; [|split]].
  - intros callback command args. unfold runCommand. by rewrite D.
  - apply Q.
  - by rewrite !I, Q, <- app_assoc.
  - intros pathToRacer N. unfold restart.
    apply String.eqb_neq in N. rewrite N. done.
Qed.

Lemma stopped_manager_witness :
  commandCallbacks
    (restart (Some "racer"%string) (runCommand 1 "complete" [] started).1) = [].
Proof.
  apply (stopped_manager (runCommand 1 "complete" [] started).1 ).
  discriminate.
Defined.

End CompletionManagerMore.

(** ** Signature help: the parameters of a definition and of a call *)

Module SignatureHelpFacts.
Import Text SignatureHelp.

#[local] Arguments String.append !_ _ / : simpl nomatch.

Lemma drop_string_app (a s : string) :
  Regex.drop_string (String.length a) (a +:+ s) = s.
Proof. induction a as [|c a IH]; simpl; [by destruct s|done]. Qed.

(** A flat parameter is read as it is. *)
Lemma flat_read (p : string) : forall rest i ps cur start,
  flat p = true ->
  parameters_from (p +:+ rest) i ps cur 1 start
  = parameters_from rest (i + Z.of_nat (String.length p)) ps (cur +:+ p) 1 start.
Proof.
  induction p as [|c p IH]; intros rest i ps cur start F.
  - simpl. rewrite Z.add_0_r, RegexFacts.string_app_nil_r. done.
  - cbn [flat] in F. apply andb_true_iff in F as [F Fp].
    apply andb_true_iff in F as [F F3]. apply andb_true_iff in F as [F1 F2].
    apply negb_true_iff in F1, F2, F3.
    cbn [append parameters_from]. rewrite F1, F2, F3. cbn [Z.eqb].
    rewrite andb_false_r, IH by done. unfold chr. rewrite RegexFacts.string_app_assoc.
    cbn [append String.length].
    replace (i + 1 + Z.of_nat (String.length p))%Z
      with (i + Z.of_nat (S (String.length p)))%Z by lia.
    done.
Qed.

Lemma flat_list_read (after : string) (l : list string) : forall p i ps start,
  Forall (fun p => flat p = true) (p :: l) ->
  parameters_from (join_with "," (p :: l) +:+ ")" +:+ after) i ps EmptyString 1 start
  = (ps ++ p :: l, start, (i + Z.of_nat (String.length (join_with "," (p :: l))))%Z).
Proof.
  induction l as [|q l IH]; intros p i ps start F.
  - apply Forall_cons in F as [Fp _]. cbn [join_with].
    rewrite flat_read by done. done.
  - apply Forall_cons in F as [Fp F].
    change (join_with "," (p :: q :: l))
      with (p +:+ "," +:+ join_with "," (q :: l))%string.
    rewrite !RegexFacts.string_app_assoc, flat_read by done.
    pose proof (IH q (i + Z.of_nat (String.length p) + 1)%Z (ps ++ [p]) start F) as R.
    remember (join_with "," (q :: l)) as J eqn:EJ. clear EJ.
    cbn [append]. cbn [parameters_from]. cbn [append] in R. cbn.
    rewrite R, <- app_assoc. cbn [app].
    rewrite !RegexFacts.string_app_length. cbn [String.length].
    f_equal. lia.
Qed.

(** X11.  Parameters that hold no parenthesis and no comma are read back as
    they were written: for the text of a definition whose parameter list is
    the parameters joined by commas, read from the end of the name,
    [parseParameters] returns these parameters and the offsets of the two
    parentheses; an empty list is read as one empty parameter.  What
    follows the closing parenthesis plays no part. *)
Theorem parseParameters_flat (name after : string) (params : list string) :
  Forall (fun p => flat p = true) params ->
  parseParameters (name +:+ "(" +:+ join_with "," params +:+ ")" +:+ after)
                  (String.length name)
  = (match params with [] => [EmptyString] | _ => params end,
     Z.of_nat (String.length name),
     Z.of_nat (String.length name + 1 + String.length (join_with "," params))).
Proof.
  intros F. unfold parseParameters. rewrite drop_string_app.
  destruct params as [|p l].
  - cbn. repeat f_equal. lia.
  - pose proof (flat_list_read after l p (Z.of_nat (String.length name) + 1)%Z
                               [] (Z.of_nat (String.length name)) F) as R.
    remember (join_with "," (p :: l)) as J eqn:EJ. clear EJ.
    cbn [append]. cbn [parameters_from]. cbn [append] in R. cbn.
    change (0 + 1)%Z with 1%Z. rewrite R. cbn [app]. repeat f_equal. lia.
Qed.

Lemma parseParameters_flat_witness :
  parseParameters "fn add(a: i32, b: u8) -> i32 {" 6
  = (["a: i32"; " b: u8"], 6%Z, 20%Z).
Proof.
  apply (parseParameters_flat "fn add" " -> i32 {" ["a: i32"; " b: u8"]).
  repeat constructor.
Defined.

(** *** What [parseParameters] returns for any text *)

Lemma occurs_app c (a b : string) :
  occurs c (a +:+ b) = occurs c a || occurs c b.
Proof. induction a as [|x a IH]; simpl; [done|]. by rewrite IH, orb_assoc. Qed.

Lemma drop_string_cons n : forall text c rest,
  Regex.drop_string n text = String c rest ->
  String.get n text = Some c /\ Regex.drop_string (S n) text = rest
  /\ n < String.length text.
Proof.
  induction n as [|n IH]; intros text c rest H.
  - destruct text as [|x text]; simpl in H; [done|].
    injection H as -> ->. simpl. split; [done|]. split; [by destruct rest|lia].
  - destruct text as [|x text]; simpl in H; [done|].
    apply IH in H as (G & D & L). simpl. split; [done|]. split; [done|lia].
Qed.

Lemma shape_from (text : string) (startingPosition : nat) (rest : string) :
  forall n ps cur depth pstart,
    Regex.drop_string n text = rest ->
    startingPosition <= n ->
    Forall no_parenthesis ps -> no_parenthesis cur ->
    ((1 <= depth)%Z ->
     (Z.of_nat startingPosition <= pstart < Z.of_nat n)%Z
     /\ String.get (Z.to_nat pstart) text = Some "("%char) ->
    shape text startingPosition
          (parameters_from rest (Z.of_nat n) ps cur depth pstart).
Proof.
  induction rest as [|c rest IH]; intros n ps cur depth pstart D L Fps Fcur Hd.
  - simpl. split; [by destruct ps|]. split; [|done].
    apply Forall_app. split; [done|by apply Forall_singleton].
  - apply drop_string_cons in D as (G & D & Ln).
    cbn [parameters_from].
    replace (Z.of_nat n + 1)%Z with (Z.of_nat (S n)) by lia.
    destruct (Ascii.eqb c "(") eqn:E1.
    { apply Ascii.eqb_eq in E1 as ->.
      apply IH; [done|lia|done|done|]. intros Hd'.
      destruct (depth =? 0)%Z eqn:E0.
      - rewrite Nat2Z.id. split; [lia|done].
      - apply Z.eqb_neq in E0. destruct Hd as [Hd1 Hd2]; [lia|]. split; [lia|done]. }
    destruct (Ascii.eqb c ")") eqn:E2.
    { apply Ascii.eqb_eq in E2 as ->.
      destruct (depth - 1 =? 0)%Z eqn:E0.
      - apply Z.eqb_eq in E0. destruct Hd as [Hd1 Hd2]; [lia|].
        split; [by destruct ps|]. split.
        + apply Forall_app. split; [done|by apply Forall_singleton].
        + intros _. rewrite Nat2Z.id. split; [lia|]. split; [lia|done].
      - apply Z.eqb_neq in E0. apply IH; [done|lia|done|done|].
        intros Hd'. destruct Hd as [Hd1 Hd2]; [lia|]. split; [lia|done]. }
    assert (Hd' : (1 <= depth)%Z ->
                  (Z.of_nat startingPosition <= pstart < Z.of_nat (S n))%Z
                  /\ String.get (Z.to_nat pstart) text = Some "("%char).
    { intros H1. destruct (Hd H1) as [Hd1 Hd2]. split; [lia|done]. }
    destruct (depth =? 0)%Z; [apply IH; done || lia|].
    destruct ((depth =? 1)%Z && Ascii.eqb c ",").
    + apply IH; [done|lia| |done|done].
      apply Forall_app. split; [done|by apply Forall_singleton].
    + apply IH; [done|lia|done| |done].
      destruct Fcur as [F1 F2]. split; rewrite occurs_app; unfold chr; cbn [occurs].
      * rewrite F1, Ascii.eqb_sym, E1. done.
      * rewrite F2, Ascii.eqb_sym, E2. done.
Qed.

(** X12.  For any text and starting position, [parseParameters] returns at
    least one parameter and no parameter holds a parenthesis (those of a
    nested type are dropped); when it reports where the list ends, the
    offsets are those of an opening and of a closing parenthesis of the text,
    in this order and not before the starting position. *)
Theorem parseParameters_shape (text : string) (startingPosition : nat) :
  let '(parameters, parameterStart, parameterEnd) :=
    parseParameters text startingPosition in
  parameters <> []
  /\ Forall (fun p => occurs "(" p = false /\ occurs ")" p = false) parameters
  /\ (parameterEnd <> (-1)%Z ->
      (Z.of_nat startingPosition <= parameterStart < parameterEnd)%Z
      /\ (parameterEnd < Z.of_nat (String.length text))%Z
      /\ String.get (Z.to_nat parameterStart) text = Some "("%char
      /\ String.get (Z.to_nat parameterEnd) text = Some ")"%char).
Proof.
  apply (shape_from text startingPosition _ startingPosition [] EmptyString 0%Z (-1)%Z);
    [done|lia|done|done|lia].
Qed.

Lemma parseParameters_shape_witness :
  (parseParameters "fn add(a: i32, b: (u8, u8)) -> i32 {" 6).1.1
  = ["a: i32"; " b: u8, u8"]
  /\ String.get 26 "fn add(a: i32, b: (u8, u8)) -> i32 {" = Some ")"%char.
Proof.
  split; [reflexivity|].
  pose proof (parseParameters_shape "fn add(a: i32, b: (u8, u8)) -> i32 {" 6) as H.
  vm_compute in H. destruct H as (_ & _ & H).
  destruct H as (_ & _ & _ & H); [discriminate|]. exact H.
Defined.

(** *** The parenthesis that encloses the cursor *)

Lemma substring_empty n m : substring n m EmptyString = EmptyString.
Proof. by destruct n, m. Qed.

Lemma substring_none n : forall text, substring n 0 text = EmptyString.
Proof.
  induction n as [|n IH]; intros text; destruct text as [|c text]; simpl; done.
Qed.

Lemma closing_step (text : string) : forall j m,
  closing (substring j (S m) text)
  = (delta (String.get j text) + closing (substring (S j) m text))%Z.
Proof.
  induction text as [|c text IH]; intros j m.
  - rewrite !substring_empty. by destruct j.
  - destruct j as [|j].
    + cbn [substring String.get closing]. unfold delta.
      destruct (Ascii.eqb c ")") eqn:E1.
      { apply Ascii.eqb_eq in E1 as ->. done. }
      destruct (Ascii.eqb c "(") eqn:E2.
      { apply Ascii.eqb_eq in E2 as ->. done. }
      apply Ascii.eqb_neq in E1, E2.
      rewrite !bool_decide_eq_false_2 by congruence. done.
    + cbn [substring String.get]. apply IH.
Qed.

Lemma between_step (text : string) (j cursor : nat) :
  j < cursor ->
  closing (between text j cursor)
  = (delta (String.get j text) + closing (between text (S j) cursor))%Z.
Proof.
  intros L. unfold between.
  replace (cursor - j) with (S (cursor - S j)) by lia. apply closing_step.
Qed.

Lemma between_end (text : string) (cursor : nat) :
  closing (between text cursor cursor) = 0%Z.
Proof. unfold between. by rewrite Nat.sub_diag, substring_none. Qed.

Lemma dangling_from_spec (text : string) (cursor : nat) (o : nat) :
  forall offset depth,
    offset < cursor \/ (offset = 0 /\ cursor = 0) ->
    depth = closing (between text (S offset) cursor) ->
    (0 <= depth)%Z ->
    (forall j, offset < j < cursor ->
       (0 <= closing (between text j cursor))%Z
       /\ String.get j text <> Some "{"%char) ->
    dangling_from text offset depth = Some o <-> encloses text cursor o.
Proof.
  induction offset as [|offset IH]; intros depth L D P Inv.
  - simpl. split; [done|]. intros (Lo & C & _).
    destruct (Inv o) as [I _]; [lia|]. lia.
  - destruct L as [L|[? _]]; [|done].
    assert (Step : closing (between text (S offset) cursor)
                   = (delta (String.get (S offset) text) + depth)%Z).
    { rewrite D. by apply between_step. }
    assert (Found : (delta (String.get (S offset) text) + depth = -1)%Z ->
                    String.get (S offset) text <> Some "{"%char ->
                    Some (S offset) = Some o <-> encloses text cursor o).
    { intros E B. split.
      - intros [= <-]. split; [lia|]. split; [lia|done].
      - intros (Lo & C & After). f_equal.
        destruct (Nat.lt_trichotomy o (S offset)) as [Lt|[->|Gt]]; [|done|].
        + destruct (After (S offset)) as [I _]; [lia|]. lia.
        + destruct (Inv o) as [I _]; [lia|]. lia. }
    assert (Next : forall depth',
               depth' = (delta (String.get (S offset) text) + depth)%Z ->
               depth' <> (-1)%Z -> (-1 <= depth')%Z ->
               String.get (S offset) text <> Some "{"%char ->
               dangling_from text offset depth' = Some o <-> encloses text cursor o).
    { intros depth' E N G B. apply IH; [lia|congruence|lia|].
      intros j Lj. destruct (decide (j = S offset)) as [->|Nj].
      - split; [lia|done].
      - apply Inv. lia. }
    cbn [dangling_from]. unfold delta in *.
    destruct (bool_decide (String.get (S offset) text = Some ")"%char)) eqn:E1.
    { apply bool_decide_eq_true in E1.
      destruct (depth + 1 =? -1)%Z eqn:E0; [apply Z.eqb_eq in E0; lia|].
      apply Next; [lia|lia|lia|by rewrite E1]. }
    destruct (bool_decide (String.get (S offset) text = Some "("%char)) eqn:E2.
    { apply bool_decide_eq_true in E2.
      destruct (depth - 1 =? -1)%Z eqn:E0.
      - apply Z.eqb_eq in E0. apply Found; [lia|by rewrite E2].
      - apply Z.eqb_neq in E0. apply Next; [lia|lia|lia|by rewrite E2]. }
    destruct (bool_decide (String.get (S offset) text = Some "{"%char)) eqn:E3.
    { apply bool_decide_eq_true in E3. split; [done|].
      intros (Lo & C & After).
      destruct (Nat.lt_trichotomy o (S offset)) as [Lt|[->|Gt]].
      - destruct (After (S offset)) as [_ B]; [lia|]. done.
      - lia.
      - destruct (Inv o) as [I _]; [lia|]. lia. }
    apply bool_decide_eq_false in E3.
    destruct (depth =? -1)%Z eqn:E0; [apply Z.eqb_eq in E0; lia|].
    apply Next; [lia|lia|lia|done].
Qed.

(** X13.  [firstDanglingParen] finds the opening parenthesis that encloses
    the cursor: it returns an offset exactly when that offset is after the
    first character and before the cursor, holds an opening parenthesis, the
    text from there to the cursor is balanced and at no point closes less
    than it opens when read backwards from the cursor, and no opening brace
    stands in between.  In particular a parenthesis at offset 0 is never
    found. *)
Theorem firstDanglingParen_encloses (text : string) (cursor o : nat) :
  firstDanglingParen text cursor = Some o
  <-> (0 < o < cursor
       /\ String.get o text = Some "("%char
       /\ closing (between text (S o) cursor) = 0%Z
       /\ forall j, o < j < cursor ->
            (0 <= closing (between text j cursor))%Z
            /\ String.get j text <> Some "{"%char).
Proof.
  assert (H : firstDanglingParen text cursor = Some o <-> encloses text cursor o).
  { unfold firstDanglingParen. apply dangling_from_spec.
    - lia.
    - destruct cursor as [|cursor].
      + unfold between. by rewrite substring_none.
      + replace (S (S cursor - 1)) with (S cursor) by lia. by rewrite between_end.
    - done.
    - intros j Lj. lia. }
  rewrite H. unfold encloses. split.
  - intros (Lo & C & After). split; [done|].
    rewrite between_step in C by lia.
    assert (G : (0 <= closing (between text (S o) cursor))%Z).
    { destruct (decide (S o = cursor)) as [<-|N]; [by rewrite between_end|].
      apply After. lia. }
    unfold delta in C.
    destruct (bool_decide (String.get o text = Some ")"%char)); [lia|].
    destruct (bool_decide (String.get o text = Some "("%char)) eqn:E; [|lia].
    apply bool_decide_eq_true in E. split; [done|]. split; [lia|done].
  - intros (Lo & G & C & After). split; [done|]. split; [|done].
    rewrite between_step by lia. rewrite C, G. done.
Qed.

Lemma firstDanglingParen_encloses_witness :
  firstDanglingParen "x { foo(a, bar(b, c), d" 23 = Some 7
  /\ String.get 7 "x { foo(a, bar(b, c), d" = Some "("%char.
Proof.
  split; [reflexivity|].
  apply (firstDanglingParen_encloses "x { foo(a, bar(b, c), d" 23 7). reflexivity.
Defined.

(** *** The text of the call, from the parenthesis found to the cursor *)

Lemma substring_cons (text : string) : forall j m c,
  String.get j text = Some c ->
  substring j (S m) text = String c (substring (S j) m text).
Proof.
  induction text as [|x text IH]; intros j m c G; [by destruct j|].
  destruct j as [|j].
  - simpl in G. injection G as ->. done.
  - cbn [substring String.get] in *. by apply IH.
Qed.

Lemma substring_past (text : string) : forall j m,
  String.get j text = None -> substring j m text = EmptyString.
Proof.
  induction text as [|x text IH]; intros j m G; [apply substring_empty|].
  destruct j as [|j]; [done|]. cbn [substring String.get] in *. by apply IH.
Qed.

Lemma unclosed_from (text : string) (cursor : nat) :
  forall n j i ps cur depth start,
    cursor - j = n ->
    depth = (1 + closing (between text j cursor))%Z ->
    (forall j', j <= j' < cursor -> (0 <= closing (between text j' cursor))%Z) ->
    exists callParameters,
      parameters_from (between text j cursor) i ps cur depth start
      = (callParameters, start, (-1)%Z).
Proof.
  induction n as [|n IH]; intros j i ps cur depth start N D Inv.
  - unfold between. rewrite N, substring_none. by eexists.
  - assert (L : j < cursor) by lia.
    destruct (String.get j text) as [c|] eqn:G.
    + pose proof (between_step text j cursor L) as Step.
      assert (Here : (0 <= closing (between text j cursor))%Z)
        by (apply Inv; lia).
      assert (Next : (0 <= closing (between text (S j) cursor))%Z).
      { destruct (decide (S j = cursor)) as [<-|Ne]; [by rewrite between_end|].
        apply Inv. lia. }
      assert (Inv' : forall j', S j <= j' < cursor ->
                       (0 <= closing (between text j' cursor))%Z).
      { intros j' Lj. apply Inv. lia. }
      assert (E : between text j cursor = String c (between text (S j) cursor)).
      { unfold between. replace (cursor - j) with (S (cursor - S j)) by lia.
        by apply substring_cons. }
      rewrite G in Step. unfold delta in Step. rewrite E. cbn [parameters_from].
      destruct (Ascii.eqb c "(") eqn:E1.
      { apply Ascii.eqb_eq in E1 as ->.
        rewrite bool_decide_eq_false_2, bool_decide_eq_true_2 in Step by done.
        destruct (depth =? 0)%Z eqn:E0; [apply Z.eqb_eq in E0; lia|].
        apply IH; [lia|lia|done]. }
      destruct (Ascii.eqb c ")") eqn:E2.
      { apply Ascii.eqb_eq in E2 as ->.
        rewrite bool_decide_eq_true_2 in Step by done.
        destruct (depth - 1 =? 0)%Z eqn:E0; [apply Z.eqb_eq in E0; lia|].
        apply IH; [lia|lia|done]. }
      apply Ascii.eqb_neq in E1, E2.
      rewrite !bool_decide_eq_false_2 in Step by congruence.
      destruct (depth =? 0)%Z eqn:E0; [apply Z.eqb_eq in E0; lia|].
      destruct ((depth =? 1)%Z && Ascii.eqb c ","); apply IH; done || lia.
    + unfold between. rewrite substring_past by done. by eexists.
Qed.

(** X14.  The two scans agree: the text from the parenthesis found by
    [firstDanglingParen] to the cursor, which [signatureHelpProvider] hands
    to [parseCall] as text of the call, is read by [parseParameters] to its
    end; the call starts at offset 0 of this text and is not closed, so the
    parameter being typed is the last one read. *)
Theorem call_text_is_unclosed (text : string) (cursor o : nat) :
  firstDanglingParen text cursor = Some o ->
  exists callParameters,
    parseParameters (between text o cursor) 0 = (callParameters, 0%Z, (-1)%Z).
Proof.
  intros H.
  assert (S : encloses text cursor o).
  { revert H. unfold firstDanglingParen. apply dangling_from_spec.
    - lia.
    - destruct cursor as [|cursor].
      + unfold between. by rewrite substring_none.
      + replace (S (S cursor - 1)) with (S cursor) by lia. by rewrite between_end.
    - done.
    - intros j Lj. lia. }
  destruct S as (Lo & C & After).
  rewrite between_step in C by lia.
  assert (G : (0 <= closing (between text (S o) cursor))%Z).
  { destruct (decide (S o = cursor)) as [<-|N]; [by rewrite between_end|].
    apply After. lia. }
  unfold delta in C.
  destruct (bool_decide (String.get o text = Some ")"%char)); [lia|].
  destruct (bool_decide (String.get o text = Some "("%char)) eqn:E; [|lia].
  apply bool_decide_eq_true in E.
  unfold parseParameters. cbn [Regex.drop_string].
  assert (B : between text o cursor = String "(" (between text (S o) cursor)).
  { unfold between. replace (cursor - o) with (S (cursor - S o)) by lia.
    by apply substring_cons. }
  rewrite B. cbn [parameters_from Ascii.eqb Bool.eqb Z.eqb]. cbn.
  apply (unclosed_from text cursor (cursor - S o)); [done|lia|].
  intros j' Lj.
  destruct (decide (j' = S o)) as [->|Ne]; [done|]. apply After. lia.
Qed.

Lemma call_text_is_unclosed_witness :
  firstDanglingParen "x { foo(a, bar(b, c), d" 23 = Some 7
  /\ exists callParameters,
       parseParameters (between "x { foo(a, bar(b, c), d" 7 23) 0
       = (callParameters, 0%Z, (-1)%Z).
Proof.
  split; [reflexivity|].
  apply (call_text_is_unclosed "x { foo(a, bar(b, c), d" 23 7). reflexivity.
Defined.

(** *** The parameter being typed *)

Lemma count_commas (p : string) : forall ps cur,
  no_paren p = true ->
  exists ps' cur',
    length ps' = count_char "," p
    /\ forall rest i start,
         parameters_from (p +:+ rest) i ps cur 1 start
         = parameters_from rest (i + Z.of_nat (String.length p))
                           (ps ++ ps') cur' 1 start.
Proof.
  induction p as [|c p IH]; intros ps cur F.
  - exists [], cur. split; [done|]. intros rest i start.
    simpl. by rewrite Z.add_0_r, app_nil_r.
  - unfold no_paren in F. cbn [occurs] in F.
    apply andb_true_iff in F as [F1 F2]. apply negb_true_iff in F1, F2.
    apply orb_false_iff in F1 as [E1 F1]. apply orb_false_iff in F2 as [E2 F2].
    rewrite Ascii.eqb_sym in E1. rewrite Ascii.eqb_sym in E2.
    assert (F : no_paren p = true) by (unfold no_paren; by rewrite F1, F2).
    destruct (Ascii.eqb c ",") eqn:E3.
    + destruct (IH (ps ++ [cur]) EmptyString F) as (ps' & cur' & Len & Read).
      exists (cur :: ps'), cur'. split.
      * cbn [count_char length]. rewrite Ascii.eqb_sym, E3, Len. done.
      * intros rest i start. cbn [append parameters_from].
        rewrite E1, E2, E3. cbn [Z.eqb andb]. cbn.
        rewrite Read, <- app_assoc. cbn [app String.length].
        replace (i + 1 + Z.of_nat (String.length p))%Z
          with (i + Z.of_nat (S (String.length p)))%Z by lia.
        done.
    + destruct (IH ps (cur +:+ chr c)%string F) as (ps' & cur' & Len & Read).
      exists ps', cur'. split.
      * cbn [count_char]. rewrite Ascii.eqb_sym, E3, Len. done.
      * intros rest i start. cbn [append parameters_from].
        rewrite E1, E2, E3. cbn [Z.eqb]. rewrite andb_false_r.
        rewrite Read. cbn [String.length].
        replace (i + 1 + Z.of_nat (String.length p))%Z
          with (i + Z.of_nat (S (String.length p)))%Z by lia.
        done.
Qed.

Lemma nested_commas (p : string) : forall cur,
  no_paren p = true ->
  exists cur',
    forall rest i ps start,
      parameters_from (p +:+ rest) i ps cur 2 start
      = parameters_from rest (i + Z.of_nat (String.length p)) ps cur' 2 start.
Proof.
  induction p as [|c p IH]; intros cur F.
  - exists cur. intros rest i ps start. simpl. by rewrite Z.add_0_r.
  - unfold no_paren in F. cbn [occurs] in F.
    apply andb_true_iff in F as [F1 F2]. apply negb_true_iff in F1, F2.
    apply orb_false_iff in F1 as [E1 F1]. apply orb_false_iff in F2 as [E2 F2].
    rewrite Ascii.eqb_sym in E1. rewrite Ascii.eqb_sym in E2.
    assert (F : no_paren p = true) by (unfold no_paren; by rewrite F1, F2).
    destruct (IH (cur +:+ chr c)%string F) as (cur' & Read).
    exists cur'. intros rest i ps start. cbn [append parameters_from].
    rewrite E1, E2. cbn [Z.eqb]. cbn [andb]. cbn.
    rewrite Read. cbn [String.length].
    replace (i + 1 + Z.of_nat (String.length p))%Z
      with (i + Z.of_nat (S (String.length p)))%Z by lia.
    done.
Qed.

(** X15.  The active parameter of a call is the number of commas typed at
    the level of the call: for a call text without further parentheses it is
    the number of its commas, and the commas inside the parentheses of an
    argument are not counted. *)
Theorem activeParameter_counts_commas (typed inner later : string) :
  no_paren typed = true -> no_paren inner = true -> no_paren later = true ->
  activeParameter ("(" +:+ typed) = Z.of_nat (count_char "," typed)
  /\ activeParameter ("(" +:+ typed +:+ "(" +:+ inner +:+ ")" +:+ later)
     = Z.of_nat (count_char "," typed + count_char "," later).
Proof.
  intros F1 F2 F3. unfold activeParameter, parseParameters.
  cbn [Regex.drop_string append parameters_from Ascii.eqb Bool.eqb Z.eqb]. cbn.
  destruct (count_commas typed [] EmptyString F1) as (ps1 & cur1 & Len1 & Read1).
  destruct (nested_commas inner cur1 F2) as (cur2 & Read2).
  destruct (count_commas later ([] ++ ps1) cur2 F3) as (ps3 & cur3 & Len3 & Read3).
  split.
  - rewrite <- (RegexFacts.string_app_nil_r typed) at 1.
    rewrite Read1. cbn. rewrite List.length_app. cbn. lia.
  - rewrite Read1. cbn [append parameters_from Ascii.eqb Bool.eqb Z.eqb]. cbn.
    rewrite Read2. cbn [append parameters_from Ascii.eqb Bool.eqb].
    change (2 - 1)%Z with 1%Z. change (1 =? 0)%Z with false. cbv iota.
    rewrite <- (RegexFacts.string_app_nil_r later) at 1.
    rewrite Read3. cbn. rewrite !List.length_app. cbn. lia.
Qed.

Lemma activeParameter_counts_commas_witness :
  activeParameter "(a, f(b, c), " = 2%Z.
Proof.
  apply (activeParameter_counts_commas "a, f" "b, c" ", "); reflexivity.
Defined.

End SignatureHelpFacts.

(** ** More on the JSON diagnostics and on the started task *)

Module ReportFacts.
Import Text Json.

#[local] Arguments String.append !_ _ / : simpl nomatch.

(** Induction on a child with what holds of its own children. *)
Lemma Child_nested_ind (P : Child -> Prop) :
  (forall message spans children,
      Forall P children -> P (mkChild message spans children)) ->
  forall child, P child.
Proof.
  intros H. fix IH 1. intros [message spans children]. apply H.
  induction children as [|c children IHc]; constructor; [apply IH|apply IHc].
Qed.

Lemma notes_after (level : nat) (children : list Child) :
  Forall (fun child => forall level msg,
              addNote level msg child = (msg +:+ addNote level EmptyString child)%string)
         children ->
  forall msg,
    fold_left (addNote level) children msg
    = (msg +:+ fold_left (addNote level) children EmptyString)%string.
Proof.
  induction children as [|c children IH]; intros F msg.
  - simpl. by rewrite RegexFacts.string_app_nil_r.
  - apply Forall_cons in F as [Fc F]. cbn [fold_left].
    rewrite (IH F (addNote level msg c)), (IH F (addNote level EmptyString c)).
    rewrite (Fc level msg), RegexFacts.string_app_assoc. done.
Qed.

Lemma addNote_after (child : Child) : forall level msg,
  addNote level msg child = (msg +:+ addNote level EmptyString child)%string.
Proof.
  induction child as [message spans children IH] using Child_nested_ind.
  intros level msg. cbn [addNote child_message child_spans child_children].
  rewrite (notes_after (S level) children IH).
  rewrite (notes_after (S level) children IH
             (if 0 <? length spans then _ else _)).
  destruct (0 <? length spans); cbn [append];
    rewrite !RegexFacts.string_app_assoc; done.
Qed.

Lemma addNotes_after (children : list Child) (msg : string) (level : nat) :
  addNotesToMessage msg children level
  = (msg +:+ addNotesToMessage EmptyString children level)%string.
Proof.
  unfold addNotesToMessage. apply notes_after.
  apply Forall_forall. intros c _. apply addNote_after.
Qed.

(** X16.  [addNotesToMessage] only appends: its result is the message it
    was given followed by a text that depends on the children and the level
    alone, which is empty when there are no children; the notes of two lists
    of children are those of the first followed by those of the second. *)
Theorem addNotesToMessage_appends (msg : string) (children more : list Child)
        (level : nat) :
  addNotesToMessage msg children level
  = (msg +:+ addNotesToMessage EmptyString children level)%string
  /\ addNotesToMessage msg [] level = msg
  /\ addNotesToMessage msg (children ++ more) level
     = (msg +:+ addNotesToMessage EmptyString children level
            +:+ addNotesToMessage EmptyString more level)%string.
Proof.
  split; [apply addNotes_after|]. split; [done|].
  pose proof (addNotes_after more) as H1. pose proof (addNotes_after children) as H2.
  unfold addNotesToMessage in *. rewrite fold_left_app.
  rewrite H1, H2. by rewrite RegexFacts.string_app_assoc.
Qed.

(** X17.  [parseJson] reports nothing exactly when no span of the
    diagnostic is primary (in particular when it has no span); otherwise
    the error has the level as severity and its message is the message of
    the diagnostic, after the code and a colon when there is a code, followed
    by the notes of the children. *)
Theorem parseJson_reports (errorJson : ErrorJson) :
  (parseJson errorJson = None <-> Forall not_primary (spans errorJson))
  /\ (forall error, parseJson errorJson = Some error ->
        severity error = level errorJson
        /\ error_message error
           = ((match code errorJson with
               | Some c => c +:+ ": " +:+ message errorJson
               | None => message errorJson
               end)
              +:+ addNotesToMessage EmptyString (children errorJson) 1)%string).
Proof.
  assert (F : forall l, List.find is_primary l = None <-> Forall not_primary l).
  { induction l as [|s l IH]; simpl; [by split|].
    destruct (is_primary s) eqn:E.
    - split; [done|]. intros H. apply Forall_cons in H as [H _].
      unfold not_primary in H. congruence.
    - rewrite IH. split; [by constructor|]. intros H. by apply Forall_cons in H as [_ H]. }
  unfold parseJson. split.
  - destruct (spans errorJson) as [|s l] eqn:E; [by split|].
    rewrite <- F. by destruct (List.find is_primary (s :: l)).
  - intros error H.
    destruct (spans errorJson) as [|s l]; [done|].
    destruct (List.find is_primary (s :: l)); [|done].
    injection H as <-. cbn [severity error_message]. split; [done|].
    apply addNotes_after.
Qed.

Lemma parseJson_reports_witness :
  exists error,
    parseJson macro_error = Some error
    /\ severity error = level macro_error
    /\ error_message error = "E0308: mismatched types"%string.
Proof.
  destruct (parseJson macro_error) as [error|] eqn:E.
  - exists error. split; [reflexivity|].
    destruct (proj2 (parseJson_reports macro_error) error E) as [S M].
    split; [exact S|]. rewrite M. reflexivity.
  - vm_compute in E. discriminate E.
Defined.

(** X18.  The task runs in the configured cargo directory when there is
    one, else in the directory asked for; cargo is pointed to the manifest
    exactly when the task does not run in the directory asked for, and the
    manifest named is the one of the directory asked for. *)
Theorem startTask_directory (join : string -> string -> string)
        (cargoCwd : option string) (command : string) (args : list string)
        (cwd : string) (parseOutput : bool) :
  let started :=
    OutputChannelTaskManager.startTask join cargoCwd command args cwd parseOutput in
  let rest :=
    OutputChannelTaskManager.prependArgsWithMessageFormatIfRequired
      parseOutput command args in
  started.2 = default cwd cargoCwd
  /\ (started.2 = cwd -> started.1 = command :: rest)
  /\ (started.2 <> cwd ->
      started.1
      = command :: "--manifest-path"%string :: join cwd "Cargo.toml"%string :: rest).
Proof.
  unfold OutputChannelTaskManager.startTask,
    OutputChannelTaskManager.prependArgsWithManifestPathIfRequired.
  cbn [fst snd]. destruct cargoCwd as [dir|]; cbn [default]; [|done].
  split; [done|].
  destruct (String.eqb dir cwd) eqn:E.
  - apply String.eqb_eq in E. done.
  - apply String.eqb_neq in E. done.
Qed.

Lemma startTask_directory_witness :
  (OutputChannelTaskManager.startTask DiagnosticPublisher.posix_join
     (Some "/w/crate"%string) "fmt" ["--all"]%string "/w" true).1
  = ["fmt"; "--manifest-path"; "/w/Cargo.toml"; "--all"]%string.
Proof.
  apply (startTask_directory DiagnosticPublisher.posix_join
           (Some "/w/crate"%string) "fmt" ["--all"]%string "/w" true).
  discriminate.
Defined.

End ReportFacts.

(** ** The terminal of a task *)

Module TerminalFacts.
Import Text TerminalTaskManager.

(** Text sent to the terminal created last goes to the end of its text. *)
Lemma sendText_last text st ts sent :
  runningTerminal st = Some (length ts) ->
  terminals st = ts ++ [sent] ->
  runningTerminal (sendText text st) = Some (length ts)
  /\ terminals (sendText text st) = ts ++ [sent ++ [text]]
  /\ shown (sendText text st) = shown st
  /\ errors (sendText text st) = errors st.
Proof.
  intros R T. unfold sendText. rewrite R. simpl. rewrite T.
  split; [done|]. split; [|done].
  replace (length ts) with (length ts + 0) by lia.
  by rewrite alter_app_r.
Qed.

Lemma setEnvironmentVariables_last r ts : forall env st sent,
  runningTerminal st = Some (length ts) ->
  terminals st = ts ++ [sent] ->
  let st' := fold_left (fun st variable =>
                 sendText (setEnvironmentVariable (platform r) variable.1 variable.2) st)
               env st in
  runningTerminal st' = Some (length ts)
  /\ terminals st'
     = ts ++ [sent ++ map (fun variable =>
                             setEnvironmentVariable (platform r) variable.1 variable.2)
                          env]
  /\ shown st' = shown st
  /\ errors st' = errors st.
Proof.
  induction env as [|variable env IH]; intros st sent R T.
  - simpl. by rewrite app_nil_r.
  - cbn [fold_left map].
    destruct (sendText_last
                (setEnvironmentVariable (platform r) variable.1 variable.2)
                st ts sent R T) as (R1 & T1 & S1 & E1).
    destruct (IH _ _ R1 T1) as (R2 & T2 & S2 & E2).
    cbn zeta in *. rewrite R2, T2, S2, E2, S1, E1, <- app_assoc. done.
Qed.

Lemma execute_idle r st :
  runningTerminal st = None ->
  runningTerminal (execute r st) = Some (length (terminals st))
  /\ terminals (execute r st) = terminals st ++ [task_text r]
  /\ shown (execute r st) = shown st ++ [length (terminals st)]
  /\ errors (execute r st) = errors st.
Proof.
  intros R. unfold execute. rewrite R.
  destruct (setEnvironmentVariables_last r (terminals st) (cargoEnv r)
              (createTerminal st) [] eq_refl eq_refl) as (R1 & T1 & S1 & E1).
  fold (setEnvironmentVariables r (createTerminal st)) in R1, T1, S1, E1.
  cbn zeta in *.
  destruct (sendText_last ("cd " +:+ quote +:+ cwd r +:+ quote)%string
              _ _ _ R1 T1) as (R2 & T2 & S2 & E2).
  destruct (sendText_last (cargoPath r +:+ " " +:+ command r +:+ " "
                           +:+ join_with " " (args r))%string
              _ _ _ R2 T2) as (R3 & T3 & S3 & E3).
  unfold show. rewrite R3. cbn [runningTerminal terminals shown errors].
  rewrite T3, S3, E3, S2, E2, S1, E1. unfold task_text.
  rewrite <- !app_assoc. done.
Qed.

(** X19.  One task per terminal: after any calls of [execute] and any
    closed terminals, the terminals created hold, in order, the text of the
    calls that were accepted (the environment variables, the change of
    directory, the cargo command line) and nothing else; every other call
    left an error message and sent nothing; and the running terminal, when
    there is one, is the terminal created last. *)
Theorem one_task_per_terminal (evs : list Event) :
  exists accepted,
    accepted `sublist_of` requests evs
    /\ terminals (run evs) = map task_text accepted
    /\ length (errors (run evs)) + length accepted = length (requests evs)
    /\ forall terminal,
         runningTerminal (run evs) = Some terminal ->
         S terminal = length (terminals (run evs)).
Proof.
  induction evs as [|ev evs IH] using rev_ind.
  - exists []. by repeat split.
  - destruct IH as (accepted & Sub & T & E & R).
    unfold run, requests in *. rewrite fold_left_app, omap_app. cbn [fold_left].
    destruct ev as [r|closed]; cbn [step omap].
    + destruct (runningTerminal (fold_left step evs initial)) as [terminal|] eqn:Run.
      * exists accepted. unfold execute. rewrite Run. simpl. split.
        { by apply sublist_inserts_r. }
        split; [done|]. split; [|done].
        rewrite !length_app in *. simpl. lia.
      * destruct (execute_idle r _ Run) as (R1 & T1 & S1 & E1).
        exists (accepted ++ [r]). split.
        { by apply sublist_app. }
        rewrite T1, E1, R1, T, map_app. split; [done|]. split.
        -- rewrite !length_app. simpl. lia.
        -- intros terminal [= <-]. rewrite !length_app, !length_map. simpl. lia.
    + rewrite app_nil_r. exists accepted. unfold onDidCloseTerminal.
      case_bool_decide; simpl; done.
Qed.

Lemma one_task_per_terminal_witness :
  let r := {| platform := NotWin32; cargoEnv := [("RUST_BACKTRACE", "1")]%string;
              cargoPath := "cargo"; command := "build"; args := ["--release"]%string;
              cwd := "/w" |} in
  runningTerminal (run [Execute r; Execute r]) = Some 0
  /\ 1 = length (terminals (run [Execute r; Execute r])).
Proof.
  intros r.
  destruct (one_task_per_terminal [Execute r; Execute r]) as (accepted & _ & _ & _ & R).
  split; [reflexivity|]. apply R. reflexivity.
Defined.

End TerminalFacts.

(** ** The mode and the command line of RLS *)

Module ConfigurationFacts.
Import Configuration.

Lemma setMode_set m m0 c :
  _mode c = Some m0 ->
  _mode (setMode m c) = Some m0 /\ logged (setMode m c) = S (logged c)
  /\ executeCargoCommandInTerminal (setMode m c) = executeCargoCommandInTerminal c.
Proof. intros H. unfold setMode. by rewrite H. Qed.

(** X20.  The mode is set once: the first [setMode] of a configuration
    decides it, every later call changes nothing and logs one error; after
    the mode was set to RLS, cargo commands are executed in a terminal
    whatever the user's setting. *)
Theorem mode_is_set_once (first : Mode) (later : list Mode) (c : Configuration) :
  _mode c = None ->
  let c' := fold_left (fun c m => setMode m c) later (setMode first c) in
  mode c' = Some first
  /\ logged c' = logged c + length later
  /\ shouldExecuteCargoCommandInTerminal c'
     = match first with
       | RLS => true
       | Legacy => executeCargoCommandInTerminal c
       end.
Proof.
  intros H.
  assert (G : forall l c0,
             _mode c0 = Some first ->
             let c' := fold_left (fun c m => setMode m c) l c0 in
             _mode c' = Some first /\ logged c' = logged c0 + length l
             /\ executeCargoCommandInTerminal c' = executeCargoCommandInTerminal c0).
  { induction l as [|m l IH]; intros c0 H0; simpl.
    - split; [done|]. split; [lia|done].
    - destruct (setMode_set m first c0 H0) as (M & L & X).
      destruct (IH _ M) as (M' & L' & X'). cbn zeta in *.
      rewrite M', L', X', L, X. split; [done|]. split; [lia|done]. }
  destruct (G later (setMode first c)) as (M & L & X).
  { unfold setMode. by rewrite H. }
  cbn zeta in *. unfold shouldExecuteCargoCommandInTerminal, mode.
  rewrite M, L, X. unfold setMode. rewrite H. simpl.
  split; [done|]. split; [done|]. by destruct first.
Qed.

Lemma mode_is_set_once_witness :
  let c := {| _mode := None; rustInstallation := None;
              rlsPathSpecifiedByUser := None; rlsArgs := None;
              executeCargoCommandInTerminal := false; logged := 0 |} in
  mode (setMode Legacy (setMode RLS c)) = Some RLS.
Proof.
  intros c. apply (mode_is_set_once RLS [Legacy] c). reflexivity.
Defined.

(** X21.  The command line of RLS: without an executable there are only
    the user's arguments; the executable found through rustup is started
    with [run nightly rls] before the user's arguments; and an executable
    named by the user is given the same three arguments whenever rustup has
    RLS installed, since [getRlsArgs] does not look at the user's path. *)
Theorem rls_command_line (c : Configuration) :
  (getPathToRlsExecutable c = None -> getRlsArgs c = getRlsArgsSpecifiedByUser c)
  /\ (truthy (rlsPathSpecifiedByUser c) = false ->
      getPathToRlsExecutable c = Some "rustup"%string ->
      getRlsArgs c = ["run"; "nightly"; "rls"]%string ++ getRlsArgsSpecifiedByUser c)
  /\ (truthy (rlsPathSpecifiedByUser c) = true ->
      rustInstallation c = Some (IsRustup true) ->
      getPathToRlsExecutable c = rlsPathSpecifiedByUser c
      /\ getRlsArgs c = ["run"; "nightly"; "rls"]%string ++ getRlsArgsSpecifiedByUser c).
Proof.
  unfold getPathToRlsExecutable, getRlsArgs. split; [|split].
  - destruct (truthy (rlsPathSpecifiedByUser c)) eqn:T.
    + intros E. rewrite E in T. done.
    + by destruct (rustInstallation c) as [[[|]|]|].
  - intros ->. by destruct (rustInstallation c) as [[[|]|]|].
  - intros -> ->. done.
Qed.

Lemma rls_command_line_witness :
  let c := {| _mode := None; rustInstallation := Some (IsRustup true);
              rlsPathSpecifiedByUser := Some "/opt/rls"%string;
              rlsArgs := Some ["--verbose"%string];
              executeCargoCommandInTerminal := false; logged := 0 |} in
  getPathToRlsExecutable c = Some "/opt/rls"%string
  /\ getRlsArgs c = ["run"; "nightly"; "rls"; "--verbose"]%string.
Proof.
  intros c. apply (rls_command_line c); reflexivity.
Defined.

End ConfigurationFacts.

(** ** The diagnostics of each file *)

Module ParseDiagnosticsFacts.
Import Vscode Distinct ParseDiagnostics.

Lemma map_get_set {V} p k (v : V) m :
  map_get p (map_set k v m) = if String.eqb p k then Some v else map_get p m.
Proof.
  induction m as [|[k0 v0] m IH]; cbn [map_set map_get]; [done|].
  destruct (String.eqb k k0) eqn:E.
  - apply String.eqb_eq in E as <-. cbn [map_get]. by destruct (String.eqb p k).
  - cbn [map_get]. rewrite IH. destruct (String.eqb p k0) eqn:E0; [|done].
    apply String.eqb_eq in E0 as ->. apply String.eqb_neq in E.
    destruct (String.eqb k0 k) eqn:E1; [|done].
    apply String.eqb_eq in E1. congruence.
Qed.

Lemma map_set_once {V} k (v : V) m :
  NoDup m.*1 -> NoDup (map_set k v m).*1.
Proof.
  induction m as [|[k0 v0] m IH]; intros N; cbn [map_set].
  - apply NoDup_singleton.
  - cbn [fmap list_fmap fst] in N. apply NoDup_cons in N as [N0 N].
    destruct (String.eqb k k0) eqn:E.
    + apply String.eqb_eq in E as ->. cbn [fmap list_fmap fst]. by apply NoDup_cons.
    + apply String.eqb_neq in E. cbn [fmap list_fmap fst]. apply NoDup_cons.
      split; [|by apply IH].
      intros H. apply list_elem_of_fmap in H as [[k1 v1] [-> H]].
      apply DiagnosticFacts.map_set_elem in H; [|done].
      destruct H as [[-> _]|[_ H]]; [done|].
      apply N0. apply list_elem_of_fmap. by exists (k1, v1).
Qed.

Section Publish.
Variable join : string -> string -> string.
Variable newRange : Z -> Z -> Z -> Z -> option Range.

Local Abbreviation diagnostic_of := (diagnostic_of newRange).
Local Abbreviation diagnosticMap := (diagnosticMap join newRange).
Local Abbreviation file_errors := (file_errors join).

Lemma diagnosticMap_snoc cwd errors error :
  diagnosticMap cwd (errors ++ [error])
  = match diagnosticMap cwd errors with
    | Some m => add_error join newRange cwd m error
    | None => None
    end.
Proof. unfold ParseDiagnostics.diagnosticMap. by rewrite fold_left_app. Qed.

(** X22.  The loop of [parseDiagnostics] over the errors fails exactly when
    the range of some error cannot be made; otherwise every file path
    stands once in the map and holds the diagnostics of all the errors of
    that file and of no other, in the order of the errors; a path without
    errors is not in the map. *)
Theorem diagnostics_grouped_by_file (cwd : string) (errors : list Json.RustError) :
  (diagnosticMap cwd errors = None
   <-> Exists (fun error => diagnostic_of error = None) errors)
  /\ forall m, diagnosticMap cwd errors = Some m ->
       NoDup m.*1
       /\ forall filePath,
            match map_get filePath m with
            | Some diagnostics =>
                file_errors cwd filePath errors <> []
                /\ Forall2 (fun error diagnostic =>
                              diagnostic_of error = Some diagnostic)
                           (file_errors cwd filePath errors) diagnostics
            | None => file_errors cwd filePath errors = []
            end.
Proof.
  induction errors as [|error errors IH] using rev_ind.
  - split.
    + split; [done|]. intros H. by apply Exists_nil in H.
    + intros m [= <-]. split; [constructor|done].
  - destruct IH as [IHn IHs]. rewrite diagnosticMap_snoc, Exists_app.
    destruct (diagnosticMap cwd errors) as [m0|] eqn:E0.
    + destruct (IHs m0 eq_refl) as [N G]. unfold add_error.
      destruct (diagnostic_of error) as [diagnostic|] eqn:D.
      * split.
        { split; [done|]. intros [H|H].
          - by apply IHn in H.
          - apply Exists_cons in H as [H|H]; [congruence|by apply Exists_nil in H]. }
        intros m [= <-]. split; [by apply map_set_once|].
        intros filePath. rewrite map_get_set.
        unfold ParseDiagnostics.file_errors in *. rewrite filter_app.
        destruct (String.eqb filePath (join cwd (Json.filename error))) eqn:E.
        -- apply String.eqb_eq in E as ->.
           rewrite filter_cons_True by done. rewrite filter_nil.
           split; [by intros H; apply app_eq_nil in H as [_ H]|].
           apply Forall2_app; [|by repeat constructor].
           specialize (G (join cwd (Json.filename error))).
           destruct (map_get (join cwd (Json.filename error)) m0).
           ++ apply G.
           ++ rewrite G. constructor.
        -- apply String.eqb_neq in E.
           rewrite filter_cons_False by congruence. rewrite filter_nil, app_nil_r.
           apply G.
      * split; [|done]. split; [|done]. intros _. right. by apply Exists_cons; left.
    + split; [|done]. split; [|done]. intros _. left. by apply IHn.
Qed.

End Publish.

Lemma diagnostics_grouped_by_file_witness :
  exists m,
    diagnosticMap DiagnosticPublisher.posix_join checked_range "/w" sample_errors
    = Some m
    /\ NoDup m.*1
    /\ length <$> map_get "/w/src/a.rs" m = Some 2.
Proof.
  destruct (diagnosticMap DiagnosticPublisher.posix_join checked_range "/w"
                          sample_errors) as [m|] eqn:E.
  - exists m. split; [reflexivity|].
    pose proof (proj2 (diagnostics_grouped_by_file DiagnosticPublisher.posix_join
                         checked_range "/w" sample_errors) m E) as [N G].
    split; [exact N|].
    specialize (G "/w/src/a.rs"%string).
    destruct (map_get "/w/src/a.rs" m) as [diagnostics|].
    + destruct G as [_ G]. apply Forall2_length in G. simpl. f_equal.
      rewrite <- G. reflexivity.
    + vm_compute in G. discriminate G.
  - vm_compute in E. discriminate E.
Defined.

End ParseDiagnosticsFacts.
